(** * NoteFlow v2: a shallow embedding of the pipeline core

    The development follows the layout of the repository:
    - [core/models]   : enums, [Artifact], [StepResult], [Job];
    - [core/plugins]  : [Processor], [ProcessorRegistry] and its dependency
                        resolver ([get_execution_order], Kahn's algorithm);
    - [core/engine]   : [Router], [ExecutionContext], [JobExecutor];
    - [core/watchers] : [WatchConfig.matches_file].

    Python dictionaries whose iteration order is observable (the registry)
    are association lists kept in insertion order; dictionaries used only
    through lookups (the job data bag, the tables of Kahn's algorithm, the
    filesystem, the stores) are [gmap]s.  A call that can raise returns an
    [outcome]; a method that mutates its receiver returns the new receiver.

    What lies outside the repository is taken as follows.  The filesystem
    is a POSIX one; the text codecs and the YAML and JSON libraries are
    parameters ([Codec]).  The artifact table enforces its foreign key on
    the job table.  The job table takes every job it is given
    ([JobStore.save] returns), the callbacks of the executor return, and so
    does [requires_user_input]; only exceptions that derive from
    [Exception] are modelled.  A statement that a method of the executor
    returns is to be read under these assumptions. *)

From Stdlib Require Import ZArith Lia Ascii String.
From stdpp Require Import base option list strings gmap fin_maps relations.

Set Warnings "-register-all".
Open Scope Z_scope.

(** ** Exceptions *)

(** The exception classes the modelled code raises or meets.  All of them
    derive from [Exception], so an [except Exception] clause catches every
    exception of the model; cancellation of the running task, which does
    not, is outside it.  [UnicodeError] stands for its two subclasses,
    [IntegrityError] is the one of [sqlite3]. *)
Inductive exn : Type :=
  | ValueError (msg : string)
  | FileExistsError (msg : string)
  | FileNotFoundError (msg : string)
  | IsADirectoryError (msg : string)
  | NotADirectoryError (msg : string)
  | OSError (msg : string)
  | TypeError (msg : string)
  | LookupError (msg : string)
  | UnicodeError (msg : string)
  | IntegrityError (msg : string)
  | ProcessorError (msg : string).

Inductive outcome (A : Type) : Type :=
  | Ok (a : A)
  | Raise (e : exn).
Arguments Ok {A} a.
Arguments Raise {A} e.

(** [str(e)] of an exception. *)
Definition exn_str (e : exn) : string :=
  match e with
  | ValueError m | FileExistsError m | FileNotFoundError m
  | IsADirectoryError m | NotADirectoryError m | OSError m | TypeError m
  | LookupError m | UnicodeError m | IntegrityError m | ProcessorError m => m
  end.

(** ** Insertion-ordered dictionaries *)

Section dict.
Context {V : Type}.

Definition dict := list (string * V).

Fixpoint dict_get (k : string) (d : list (string * V)) : option V :=
  match d with
  | [] => None
  | (k', v) :: d' => if decide (k' = k) then Some v else dict_get k d'
  end.

Definition dict_mem (k : string) (d : list (string * V)) : bool :=
  bool_decide (is_Some (dict_get k d)).

(** [d[k] = v]: an existing key keeps its place, a new key goes last. *)
Fixpoint dict_set (k : string) (v : V) (d : list (string * V)) : list (string * V) :=
  match d with
  | [] => [(k, v)]
  | (k', v') :: d' =>
      if decide (k' = k) then (k', v) :: d' else (k', v') :: dict_set k v d'
  end.

(** [d.pop(k, None)]. *)
Fixpoint dict_pop (k : string) (d : list (string * V)) : list (string * V) :=
  match d with
  | [] => []
  | (k', v') :: d' =>
      if decide (k' = k) then d' else (k', v') :: dict_pop k d'
  end.

Definition dict_keys (d : list (string * V)) : list string := fst <$> d.
Definition dict_values (d : list (string * V)) : list V := snd <$> d.
End dict.

(** ** core/models/enums.py *)

Inductive JobStatus : Type :=
  | JOB_PENDING | JOB_PROCESSING | JOB_AWAITING_INPUT | JOB_COMPLETED
  | JOB_FAILED | JOB_CANCELLED | JOB_REVERTING | JOB_REVERTED.

Inductive StepStatus : Type :=
  | STEP_PENDING | STEP_RUNNING | STEP_AWAITING_INPUT | STEP_COMPLETED
  | STEP_FAILED | STEP_SKIPPED | STEP_REVERTED.

Inductive ArtifactType : Type :=
  | FILE_CREATE | FILE_MODIFY | FILE_DELETE | FILE_MOVE
  | FRONTMATTER_UPDATE | EXTERNAL_API_CREATE | EXTERNAL_API_MODIFY | METADATA.

Inductive ArtifactStatus : Type :=
  | ART_PENDING | ART_CREATED | ART_REVERTED | ART_FAILED
  | ART_ORPHANED | ART_IRREVERSIBLE.

Inductive ReversibilityLevel : Type :=
  | FULLY_REVERSIBLE | PARTIALLY_REVERSIBLE | IRREVERSIBLE | MANUAL_REVERT.

#[global] Instance JobStatus_eq_dec : EqDecision JobStatus.
Proof. solve_decision. Defined.
#[global] Instance StepStatus_eq_dec : EqDecision StepStatus.
Proof. solve_decision. Defined.
#[global] Instance ArtifactType_eq_dec : EqDecision ArtifactType.
Proof. solve_decision. Defined.
#[global] Instance ArtifactStatus_eq_dec : EqDecision ArtifactStatus.
Proof. solve_decision. Defined.
#[global] Instance ReversibilityLevel_eq_dec : EqDecision ReversibilityLevel.
Proof. solve_decision. Defined.

(** ** Opaque values *)

(** The values typed [Any] / [dict] in the source (data bag entries, step
    output, user input, frontmatter, API payloads, artifact metadata). *)
Inductive json : Type :=
  | JNull
  | JBool (b : bool)
  | JNum (z : Z)
  | JStr (s : string)
  | JList (l : list json)
  | JDict (d : list (string * json)).

(** [datetime] values are readings of a clock; identifiers ([uuid4]) are
    drawn from a supply of fresh tokens held by the execution environment. *)
Definition datetime := Z.
Definition uuid := N.

(** ** core/models/artifact.py *)

Record Artifact : Type := mkArtifact {
  artifact_id : uuid;
  artifact_job_id : uuid;
  artifact_step_name : string;
  artifact_type : ArtifactType;
  target : string;
  before_state : option string;
  after_state : option string;
  metadata : gmap string json;
  artifact_status : ArtifactStatus;
  reversibility : ReversibilityLevel;
  artifact_created_at : datetime;
  artifact_reverted_at : option datetime;
  artifact_error_message : option string;
}.

Module Artifact_.
Definition with_status (s : ArtifactStatus) (a : Artifact) : Artifact :=
  mkArtifact (artifact_id a) (artifact_job_id a) (artifact_step_name a)
    (artifact_type a) (target a) (before_state a) (after_state a)
    (metadata a) s (reversibility a) (artifact_created_at a)
    (artifact_reverted_at a) (artifact_error_message a).

Definition mark_created (a : Artifact) : Artifact :=
  with_status ART_CREATED a.

Definition mark_reverted (now : datetime) (a : Artifact) : Artifact :=
  mkArtifact (artifact_id a) (artifact_job_id a) (artifact_step_name a)
    (artifact_type a) (target a) (before_state a) (after_state a)
    (metadata a) ART_REVERTED (reversibility a) (artifact_created_at a)
    (Some now) (artifact_error_message a).

Definition mark_irreversible (reason : option string) (a : Artifact) : Artifact :=
  mkArtifact (artifact_id a) (artifact_job_id a) (artifact_step_name a)
    (artifact_type a) (target a) (before_state a) (after_state a)
    (match reason with
     | Some r => if decide (r = "") then metadata a
                 else <["irreversible_reason" := JStr r]> (metadata a)
     | None => metadata a
     end)
    ART_IRREVERSIBLE IRREVERSIBLE (artifact_created_at a)
    (artifact_reverted_at a) (artifact_error_message a).

Definition can_revert (a : Artifact) : bool :=
  bool_decide (artifact_status a = ART_CREATED)
  && negb (bool_decide (reversibility a = IRREVERSIBLE)).
End Artifact_.

(** ** core/models/step.py *)

Record StepDefinition : Type := mkStepDefinition {
  def_name : string;
  def_display_name : string;
  def_description : string;
  def_requires : list string;
  def_has_ui : bool;
  def_requires_input : string;
  def_can_skip : bool;
  def_auto_revert_on_error : bool;
}.

Record StepResult : Type := mkStepResult {
  step_id : uuid;
  step_job_id : uuid;
  step_name : string;
  step_status : StepStatus;
  step_started_at : option datetime;
  step_completed_at : option datetime;
  artifacts : list Artifact;
  output_data : gmap string json;
  step_error_message : option string;
  error_traceback : option string;
  awaiting_input_since : option datetime;
  user_input : option json;
  step_reverted_at : option datetime;
  revert_error : option string;
}.

Module StepResult_.
(** [StepResult(job_id=..., step_name=...)] with the field defaults. *)
Definition new (id job_id : uuid) (name : string) : StepResult :=
  mkStepResult id job_id name STEP_PENDING None None [] ∅ None None None
    None None None.

Definition start (now : datetime) (r : StepResult) : StepResult :=
  mkStepResult (step_id r) (step_job_id r) (step_name r) STEP_RUNNING
    (Some now) (step_completed_at r) (artifacts r) (output_data r)
    (step_error_message r) (error_traceback r) (awaiting_input_since r)
    (user_input r) (step_reverted_at r) (revert_error r).

(** [if output:] is false for [None] and for the empty dict. *)
Definition complete (now : datetime) (output : option (gmap string json))
    (r : StepResult) : StepResult :=
  mkStepResult (step_id r) (step_job_id r) (step_name r) STEP_COMPLETED
    (step_started_at r) (Some now) (artifacts r)
    (match output with
     | Some o => if decide (o = ∅) then output_data r else o
     | None => output_data r
     end)
    (step_error_message r) (error_traceback r) (awaiting_input_since r)
    (user_input r) (step_reverted_at r) (revert_error r).

Definition fail (now : datetime) (error : string) (traceback : option string)
    (r : StepResult) : StepResult :=
  mkStepResult (step_id r) (step_job_id r) (step_name r) STEP_FAILED
    (step_started_at r) (Some now) (artifacts r) (output_data r)
    (Some error) traceback (awaiting_input_since r)
    (user_input r) (step_reverted_at r) (revert_error r).

(** [if reason:] is false for [None] and for the empty string. *)
Definition skip (now : datetime) (reason : option string) (r : StepResult)
    : StepResult :=
  mkStepResult (step_id r) (step_job_id r) (step_name r) STEP_SKIPPED
    (step_started_at r) (Some now) (artifacts r)
    (match reason with
     | Some s => if decide (s = "") then output_data r
                 else <["skip_reason" := JStr s]> (output_data r)
     | None => output_data r
     end)
    (step_error_message r) (error_traceback r) (awaiting_input_since r)
    (user_input r) (step_reverted_at r) (revert_error r).

Definition await_input (now : datetime) (r : StepResult) : StepResult :=
  mkStepResult (step_id r) (step_job_id r) (step_name r) STEP_AWAITING_INPUT
    (step_started_at r) (step_completed_at r) (artifacts r) (output_data r)
    (step_error_message r) (error_traceback r) (Some now)
    (user_input r) (step_reverted_at r) (revert_error r).

Definition mark_reverted (now : datetime) (r : StepResult) : StepResult :=
  mkStepResult (step_id r) (step_job_id r) (step_name r) STEP_REVERTED
    (step_started_at r) (step_completed_at r) (artifacts r) (output_data r)
    (step_error_message r) (error_traceback r) (awaiting_input_since r)
    (user_input r) (Some now) (revert_error r).

(** The assignment [result.revert_error = str(e)]. *)
Definition set_revert_error (msg : string) (r : StepResult) : StepResult :=
  mkStepResult (step_id r) (step_job_id r) (step_name r) (step_status r)
    (step_started_at r) (step_completed_at r) (artifacts r) (output_data r)
    (step_error_message r) (error_traceback r) (awaiting_input_since r)
    (user_input r) (step_reverted_at r) (Some msg).

Definition can_revert (r : StepResult) : bool :=
  bool_decide (step_status r = STEP_COMPLETED)
  && forallb Artifact_.can_revert (artifacts r).

(** [provide_input]: the input is recorded and the step runs again. *)
Definition provide_input (input : json) (r : StepResult) : StepResult :=
  mkStepResult (step_id r) (step_job_id r) (step_name r) STEP_RUNNING
    (step_started_at r) (step_completed_at r) (artifacts r) (output_data r)
    (step_error_message r) (error_traceback r) (awaiting_input_since r)
    (Some input) (step_reverted_at r) (revert_error r).

Definition add_artifact (a : Artifact) (r : StepResult) : StepResult :=
  mkStepResult (step_id r) (step_job_id r) (step_name r) (step_status r)
    (step_started_at r) (step_completed_at r) (artifacts r ++ [a])
    (output_data r) (step_error_message r) (error_traceback r)
    (awaiting_input_since r) (user_input r) (step_reverted_at r)
    (revert_error r).

Definition is_terminal (r : StepResult) : bool :=
  match step_status r with
  | STEP_COMPLETED | STEP_FAILED | STEP_SKIPPED | STEP_REVERTED => true
  | _ => false
  end.
End StepResult_.

(** ** core/models/job.py *)

Record Job : Type := mkJob {
  job_id : uuid;
  source_type : string;
  source_path : option string;
  source_url : option string;
  source_name : string;
  status : JobStatus;
  current_step : option string;
  next_step : option string;
  data : gmap string json;
  history : list StepResult;
  config : gmap string json;
  tags : list string;
  created_at : datetime;
  started_at : option datetime;
  completed_at : option datetime;
  updated_at : datetime;
  error_message : option string;
  priority : Z;
}.

Module Job_.
(** [Job(source_type=..., source_name=...)]: every other field takes its
    declared default. *)
Definition new (id : uuid) (now : datetime) (source_type source_name : string)
    : Job :=
  mkJob id source_type None None source_name JOB_PENDING None None ∅ [] ∅ []
    now None None now None 0.

(** *** State transitions *)

Definition start_processing (now : datetime) (step_name : string) (j : Job)
    : Job :=
  mkJob (job_id j) (source_type j) (source_path j) (source_url j)
    (source_name j) JOB_PROCESSING (Some step_name) (next_step j) (data j)
    (history j) (config j) (tags j) (created_at j)
    (match started_at j with None => Some now | Some t => Some t end)
    (completed_at j) now (error_message j) (priority j).

Definition await_input (now : datetime) (step_name : string) (j : Job) : Job :=
  mkJob (job_id j) (source_type j) (source_path j) (source_url j)
    (source_name j) JOB_AWAITING_INPUT (Some step_name) (next_step j) (data j)
    (history j) (config j) (tags j) (created_at j) (started_at j)
    (completed_at j) now (error_message j) (priority j).

Definition complete (now : datetime) (j : Job) : Job :=
  mkJob (job_id j) (source_type j) (source_path j) (source_url j)
    (source_name j) JOB_COMPLETED None (next_step j) (data j)
    (history j) (config j) (tags j) (created_at j) (started_at j)
    (Some now) now (error_message j) (priority j).

Definition fail (now : datetime) (error : string) (j : Job) : Job :=
  mkJob (job_id j) (source_type j) (source_path j) (source_url j)
    (source_name j) JOB_FAILED (current_step j) (next_step j) (data j)
    (history j) (config j) (tags j) (created_at j) (started_at j)
    (Some now) now (Some error) (priority j).

Definition cancel (now : datetime) (j : Job) : Job :=
  mkJob (job_id j) (source_type j) (source_path j) (source_url j)
    (source_name j) JOB_CANCELLED (current_step j) (next_step j) (data j)
    (history j) (config j) (tags j) (created_at j) (started_at j)
    (Some now) now (error_message j) (priority j).

Definition start_revert (now : datetime) (j : Job) : Job :=
  mkJob (job_id j) (source_type j) (source_path j) (source_url j)
    (source_name j) JOB_REVERTING (current_step j) (next_step j) (data j)
    (history j) (config j) (tags j) (created_at j) (started_at j)
    (completed_at j) now (error_message j) (priority j).

Definition complete_revert (now : datetime) (to_step : option string) (j : Job)
    : Job :=
  mkJob (job_id j) (source_type j) (source_path j) (source_url j)
    (source_name j)
    (match to_step with None => JOB_REVERTED | Some _ => JOB_PENDING end)
    to_step (next_step j) (data j)
    (history j) (config j) (tags j) (created_at j) (started_at j)
    (completed_at j) now (error_message j) (priority j).

(** *** History management *)

Definition set_history (h : list StepResult) (j : Job) : Job :=
  mkJob (job_id j) (source_type j) (source_path j) (source_url j)
    (source_name j) (status j) (current_step j) (next_step j) (data j)
    h (config j) (tags j) (created_at j) (started_at j)
    (completed_at j) (updated_at j) (error_message j) (priority j).

Definition add_step_result (now : datetime) (result : StepResult) (j : Job)
    : Job :=
  mkJob (job_id j) (source_type j) (source_path j) (source_url j)
    (source_name j) (status j) (current_step j) (next_step j) (data j)
    (history j ++ [result]) (config j) (tags j) (created_at j) (started_at j)
    (completed_at j) now (error_message j) (priority j).

(** The most recent result for a step: the scan of [reversed(history)]. *)
Definition get_step_result (step : string) (j : Job) : option StepResult :=
  head (filter (λ r, step_name r = step) (reverse (history j))).

Definition get_completed_steps (j : Job) : list string :=
  step_name <$> filter (λ r, step_status r = STEP_COMPLETED) (history j).

Definition has_completed_step (step : string) (j : Job) : bool :=
  bool_decide (step ∈ get_completed_steps j).

(** *** Data access *)

(** [self.data.update(data)]: the entries of [d] win. *)
Definition merge_data (now : datetime) (d : gmap string json) (j : Job) : Job :=
  mkJob (job_id j) (source_type j) (source_path j) (source_url j)
    (source_name j) (status j) (current_step j) (next_step j) (d ∪ data j)
    (history j) (config j) (tags j) (created_at j) (started_at j)
    (completed_at j) now (error_message j) (priority j).

(** [self.data.get(key, default)]. *)
Definition get_data (key : string) (default : json) (j : Job) : json :=
  match data j !! key with
  | Some v => v
  | None => default
  end.

Definition set_data (now : datetime) (key : string) (v : json) (j : Job) : Job :=
  mkJob (job_id j) (source_type j) (source_path j) (source_url j)
    (source_name j) (status j) (current_step j) (next_step j)
    (<[key := v]> (data j))
    (history j) (config j) (tags j) (created_at j) (started_at j)
    (completed_at j) now (error_message j) (priority j).

(** *** Computed properties *)

Definition is_active (j : Job) : bool :=
  match status j with
  | JOB_PENDING | JOB_PROCESSING | JOB_AWAITING_INPUT => true
  | _ => false
  end.

Definition is_terminal (j : Job) : bool :=
  match status j with
  | JOB_COMPLETED | JOB_FAILED | JOB_CANCELLED | JOB_REVERTED => true
  | _ => false
  end.

Definition all_artifacts (j : Job) : list Artifact :=
  flat_map artifacts (history j).

Definition reversible_steps (j : Job) : list StepResult :=
  filter (λ r, StepResult_.can_revert r = true) (history j).
End Job_.

(** ** The environment of the engine *)

(** *** Filesystem

    A flat listing from path strings (as [str(Path(p))] prints them) to
    nodes; a file holds bytes.  The root and the working directory always
    exist.  The listing need not name every directory: a file listed
    without its directory stands in one that is there but not listed.  A
    file is opened, removed or renamed without a look at the directory
    above it: the directory of a file that exists is there, the code makes
    the directory of a new file before it writes, and it never removes a
    directory.  Only [mkdir] consults the listing of directories: it makes,
    and lists, every directory on the way that is not listed.  The
    primitives follow the POSIX behaviour of the Python calls named in
    their comments; the message of an OS error is represented by the path
    it names. *)

Inductive node : Type :=
  | File (content : string)
  | Dir.

#[global] Instance node_eq_dec : EqDecision node.
Proof. solve_decision. Defined.

(** [str(Path(p))] for a path string already in normal form: only the empty
    path is rewritten (it prints as ["."]), so a printed path is never
    empty. *)
Definition path_str (p : string) : string :=
  if decide (p = "") then "." else p.

Module FS.
Definition slash : ascii := ascii_of_nat 47.

(** On a path read backwards: what precedes its last slash. *)
Fixpoint before_slash (l : list ascii) : option (list ascii) :=
  match l with
  | [] => None
  | a :: l' => if decide (a = slash) then Some l' else before_slash l'
  end.

(** [Path(p).parent] as [str] prints it: ["/v/a.md"] gives ["/v"], ["/v"]
    gives ["/"], a bare name gives ["."]; ["/"] and ["."] are their own
    parents. *)
Definition parent (p : string) : string :=
  match before_slash (rev (list_ascii_of_string p)) with
  | None => "."
  | Some [] => "/"
  | Some d => string_of_list_ascii (rev d)
  end.

Definition is_root (p : string) : bool :=
  bool_decide (p = "/") || bool_decide (p = ".").

(** What is found at [p]. *)
Definition stat (p : string) (fs : gmap string node) : option node :=
  if is_root p then Some Dir else fs !! p.

(** [Path.exists()]. *)
Definition exists_ (p : string) (fs : gmap string node) : bool :=
  bool_decide (is_Some (stat p fs)).

(** [Path.is_dir()]. *)
Definition is_dir (p : string) (fs : gmap string node) : bool :=
  bool_decide (stat p fs = Some Dir).

(** [open(p, "rb").read()]: the bytes of a file. *)
Definition read_bytes (p : string) (fs : gmap string node) : outcome string :=
  match stat p fs with
  | Some (File c) => Ok c
  | Some Dir => Raise (IsADirectoryError p)
  | None => Raise (FileNotFoundError p)
  end.

(** [open(p, "w")]: the file is created, or emptied if it is there. *)
Definition truncate (p : string) (fs : gmap string node)
    : outcome (gmap string node) :=
  match stat p fs with
  | Some Dir => Raise (IsADirectoryError p)
  | _ => Ok (<[p := File ""]> fs)
  end.

(** [os.remove(p)]. *)
Definition remove (p : string) (fs : gmap string node)
    : outcome (gmap string node) :=
  match stat p fs with
  | Some (File _) => Ok (delete p fs)
  | Some Dir => Raise (IsADirectoryError p)
  | None => Raise (FileNotFoundError p)
  end.

(** [os.rename(src, dst)]: a file silently replaces an existing file; a
    directory cannot be replaced by a file nor a file by a directory;
    renaming onto an existing directory is refused (its emptiness is not
    modelled), and so is renaming the root or the working directory. *)
Definition rename (src dst : string) (fs : gmap string node)
    : outcome (gmap string node) :=
  if is_root src || is_root dst then Raise (OSError src) else
  match fs !! src with
  | None => Raise (FileNotFoundError src)
  | Some (File c) =>
      match fs !! dst with
      | Some Dir => Raise (IsADirectoryError dst)
      | _ => Ok (<[dst := File c]> (delete src fs))
      end
  | Some Dir =>
      match fs !! dst with
      | Some (File _) => Raise (NotADirectoryError dst)
      | Some Dir => Raise (OSError dst)
      | None => Ok (<[dst := Dir]> (delete src fs))
      end
  end.

(** [os.mkdir(d)]: [d] must be new and the directory above it must be
    there. *)
Definition os_mkdir (d : string) (fs : gmap string node)
    : outcome (gmap string node) :=
  match stat d fs with
  | Some _ => Raise (FileExistsError d)
  | None =>
      match stat (parent d) fs with
      | Some Dir => Ok (<[d := Dir]> fs)
      | Some (File _) => Raise (NotADirectoryError d)
      | None => Raise (FileNotFoundError d)
      end
  end.

(** [Path(d).mkdir(parents=True, exist_ok=True)] as [pathlib] writes it:
    [os.mkdir] is tried; when the directory above is missing it is made
    first, by the same method, and [os.mkdir] is tried once more; any other
    failure is forgiven when [d] is a directory.  The files left are
    returned with the way the call ended.  Every turn of the recursion
    works on a shorter path; [fuel] bounds their number. *)
Fixpoint mkdir_parents (fuel : nat) (d : string) (fs : gmap string node)
    : gmap string node * outcome unit :=
  match os_mkdir d fs with
  | Ok fs' => (fs', Ok tt)
  | Raise (FileNotFoundError m) =>
      if decide (parent d = d) then (fs, Raise (FileNotFoundError m))
      else
        match fuel with
        | O => (fs, Raise (FileNotFoundError m))
        | S fuel =>
            match mkdir_parents fuel (parent d) fs with
            | (fs1, Raise e) => (fs1, Raise e)
            | (fs1, Ok _) =>
                match os_mkdir d fs1 with
                | Ok fs2 => (fs2, Ok tt)
                | Raise (FileNotFoundError m') =>
                    (fs1, Raise (FileNotFoundError m'))
                | Raise e =>
                    if is_dir d fs1 then (fs1, Ok tt) else (fs1, Raise e)
                end
            end
        end
  | Raise e => if is_dir d fs then (fs, Ok tt) else (fs, Raise e)
  end.

(** The length of the path is fuel enough ([mkdir_fuel] below). *)
Definition mkdir (d : string) (fs : gmap string node)
    : gmap string node * outcome unit :=
  mkdir_parents (String.length d) d fs.
End FS.

(** *** World: filesystem, database tables, clock, identifier supply *)

(** The two callbacks of the executor ([on_step_complete],
    [on_awaiting_input]) are represented by the log of their calls. *)
Inductive Event : Type :=
  | EvStepComplete (job : uuid) (result : StepResult)
  | EvAwaitingInput (job : uuid) (step : string).

Record World : Type := mkWorld {
  fs : gmap string node;
  artifact_rows : gmap uuid Artifact;
  job_rows : gmap uuid Job;
  clock : datetime;
  uuid_supply : uuid;
  events : list Event;
}.

Definition set_fs (f : gmap string node) (w : World) : World :=
  mkWorld f (artifact_rows w) (job_rows w) (clock w) (uuid_supply w) (events w).

Definition set_artifact_rows (a : gmap uuid Artifact) (w : World) : World :=
  mkWorld (fs w) a (job_rows w) (clock w) (uuid_supply w) (events w).

Definition set_job_rows (j : gmap uuid Job) (w : World) : World :=
  mkWorld (fs w) (artifact_rows w) j (clock w) (uuid_supply w) (events w).

Definition emit (e : Event) (w : World) : World :=
  mkWorld (fs w) (artifact_rows w) (job_rows w) (clock w) (uuid_supply w)
    (events w ++ [e]).

(** [uuid4()]: the next unused identifier. *)
Definition fresh_uuid (w : World) : uuid * World :=
  (uuid_supply w,
   mkWorld (fs w) (artifact_rows w) (job_rows w) (clock w)
     (N.succ (uuid_supply w)) (events w)).

(** [datetime.utcnow()]. *)
Definition utcnow (w : World) : datetime := clock w.

(** ** core/storage *)

Module ArtifactStore.
(** [save]: [INSERT ... ON CONFLICT(id) DO UPDATE SET status,
    reversibility, error_message, reverted_at].  The table declares
    [FOREIGN KEY (job_id) REFERENCES jobs(id)] and the connection turns
    foreign keys on: a new row whose job has no row is refused with
    [IntegrityError] and nothing is written; the update of a row that is
    there does not look at the job. *)
Definition save (a : Artifact) (w : World) : outcome World :=
  match artifact_rows w !! artifact_id a with
  | Some old =>
      Ok (set_artifact_rows
            (<[artifact_id a :=
                 mkArtifact (artifact_id old) (artifact_job_id old)
                   (artifact_step_name old) (artifact_type old) (target old)
                   (before_state old) (after_state old) (metadata old)
                   (artifact_status a) (reversibility a)
                   (artifact_created_at old) (artifact_reverted_at a)
                   (artifact_error_message a)]> (artifact_rows w)) w)
  | None =>
      if bool_decide (is_Some (job_rows w !! artifact_job_id a)) then
        Ok (set_artifact_rows (<[artifact_id a := a]> (artifact_rows w)) w)
      else Raise (IntegrityError "FOREIGN KEY constraint failed")
  end.

(** A loop [for artifact in artifacts: await store.save(artifact)]: the
    connection is in autocommit mode, so the rows written before a save
    that raises stay. *)
Fixpoint save_each (l : list Artifact) (w : World) : World * outcome unit :=
  match l with
  | [] => (w, Ok tt)
  | a :: l' =>
      match save a w with
      | Ok w' => save_each l' w'
      | Raise e => (w, Raise e)
      end
  end.

(** [mark_reverted]: [UPDATE artifacts SET status = 'reverted',
    reverted_at = now WHERE id = ?]. *)
Definition mark_reverted (id : uuid) (w : World) : World :=
  set_artifact_rows
    (alter (Artifact_.mark_reverted (utcnow w)) id (artifact_rows w)) w.
End ArtifactStore.

Module JobStore.
(** [save]: upsert by id; on conflict every column but [id] and
    [created_at] is overwritten.  The values are taken to fit their
    columns. *)
Definition save (j : Job) (w : World) : World :=
  set_job_rows
    (match job_rows w !! job_id j with
     | None => <[job_id j := j]> (job_rows w)
     | Some old =>
         <[job_id j :=
             mkJob (job_id j) (source_type j) (source_path j) (source_url j)
               (source_name j) (status j) (current_step j) (next_step j)
               (data j) (history j) (config j) (tags j) (created_at old)
               (started_at j) (completed_at j) (updated_at j)
               (error_message j) (priority j)]> (job_rows w)
     end) w.
End JobStore.

(** ** Text helpers used by the frontmatter code *)

(** The characters [str.strip()] removes. *)
Definition is_space (a : ascii) : bool :=
  let n := nat_of_ascii a in
  bool_decide (n = 32%nat)
  || (bool_decide (9 ≤ n)%nat && bool_decide (n ≤ 13)%nat)
  || (bool_decide (28 ≤ n)%nat && bool_decide (n ≤ 31)%nat).

Fixpoint lstrip_chars (l : list ascii) : list ascii :=
  match l with
  | a :: l' => if is_space a then lstrip_chars l' else l
  | [] => []
  end.

Definition strip (s : string) : string :=
  string_of_list_ascii
    (rev (lstrip_chars (rev (lstrip_chars (list_ascii_of_string s))))).

(** [s.split("\n")]: never the empty list. *)
Fixpoint split_newline (s : string) : list string :=
  match s with
  | EmptyString => [""]
  | String a s' =>
      if bool_decide (nat_of_ascii a = 10%nat) then "" :: split_newline s'
      else match split_newline s' with
           | l :: ls => String a l :: ls
           | [] => [String a ""]
           end
  end.

Definition newline : string := String (ascii_of_nat 10) "".

(** What reading in text mode does to line ends ([newline=None]): a
    carriage return, with the line feed that follows it if there is one,
    is read as one line feed.  [after_cr] tells that the character before
    was a carriage return. *)
Fixpoint translate_newlines (after_cr : bool) (s : string) : string :=
  match s with
  | EmptyString => EmptyString
  | String a s' =>
      if bool_decide (nat_of_ascii a = 13%nat) then
        String (ascii_of_nat 10) (translate_newlines true s')
      else if bool_decide (nat_of_ascii a = 10%nat) then
        if after_cr then translate_newlines false s'
        else String a (translate_newlines false s')
      else String a (translate_newlines false s')
  end.

Definition universal_newlines (s : string) : string :=
  translate_newlines false s.

(** ["\n".join(lines)]. *)
Definition join_newline (lines : list string) : string :=
  String.concat newline lines.

(** Python truth value of an opaque value. *)
Definition truthy (v : json) : bool :=
  match v with
  | JNull => false
  | JBool b => b
  | JNum z => negb (bool_decide (z = 0))
  | JStr s => negb (bool_decide (s = ""))
  | JList l => match l with [] => false | _ => true end
  | JDict d => match d with [] => false | _ => true end
  end.

(** Truth value of an [Optional[str]]. *)
Definition truthy_str (o : option string) : bool :=
  match o with
  | Some s => negb (bool_decide (s = ""))
  | None => false
  end.

(** The YAML and JSON libraries the context calls, and the text codecs of
    Python; they are not part of the repository and are taken as given.
    [Raise] from [yaml_safe_load] stands for [yaml.YAMLError].
    [text_encode enc t] is [t.encode(enc)], the bytes of the text [t], and
    [text_decode enc b] is [b.decode(enc)]; either raises [LookupError]
    for an encoding Python does not know and [UnicodeError] for a text or
    bytes the encoding cannot carry. *)
Record Codec : Type := mkCodec {
  yaml_safe_load : string → outcome json;
  yaml_dump : json → string;
  json_dumps : json → string;
  json_loads : string → outcome json;
  text_encode : string → string → outcome string;
  text_decode : string → string → outcome string;
}.

(** ** core/engine/context.py *)

Record ExecutionContext : Type := mkExecutionContext {
  ctx_job_id : uuid;
  ctx_step_name : string;
  _pending_artifacts : list Artifact;
  _committed : bool;
}.

Module ExecutionContext_.
Section with_codec.
Variable codec : Codec.

Definition new (job : uuid) (step : string) : ExecutionContext :=
  mkExecutionContext job step [] false.

Definition append_pending (a : Artifact) (ctx : ExecutionContext)
    : ExecutionContext :=
  mkExecutionContext (ctx_job_id ctx) (ctx_step_name ctx)
    (_pending_artifacts ctx ++ [a]) (_committed ctx).

(** The [Artifact(...)] constructor call of the recorded operations: a
    fresh [id], [created_at] read from the clock, status [pending]. *)
Definition new_artifact (ctx : ExecutionContext) (ty : ArtifactType)
    (tgt : string) (before after : option string) (meta : gmap string json)
    (rev : ReversibilityLevel) (w : World) : Artifact * World :=
  let '(id, w) := fresh_uuid w in
  (mkArtifact id (ctx_job_id ctx) (ctx_step_name ctx) ty tgt before after
     meta ART_PENDING rev (utcnow w) None None, w).

(** *** Reading and writing text *)

(** [async with aiofiles.open(path, "r", encoding=encoding) as f:
    await f.read()]: the file is found, its bytes are decoded and the line
    ends translated. *)
Definition read_text (encoding path : string) (f : gmap string node)
    : outcome string :=
  match FS.read_bytes path f with
  | Raise e => Raise e
  | Ok bytes =>
      match text_decode codec encoding bytes with
      | Raise e => Raise e
      | Ok text => Ok (universal_newlines text)
      end
  end.

(** [async with aiofiles.open(path, "w", encoding=encoding) as f:
    await f.write(text)]: opening creates or empties the file before the
    encoding is looked at, so a text that cannot be encoded leaves an empty
    file behind.  The files left are returned with the way the call
    ended. *)
Definition write_text (encoding path text : string) (f : gmap string node)
    : gmap string node * outcome unit :=
  match FS.truncate path f with
  | Raise e => (f, Raise e)
  | Ok f0 =>
      match text_encode codec encoding text with
      | Raise e => (f0, Raise e)
      | Ok bytes => (<[path := File bytes]> f0, Ok tt)
      end
  end.

(** *** File operations

    An operation that raises leaves the context as it was; what it had
    done to the files by then stays. *)

Definition create_file (path content encoding : string)
    (ctx : ExecutionContext) (w : World)
    : ExecutionContext * World * outcome Artifact :=
  let path := path_str path in
  if FS.exists_ path (fs w) then
    (ctx, w, Raise (FileExistsError ("File already exists: " +:+ path)))
  else
    let '(artifact, w) :=
      new_artifact ctx FILE_CREATE path None (Some content)
        {["encoding" := JStr encoding]} FULLY_REVERSIBLE w in
    match FS.mkdir (FS.parent path) (fs w) with
    | (f1, Raise e) => (ctx, set_fs f1 w, Raise e)
    | (f1, Ok _) =>
        match write_text encoding path content f1 with
        | (f2, Raise e) => (ctx, set_fs f2 w, Raise e)
        | (f2, Ok _) =>
            let artifact := Artifact_.mark_created artifact in
            (append_pending artifact ctx, set_fs f2 w, Ok artifact)
        end
    end.

Definition modify_file (path new_content encoding : string)
    (ctx : ExecutionContext) (w : World)
    : ExecutionContext * World * outcome Artifact :=
  let path := path_str path in
  if negb (FS.exists_ path (fs w)) then
    (ctx, w, Raise (FileNotFoundError ("File not found: " +:+ path)))
  else
    match read_text encoding path (fs w) with
    | Raise e => (ctx, w, Raise e)
    | Ok before_content =>
        let '(artifact, w) :=
          new_artifact ctx FILE_MODIFY path (Some before_content)
            (Some new_content) {["encoding" := JStr encoding]}
            FULLY_REVERSIBLE w in
        match write_text encoding path new_content (fs w) with
        | (f2, Raise e) => (ctx, set_fs f2 w, Raise e)
        | (f2, Ok _) =>
            let artifact := Artifact_.mark_created artifact in
            (append_pending artifact ctx, set_fs f2 w, Ok artifact)
        end
    end.

Definition delete_file (path : string) (ctx : ExecutionContext) (w : World)
    : ExecutionContext * World * outcome Artifact :=
  let path := path_str path in
  if negb (FS.exists_ path (fs w)) then
    (ctx, w, Raise (FileNotFoundError ("File not found: " +:+ path)))
  else
    match read_text "utf-8" path (fs w) with
    | Raise e => (ctx, w, Raise e)
    | Ok before_content =>
        let '(artifact, w) :=
          new_artifact ctx FILE_DELETE path (Some before_content) None
            {["original_path" := JStr path]} FULLY_REVERSIBLE w in
        match FS.remove path (fs w) with
        | Raise e => (ctx, w, Raise e)
        | Ok fs' =>
            let artifact := Artifact_.mark_created artifact in
            (append_pending artifact ctx, set_fs fs' w, Ok artifact)
        end
    end.

Definition move_file (source dest : string) (ctx : ExecutionContext)
    (w : World) : ExecutionContext * World * outcome Artifact :=
  let source := path_str source in
  let dest := path_str dest in
  if negb (FS.exists_ source (fs w)) then
    (ctx, w, Raise (FileNotFoundError ("Source file not found: " +:+ source)))
  else if FS.exists_ dest (fs w) then
    (ctx, w, Raise (FileExistsError ("Destination already exists: " +:+ dest)))
  else
    let '(artifact, w) :=
      new_artifact ctx FILE_MOVE dest (Some source) (Some dest) ∅
        FULLY_REVERSIBLE w in
    match FS.mkdir (FS.parent dest) (fs w) with
    | (f1, Raise e) => (ctx, set_fs f1 w, Raise e)
    | (f1, Ok _) =>
        match FS.rename source dest f1 with
        | Raise e => (ctx, set_fs f1 w, Raise e)
        | Ok fs' =>
            let artifact := Artifact_.mark_created artifact in
            (append_pending artifact ctx, set_fs fs' w, Ok artifact)
        end
    end.

(** *** Frontmatter operations *)

(** The scan for the closing delimiter: the lines before it and after it. *)
Fixpoint find_closing (lines : list string) : option (list string * list string) :=
  match lines with
  | [] => None
  | line :: rest =>
      if decide (strip line = "---") then Some ([], rest)
      else match find_closing rest with
           | Some (before, after) => Some (line :: before, after)
           | None => None
           end
  end.

Definition _parse_frontmatter (content : string) : json * string :=
  match split_newline content with
  | [] => (JDict [], content)
  | first :: rest =>
      if negb (bool_decide (strip first = "---")) then (JDict [], content)
      else match find_closing rest with
           | None => (JDict [], content)
           | Some (yaml_lines, body_lines) =>
               match yaml_safe_load codec (join_newline yaml_lines) with
               | Raise _ => (JDict [], content)
               | Ok v =>
                   (if truthy v then v else JDict [], join_newline body_lines)
               end
           end
  end.

Definition _build_frontmatter (frontmatter : json) : string :=
  if negb (truthy frontmatter) then ""
  else "---" +:+ newline +:+ yaml_dump codec frontmatter +:+ "---" +:+ newline.

(** [{**a, **b}]: the keys of [a] keep their place, those new in [b]
    follow; only mappings can be unpacked. *)
Definition dict_merge (a : json) (b : list (string * json)) : outcome json :=
  match a with
  | JDict d => Ok (JDict (foldl (λ acc kv, dict_set kv.1 kv.2 acc) d b))
  | _ => Raise (TypeError "argument after ** must be a mapping")
  end.

Definition update_frontmatter (path : string) (updates : list (string * json))
    (ctx : ExecutionContext) (w : World)
    : ExecutionContext * World * outcome Artifact :=
  let path := path_str path in
  match read_text "utf-8" path (fs w) with
  | Raise e => (ctx, w, Raise e)
  | Ok content =>
      let '(before_frontmatter, body) := _parse_frontmatter content in
      match dict_merge before_frontmatter updates with
      | Raise e => (ctx, w, Raise e)
      | Ok after_frontmatter =>
          let new_content := _build_frontmatter after_frontmatter +:+ body in
          let '(artifact, w) :=
            new_artifact ctx FRONTMATTER_UPDATE path
              (Some (json_dumps codec before_frontmatter))
              (Some (json_dumps codec after_frontmatter))
              {["updates" := JDict updates]} FULLY_REVERSIBLE w in
          match write_text "utf-8" path new_content (fs w) with
          | (f2, Raise e) => (ctx, set_fs f2 w, Raise e)
          | (f2, Ok _) =>
              let artifact := Artifact_.mark_created artifact in
              (append_pending artifact ctx, set_fs f2 w, Ok artifact)
          end
      end
  end.

(** *** External API operations *)

Definition record_api_call (service action : string)
    (request_data response_data : json) (reversible : bool)
    (reverse_action : option string) (ctx : ExecutionContext) (w : World)
    : ExecutionContext * World * outcome Artifact :=
  let '(artifact, w) :=
    new_artifact ctx EXTERNAL_API_CREATE (service +:+ ":" +:+ action) None
      (Some (json_dumps codec response_data))
      (<["service" := JStr service]>
         (<["action" := JStr action]>
            (<["request" := request_data]>
               (<["response" := response_data]>
                  {["reverse_action" :=
                      match reverse_action with
                      | Some r => JStr r
                      | None => JNull
                      end]}))))
      (if reversible then PARTIALLY_REVERSIBLE else IRREVERSIBLE) w in
  let artifact :=
    if negb reversible then
      Artifact_.mark_irreversible
        (Some ("External API call to " +:+ service +:+ ":" +:+ action
               +:+ " cannot be automatically reversed")) artifact
    else Artifact_.mark_created artifact in
  (append_pending artifact ctx, w, Ok artifact).

(** *** Transaction management *)

(** [commit]: the flag is set once every artifact has been saved; a save
    that raises leaves it unset, and the rows written before it stay. *)
Definition commit (ctx : ExecutionContext) (w : World)
    : ExecutionContext * World * outcome (list Artifact) :=
  if _committed ctx then (ctx, w, Ok (_pending_artifacts ctx))
  else
    match ArtifactStore.save_each (_pending_artifacts ctx) w with
    | (w, Raise e) => (ctx, w, Raise e)
    | (w, Ok _) =>
        (mkExecutionContext (ctx_job_id ctx) (ctx_step_name ctx)
           (_pending_artifacts ctx) true,
         w, Ok (_pending_artifacts ctx))
    end.

(** [_revert_artifact]: reverting one artifact touches the filesystem
    only.  The files left are returned with the way the call ended. *)
Definition _revert_artifact_run (artifact : Artifact) (f : gmap string node)
    : gmap string node * outcome unit :=
  match artifact_type artifact with
  | FILE_CREATE =>
      let path := path_str (target artifact) in
      if FS.exists_ path f then
        match FS.remove path f with
        | Ok f' => (f', Ok tt)
        | Raise e => (f, Raise e)
        end
      else (f, Ok tt)
  | FILE_MODIFY | FILE_DELETE =>
      let path := path_str (target artifact) in
      match before_state artifact with
      | Some before => write_text "utf-8" path before f
      | None => (f, Ok tt)
      end
  | FILE_MOVE =>
      if truthy_str (before_state artifact) && truthy_str (after_state artifact)
      then
        match before_state artifact, after_state artifact with
        | Some before, Some after =>
            let dest := path_str after in
            let source := path_str before in
            if FS.exists_ dest f then
              match FS.rename dest source f with
              | Ok f' => (f', Ok tt)
              | Raise e => (f, Raise e)
              end
            else (f, Ok tt)
        | _, _ => (f, Ok tt)
        end
      else (f, Ok tt)
  | FRONTMATTER_UPDATE =>
      let path := path_str (target artifact) in
      if truthy_str (before_state artifact) && FS.exists_ path f
      then
        match before_state artifact with
        | Some before =>
            match json_loads codec before with
            | Raise e => (f, Raise e)
            | Ok before_fm =>
                match read_text "utf-8" path f with
                | Raise e => (f, Raise e)
                | Ok content =>
                    let '(_, body) := _parse_frontmatter content in
                    write_text "utf-8" path
                      (_build_frontmatter before_fm +:+ body) f
                end
            end
        | None => (f, Ok tt)
        end
      else (f, Ok tt)
  | EXTERNAL_API_CREATE | EXTERNAL_API_MODIFY | METADATA => (f, Ok tt)
  end.

(** The same call seen from where it returns: the files it leaves when it
    returns, the exception when it raises. *)
Definition _revert_artifact (artifact : Artifact) (f : gmap string node)
    : outcome (gmap string node) :=
  match _revert_artifact_run artifact f with
  | (f', Ok _) => Ok f'
  | (_, Raise e) => Raise e
  end.

(** The loop of [rollback]: an artifact whose reversal raises is logged
    and skipped; what the reversal had done to the files by then stays. *)
Definition rollback_artifacts (arts : list Artifact) (f : gmap string node)
    : gmap string node :=
  foldl (λ f a, (_revert_artifact_run a f).1) f (reverse arts).

Definition rollback (ctx : ExecutionContext) (w : World)
    : ExecutionContext * World :=
  if _committed ctx then (ctx, w)
  else
    (mkExecutionContext (ctx_job_id ctx) (ctx_step_name ctx) [] false,
     set_fs (rollback_artifacts (_pending_artifacts ctx) (fs w)) w).

(** [__aexit__]: [raised] tells whether the body left by an exception.
    The exception of the body is passed on by the caller; what is returned
    here is the way [__aexit__] itself ended. *)
Definition __aexit__ (raised : bool) (ctx : ExecutionContext) (w : World)
    : ExecutionContext * World * outcome unit :=
  if raised then (rollback ctx w, Ok tt)
  else if negb (_committed ctx) then
    match commit ctx w with
    | (ctx, w, Ok _) => (ctx, w, Ok tt)
    | (ctx, w, Raise e) => (ctx, w, Raise e)
    end
  else (ctx, w, Ok tt).

(** The [artifacts] property: a copy of the pending list. *)
Definition artifacts_of (ctx : ExecutionContext) : list Artifact :=
  _pending_artifacts ctx.
End with_codec.
End ExecutionContext_.

(** ** core/plugins/base.py *)

(** A processor body is a black box that drives the execution context.  It
    is represented by the tree of calls it makes: every node is one call on
    the context (or on the job's data bag), and the continuation receives
    what the call returned or raised, so a body may catch an exception or
    let it escape ([Throw]). *)
Inductive ctx_call : Type :=
  | CreateFile (path content encoding : string)
  | ModifyFile (path new_content encoding : string)
  | DeleteFile (path : string)
  | MoveFile (source dest : string)
  | UpdateFrontmatter (path : string) (updates : list (string * json))
  | RecordApiCall (service action : string) (request_data response_data : json)
      (reversible : bool) (reverse_action : option string).

Inductive script (R : Type) : Type :=
  | Return (r : R)
  | Throw (e : exn)
  | Call (c : ctx_call) (k : outcome Artifact → script R)
  | Commit (k : outcome (list Artifact) → script R)
  | Rollback (k : script R)
  | ReadText (path encoding : string) (k : outcome string → script R)
  | SetData (key : string) (v : json) (k : script R)
  | PopData (key : string) (k : script R).
Arguments Return {R} r.
Arguments Throw {R} e.
Arguments Call {R} c k.
Arguments Commit {R} k.
Arguments Rollback {R} k.
Arguments ReadText {R} path encoding k.
Arguments SetData {R} key v k.
Arguments PopData {R} key k.

(** [should_process] and the two bodies may raise; [requires_user_input],
    a synchronous predicate on the job, is taken to return. *)
Record Processor : Type := mkProcessor {
  name : string;
  display_name : string;
  description : string;
  requires : list string;
  has_ui : bool;
  requires_input : string;
  can_skip : bool;
  auto_revert_on_error : bool;
  should_process : gmap string node → Job → outcome bool;
  requires_user_input : Job → bool;
  process : Job → script StepResult;
  revert : Job → StepResult → script bool;
}.

Definition to_definition (p : Processor) : StepDefinition :=
  mkStepDefinition (name p) (display_name p) (description p) (requires p)
    (has_ui p) (requires_input p) (can_skip p) (auto_revert_on_error p).

(** ** core/plugins/registry.py *)

Record ProcessorRegistry : Type := mkProcessorRegistry {
  _processors : list (string * Processor);
  _definitions : list (string * StepDefinition);
}.

Module ProcessorRegistry_.
Definition new : ProcessorRegistry := mkProcessorRegistry [] [].

(** [register] either raises, leaving the registry as it was, or adds the
    processor under its name. *)
Definition register (processor : Processor) (r : ProcessorRegistry)
    : ProcessorRegistry * outcome unit :=
  if decide (name processor = "") then
    (r, Raise (ValueError "Processor has no name"))
  else if dict_mem (name processor) (_processors r) then
    (r, Raise (ValueError ("Processor '" +:+ name processor
                           +:+ "' is already registered")))
  else
    (mkProcessorRegistry
       (dict_set (name processor) processor (_processors r))
       (dict_set (name processor) (to_definition processor) (_definitions r)),
     Ok tt).

Definition unregister (n : string) (r : ProcessorRegistry)
    : ProcessorRegistry * option Processor :=
  (mkProcessorRegistry (dict_pop n (_processors r)) (dict_pop n (_definitions r)),
   dict_get n (_processors r)).

Definition get (n : string) (r : ProcessorRegistry) : option Processor :=
  dict_get n (_processors r).

Definition get_definition (n : string) (r : ProcessorRegistry)
    : option StepDefinition :=
  dict_get n (_definitions r).

Definition get_all (r : ProcessorRegistry) : list Processor :=
  dict_values (_processors r).

Definition get_names (r : ProcessorRegistry) : list string :=
  dict_keys (_processors r).

Definition has (n : string) (r : ProcessorRegistry) : bool :=
  dict_mem n (_processors r).

(** *** Dependency resolution *)

Definition get_dependencies (r : ProcessorRegistry) (n : string) : list string :=
  match get n r with
  | Some processor => requires processor
  | None => []
  end.

(** The two tables of [get_execution_order].  Every subscript the source
    takes on them is a member of [processors], which is the key set both
    comprehensions build, so no [KeyError] can arise; the updates are
    written with [alter] and the reads with the total lookup. *)
Definition in_degree_init (processors : list string) : gmap string Z :=
  foldl (λ m p, <[p := 0]> m) ∅ processors.

Definition graph_init (processors : list string) : gmap string (list string) :=
  foldl (λ m p, <[p := []]> m) ∅ processors.

(** The body of the inner [for dep in self.get_dependencies(proc)]. *)
Definition add_edge (processors : list string) (proc : string)
    (st : gmap string Z * gmap string (list string)) (dep : string)
    : gmap string Z * gmap string (list string) :=
  if bool_decide (dep ∈ processors) then
    (alter (λ d, d + 1) proc st.1, alter (λ l, l ++ [proc]) dep st.2)
  else st.

Definition build_graph (r : ProcessorRegistry) (processors : list string)
    : gmap string Z * gmap string (list string) :=
  foldl (λ st proc, foldl (add_edge processors proc) st (get_dependencies r proc))
    (in_degree_init processors, graph_init processors) processors.

(** The body of [for dependent in graph[node]]. *)
Definition release (st : gmap string Z * list string) (dependent : string)
    : gmap string Z * list string :=
  let in_degree := alter (λ d, d - 1) dependent st.1 in
  if bool_decide (in_degree !!! dependent = 0) then
    (in_degree, st.2 ++ [dependent])
  else (in_degree, st.2).

(** [while queue:].  The loop pops one name per turn; [fuel] bounds the
    number of turns and [None] means the bound was too small. *)
Fixpoint kahn_loop (fuel : nat) (graph : gmap string (list string))
    (in_degree : gmap string Z) (queue result : list string)
    : option (list string) :=
  match queue with
  | [] => Some result
  | node :: queue =>
      match fuel with
      | O => None
      | S fuel =>
          let result := result ++ [node] in
          let '(in_degree, queue) :=
            foldl release (in_degree, queue) (graph !!! node) in
          kahn_loop fuel graph in_degree queue result
      end
  end.

(** Python's [repr] of a list of names (names without quotes or escapes). *)
Definition repr_list (l : list string) : string :=
  "[" +:+ String.concat ", " ((λ s, "'" +:+ s +:+ "'") <$> l) +:+ "]".

(** The loop never needs more turns than [processors] has entries
    ([kahn_loop_total] below), so the last branch is never taken. *)
Definition get_execution_order (r : ProcessorRegistry) (processors : list string)
    : outcome (list string) :=
  let '(in_degree, graph) := build_graph r processors in
  let queue := filter (λ p, in_degree !!! p = 0) processors in
  match kahn_loop (length processors) graph in_degree queue [] with
  | Some result =>
      if negb (bool_decide (length result = length processors)) then
        let remaining := filter (λ p, p ∉ result) processors in
        Raise (ValueError ("Circular dependency detected involving: "
                           +:+ repr_list remaining))
      else Ok result
  | None => Raise (OSError "loop bound exceeded")
  end.

(** [validate_dependencies]. *)
Definition validate_dependencies (r : ProcessorRegistry) : list string :=
  flat_map
    (λ kv, (λ dep, "Processor '" +:+ kv.1 +:+ "' depends on '" +:+ dep
                   +:+ "' which is not registered")
           <$> filter (λ dep, dict_mem dep (_processors r) = false)
                 (requires kv.2))
    (_processors r).

(** *** Remaining queries *)

Definition clear (r : ProcessorRegistry) : ProcessorRegistry :=
  mkProcessorRegistry [] [].

Definition get_all_definitions (r : ProcessorRegistry) : list StepDefinition :=
  dict_values (_definitions r).

(** [get_dependents]: the keys, in iteration order, of the processors that
    list [n] among their requirements. *)
Definition get_dependents (n : string) (r : ProcessorRegistry) : list string :=
  fst <$> filter (λ kv, n ∈ requires kv.2) (_processors r).

(** [__len__] and [__contains__]. *)
Definition len (r : ProcessorRegistry) : nat := length (_processors r).

Definition contains (n : string) (r : ProcessorRegistry) : bool :=
  dict_mem n (_processors r).
End ProcessorRegistry_.

(** ** core/engine/router.py *)

Module Router.
(** Processors are visited in the registry's iteration order; one whose
    [should_process] raises is logged and left out. *)
Definition applies (f : gmap string node) (job : Job) (p : Processor) : bool :=
  match should_process p f job with
  | Ok b => b
  | Raise _ => false
  end.

Definition _get_applicable_processors (r : ProcessorRegistry)
    (f : gmap string node) (job : Job) : list string :=
  name <$> filter (λ p, applies f job p = true) (ProcessorRegistry_.get_all r).

Definition deps_satisfied (completed_steps : list string) (p : Processor)
    : bool :=
  forallb (λ dep, bool_decide (dep ∈ completed_steps)) (requires p).

(** The candidate test of the [for step_name in ordered] loop. *)
Definition runnable (r : ProcessorRegistry) (completed_steps : list string)
    (step : string) : bool :=
  negb (bool_decide (step ∈ completed_steps))
  && match ProcessorRegistry_.get step r with
     | Some processor => deps_satisfied completed_steps processor
     | None => false
     end.

Definition get_next_step (r : ProcessorRegistry) (f : gmap string node)
    (job : Job) : option string :=
  let completed_steps := Job_.get_completed_steps job in
  let applicable := _get_applicable_processors r f job in
  match applicable with
  | [] => None
  | _ =>
      match ProcessorRegistry_.get_execution_order r applicable with
      | Raise _ => None
      | Ok ordered => head (filter (λ s, runnable r completed_steps s = true) ordered)
      end
  end.

Definition can_run_step (r : ProcessorRegistry) (job : Job) (step : string)
    : bool * string :=
  match ProcessorRegistry_.get step r with
  | None => (false, "Processor '" +:+ step +:+ "' not found")
  | Some processor =>
      if Job_.has_completed_step step job then
        (false, "Step '" +:+ step +:+ "' already completed")
      else
        let completed := Job_.get_completed_steps job in
        let missing_deps := filter (λ dep, dep ∉ completed) (requires processor) in
        match missing_deps with
        | [] => (true, "")
        | _ => (false, "Missing dependencies: "
                       +:+ ProcessorRegistry_.repr_list missing_deps)
        end
  end.

Definition get_all_applicable_steps (r : ProcessorRegistry)
    (f : gmap string node) (job : Job) : list string :=
  match _get_applicable_processors r f job with
  | [] => []
  | applicable =>
      match ProcessorRegistry_.get_execution_order r applicable with
      | Raise _ => []
      | Ok ordered => ordered
      end
  end.

Definition get_pending_steps (r : ProcessorRegistry) (f : gmap string node)
    (job : Job) : list string :=
  filter (λ step, step ∉ Job_.get_completed_steps job)
    (get_all_applicable_steps r f job).

Definition get_revertable_steps (job : Job) : list string :=
  step_name <$> filter (λ r, StepResult_.can_revert r = true) (history job).
End Router.

(** ** core/engine/executor.py *)

Module JobExecutor.
Section with_codec.
Variable codec : Codec.

Definition set_data_entry (key : string) (v : json) (j : Job) : Job :=
  mkJob (job_id j) (source_type j) (source_path j) (source_url j)
    (source_name j) (status j) (current_step j) (next_step j)
    (<[key := v]> (data j))
    (history j) (config j) (tags j) (created_at j) (started_at j)
    (completed_at j) (updated_at j) (error_message j) (priority j).

Definition pop_data_entry (key : string) (j : Job) : Job :=
  mkJob (job_id j) (source_type j) (source_path j) (source_url j)
    (source_name j) (status j) (current_step j) (next_step j)
    (delete key (data j))
    (history j) (config j) (tags j) (created_at j) (started_at j)
    (completed_at j) (updated_at j) (error_message j) (priority j).

Definition do_call (c : ctx_call) (ctx : ExecutionContext) (w : World)
    : ExecutionContext * World * outcome Artifact :=
  match c with
  | CreateFile path content encoding =>
      ExecutionContext_.create_file codec path content encoding ctx w
  | ModifyFile path new_content encoding =>
      ExecutionContext_.modify_file codec path new_content encoding ctx w
  | DeleteFile path => ExecutionContext_.delete_file codec path ctx w
  | MoveFile source dest => ExecutionContext_.move_file source dest ctx w
  | UpdateFrontmatter path updates =>
      ExecutionContext_.update_frontmatter codec path updates ctx w
  | RecordApiCall service action request_data response_data reversible
      reverse_action =>
      ExecutionContext_.record_api_call codec service action request_data
        response_data reversible reverse_action ctx w
  end.

(** Running a processor body against a job, a context and the world. *)
Fixpoint run_script {R : Type} (s : script R) (job : Job)
    (ctx : ExecutionContext) (w : World)
    : Job * ExecutionContext * World * outcome R :=
  match s with
  | Return r => (job, ctx, w, Ok r)
  | Throw e => (job, ctx, w, Raise e)
  | Call c k =>
      let '(ctx, w, res) := do_call c ctx w in
      run_script (k res) job ctx w
  | Commit k =>
      let '(ctx, w, res) := ExecutionContext_.commit ctx w in
      run_script (k res) job ctx w
  | Rollback k =>
      let '(ctx, w) := ExecutionContext_.rollback codec ctx w in
      run_script k job ctx w
  | ReadText path encoding k =>
      run_script (k (ExecutionContext_.read_text codec encoding path (fs w)))
        job ctx w
  | SetData key v k => run_script k (set_data_entry key v job) ctx w
  | PopData key k => run_script k (pop_data_entry key job) ctx w
  end.

(** The text of [traceback.format_exc()] is represented by the message. *)
Definition format_exc (e : exn) : string := exn_str e.

(** The assignments that copy the processor's result into the tracking
    result inside the [async with] block. *)
Definition merge_result (step_result : StepResult) (arts : list Artifact)
    (result : StepResult) : StepResult :=
  mkStepResult (step_id result) (step_job_id result) (step_name result)
    (step_status step_result) (step_started_at result)
    (step_completed_at result) arts (output_data step_result)
    (step_error_message step_result) (error_traceback result)
    (awaiting_input_since result) (user_input result)
    (step_reverted_at result) (revert_error result).

Definition finish (job : Job) (result : StepResult) (w : World)
    : Job * World * outcome StepResult :=
  let job := Job_.add_step_result (utcnow w) result job in
  let w := JobStore.save job w in
  let w := emit (EvStepComplete (job_id job) result) w in
  (job, w, Ok result).

(** The [except Exception] clause of [_do_execute]. *)
Definition fail_step (e : exn) (job : Job) (processor : Processor)
    (result : StepResult) (ctx : ExecutionContext) (w : World)
    : Job * World * outcome StepResult :=
  let result :=
    StepResult_.fail (utcnow w) (exn_str e) (Some (format_exc e)) result in
  let '(ctx, w) :=
    if auto_revert_on_error processor
    then ExecutionContext_.rollback codec ctx w
    else (ctx, w) in
  let job := Job_.fail (utcnow w) (exn_str e) job in
  finish job result w.

(** The body of the [try]: the processor runs inside the context, whose
    exit commits; then every artifact of the result is saved once more.
    An exception of the body, of the commit or of a save ends in the
    [except] clause, with the result as it stands by then. *)
Definition _do_execute (job : Job) (processor : Processor) (result : StepResult)
    (w : World) : Job * World * outcome StepResult :=
  let ctx := ExecutionContext_.new (job_id job) (name processor) in
  let '(job, ctx, w, res) := run_script (process processor job) job ctx w in
  match res with
  | Ok step_result =>
      let result :=
        merge_result step_result (ExecutionContext_.artifacts_of ctx) result in
      match ExecutionContext_.__aexit__ codec false ctx w with
      | (ctx, w, Raise e) => fail_step e job processor result ctx w
      | (ctx, w, Ok _) =>
          match ArtifactStore.save_each (artifacts result) w with
          | (w, Raise e) => fail_step e job processor result ctx w
          | (w, Ok _) =>
              if decide (step_status result = STEP_COMPLETED) then
                let result :=
                  StepResult_.complete (utcnow w) (Some (output_data result))
                    result in
                let job := Job_.merge_data (utcnow w) (output_data result) job in
                finish job result w
              else if decide (step_status result = STEP_AWAITING_INPUT) then
                let job := Job_.await_input (utcnow w) (name processor) job in
                let w := emit (EvAwaitingInput (job_id job) (name processor)) w in
                finish job result w
              else finish job result w
          end
      end
  | Raise e =>
      let '(ctx, w, _) := ExecutionContext_.__aexit__ codec true ctx w in
      fail_step e job processor result ctx w
  end.

Definition execute_step (r : ProcessorRegistry) (job : Job) (step : string)
    (w : World) : Job * World * outcome StepResult :=
  match ProcessorRegistry_.get step r with
  | None => (job, w, Raise (ValueError ("Processor '" +:+ step +:+ "' not found")))
  | Some processor =>
      let '(can_run, reason) := Router.can_run_step r job step in
      if negb can_run then
        let '(id, w) := fresh_uuid w in
        let result := StepResult_.new id (job_id job) step in
        let result := StepResult_.skip (utcnow w) (Some reason) result in
        (job, w, Ok result)
      else
        let '(id, w) := fresh_uuid w in
        let result := StepResult_.new id (job_id job) step in
        let result := StepResult_.start (utcnow w) result in
        let job := Job_.start_processing (utcnow w) step job in
        let w := JobStore.save job w in
        if bool_decide (requires_input processor = "always")
           || (bool_decide (requires_input processor = "conditional")
               && requires_user_input processor job)
        then
          let result := StepResult_.await_input (utcnow w) result in
          let job := Job_.await_input (utcnow w) step job in
          let job := Job_.add_step_result (utcnow w) result job in
          let w := JobStore.save job w in
          let w := emit (EvAwaitingInput (job_id job) step) w in
          (job, w, Ok result)
        else _do_execute job processor result w
  end.

Definition execute_next_step (r : ProcessorRegistry) (job : Job) (w : World)
    : Job * World * outcome (option StepResult) :=
  match Router.get_next_step r (fs w) job with
  | None =>
      let job := Job_.complete (utcnow w) job in
      (job, JobStore.save job w, Ok None)
  | Some step =>
      if decide (step = "") then
        let job := Job_.complete (utcnow w) job in
        (job, JobStore.save job w, Ok None)
      else
        let '(job, w, res) := execute_step r job step w in
        (job, w, match res with Ok x => Ok (Some x) | Raise e => Raise e end)
  end.

(** *** Reverting *)

(** Position in the history of the most recent result for a step: the
    object [get_step_result] hands out, which [revert_step] then mutates
    in place. *)
Fixpoint last_index (step : string) (h : list StepResult) (i : nat)
    (found : option nat) : option nat :=
  match h with
  | [] => found
  | r :: h' =>
      last_index step h' (S i)
        (if decide (step_name r = step) then Some i else found)
  end.

Definition update_result (i : nat) (f : StepResult → StepResult) (job : Job)
    : Job :=
  Job_.set_history (alter f i (history job)) job.

(** The body of [for artifact in reversed(result.artifacts)]: the world and
    the last error message so far. *)
Definition revert_one (st : World * option string) (artifact : Artifact)
    : World * option string :=
  if Artifact_.can_revert artifact then
    match ExecutionContext_._revert_artifact_run codec artifact (fs st.1) with
    | (f, Ok _) =>
        (ArtifactStore.mark_reverted (artifact_id artifact) (set_fs f st.1), st.2)
    | (f, Raise e) => (set_fs f st.1, Some (exn_str e))
    end
  else st.

Definition set_revert_error_opt (err : option string) (r : StepResult)
    : StepResult :=
  match err with
  | Some msg => StepResult_.set_revert_error msg r
  | None => r
  end.

Definition revert_step (r : ProcessorRegistry) (job : Job) (step : string)
    (w : World) : Job * World * bool :=
  match ProcessorRegistry_.get step r with
  | None => (job, w, false)
  | Some processor =>
      match last_index step (history job) 0 None with
      | None => (job, w, false)
      | Some i =>
          match history job !! i with
          | None => (job, w, false)
          | Some result =>
              if negb (StepResult_.can_revert result) then (job, w, false)
              else
                let '(w, err) :=
                  foldl revert_one (w, None) (reverse (artifacts result)) in
                let job := update_result i (set_revert_error_opt err) job in
                let result := set_revert_error_opt err result in
                let ctx := ExecutionContext_.new (job_id job) step in
                let '(job, ctx, w, res) :=
                  run_script (revert processor job result) job ctx w in
                let job :=
                  match res with
                  | Ok _ => job
                  | Raise e =>
                      update_result i (StepResult_.set_revert_error (exn_str e)) job
                  end in
                let job := update_result i (StepResult_.mark_reverted (utcnow w)) job in
                (job, JobStore.save job w, true)
          end
      end
  end.

(** The scan of [revert_to_step] over the history: whether the target was
    met, and the names of the revertable results found after it. *)
Definition scan_after (target : string) (h : list StepResult)
    : bool * list string :=
  foldl (λ st result,
           (st.1 || bool_decide (step_name result = target),
            if st.1 && StepResult_.can_revert result
            then st.2 ++ [step_name result] else st.2))
    (false, []) h.

(** The loop [for step_name in reversed(steps_to_revert)], which stops at
    the first step whose reversal fails and names it. *)
Fixpoint revert_steps (r : ProcessorRegistry) (steps : list string) (job : Job)
    (w : World) : Job * World * option string :=
  match steps with
  | [] => (job, w, None)
  | step :: rest =>
      let '(job, w, success) := revert_step r job step w in
      if success then revert_steps r rest job w else (job, w, Some step)
  end.

(** The two assignments [job.status = JobStatus.PENDING] and
    [job.current_step = None]. *)
Definition reset_pending (j : Job) : Job :=
  mkJob (job_id j) (source_type j) (source_path j) (source_url j)
    (source_name j) JOB_PENDING None (next_step j) (data j)
    (history j) (config j) (tags j) (created_at j) (started_at j)
    (completed_at j) (updated_at j) (error_message j) (priority j).

Definition revert_to_step (r : ProcessorRegistry) (job : Job)
    (target_step : string) (w : World) : Job * World * bool :=
  let '(target_found, steps_to_revert) := scan_after target_step (history job) in
  if negb target_found then (job, w, false)
  else
    let job := Job_.start_revert (utcnow w) job in
    let w := JobStore.save job w in
    match revert_steps r (reverse steps_to_revert) job w with
    | (job, w, Some step) =>
        let job := Job_.fail (utcnow w) ("Revert failed at step " +:+ step) job in
        (job, JobStore.save job w, false)
    | (job, w, None) =>
        let job := Job_.complete_revert (utcnow w) (Some target_step) job in
        let job := reset_pending job in
        (job, JobStore.save job w, true)
    end.

(** [revert_all] goes on past a step that cannot be reverted. *)
Definition revert_all (r : ProcessorRegistry) (job : Job) (w : World)
    : Job * World * bool :=
  let job := Job_.start_revert (utcnow w) job in
  let w := JobStore.save job w in
  let reversible :=
    filter (λ res, StepResult_.can_revert res = true) (reverse (history job)) in
  let '(job, w) :=
    foldl (λ st result,
             let '(job, w, _) := revert_step r st.1 (step_name result) st.2 in
             (job, w))
      (job, w) reversible in
  let job := Job_.complete_revert (utcnow w) None job in
  (job, JobStore.save job w, true).
End with_codec.
End JobExecutor.

(** ** core/watchers/watch_config.py *)

Inductive WatchEvent : Type := CREATED | MODIFIED | DELETED | MOVED.

Record WatchConfig : Type := mkWatchConfig {
  watch_path : string;
  watch_name : string;
  patterns : list string;
  recursive : bool;
  watch_events : list WatchEvent;
  watch_source_type : string;
  initial_processor : option string;
  debounce_seconds : Z;
  ignore_patterns : list string;
  enabled : bool;
  watch_tags : list string;
  watch_priority : Z;
  watch_metadata : gmap string json;
}.

Module WatchConfig_.
Definition default_ignore_patterns : list string :=
  ["*.tmp"; "*.temp"; ".DS_Store"; "Thumbs.db"; "*.swp"; "*.swo"; "*~"; ".git/*"].

(** [Path.name]: the final component of a path as [str(Path)] prints it;
    the empty string for a root or for ["."]. *)
Fixpoint after_last_slash (s : string) (acc : string) : string :=
  match s with
  | EmptyString => acc
  | String a s' =>
      if bool_decide (nat_of_ascii a = 47%nat) then after_last_slash s' ""
      else after_last_slash s' (acc +:+ String a "")
  end.

Definition path_name (p : string) : string :=
  if decide (p = ".") then "" else after_last_slash p "".

Section with_fnmatch.
(** [fnmatch.fnmatch(name, pattern)] belongs to the Python library. *)
Variable fnmatch : string → string → bool.

(** The first loop: does some ignore pattern match the name or the path? *)
Fixpoint ignored (filename file_path : string) (pats : list string) : bool :=
  match pats with
  | [] => false
  | pattern :: rest =>
      if fnmatch filename pattern then true
      else if fnmatch file_path pattern then true
      else ignored filename file_path rest
  end.

(** The second loop: does some positive pattern match the name? *)
Fixpoint accepted (filename : string) (pats : list string) : bool :=
  match pats with
  | [] => false
  | pattern :: rest =>
      if fnmatch filename pattern then true else accepted filename rest
  end.

Definition matches_file (c : WatchConfig) (file_path : string) : bool :=
  let filename := path_name file_path in
  if ignored filename file_path (ignore_patterns c) then false
  else accepted filename (patterns c).
End with_fnmatch.

(** Shell-style matching as the Python library documents it, for patterns
    made of literal characters, [*] (any run of characters) and [?] (any
    one character); bracket expressions are not covered. *)
Fixpoint glob (pat : list ascii) (s : list ascii) {struct pat} : bool :=
  match pat with
  | [] => match s with [] => true | _ => false end
  | c :: pat' =>
      if bool_decide (nat_of_ascii c = 42%nat) then
        (fix star (s : list ascii) : bool :=
           glob pat' s || match s with [] => false | _ :: s' => star s' end) s
      else
        match s with
        | [] => false
        | a :: s' =>
            (bool_decide (nat_of_ascii c = 63%nat) || bool_decide (a = c))
            && glob pat' s'
        end
  end.

Definition fnmatch_glob (name pattern : string) : bool :=
  glob (list_ascii_of_string pattern) (list_ascii_of_string name).
End WatchConfig_.

(** ** core/watchers/file_watcher.py *)

Module FileWatcher.
Section with_fnmatch.
Variable fnmatch : string → string → bool.

(** The two tests a change passes in [_watch_directory] before it becomes
    an event: directories are skipped, then the patterns are consulted. *)
Definition passes_filter (f : gmap string node) (c : WatchConfig)
    (path : string) : bool :=
  if FS.is_dir path f then false
  else WatchConfig_.matches_file fnmatch c path.
End with_fnmatch.

(** The kinds of change the directory notifier reports. *)
Inductive Change : Type := added | modified | deleted.

Record FileEvent : Type := mkFileEvent {
  event_type : WatchEvent;
  event_path : string;
  watch_config : WatchConfig;
  timestamp : datetime;
  old_path : option string;
}.

Record PendingEvent : Type := mkPendingEvent {
  file_event : FileEvent;
  scheduled_time : datetime;
}.

(** The state of a [FileWatcher]: the watches and the pending events are
    dictionaries in insertion order, the seen files a set per watch name.
    Times and [debounce_seconds] are in the same unit. *)
Record State : Type := mkState {
  _watches : list (string * WatchConfig);
  _pending_events : list (string * PendingEvent);
  _running : bool;
  _seen_files : gmap string (gset string);
}.

Definition new : State := mkState [] [] false ∅.

(** [add_watch]: a missing watch directory is created; the watch replaces
    any watch of the same name and starts with an empty set of seen files. *)
Definition add_watch (c : WatchConfig) (st : State) (f : gmap string node)
    : State * gmap string node :=
  (mkState (dict_set (watch_name c) c (_watches st)) (_pending_events st)
     (_running st) (<[watch_name c := ∅]> (_seen_files st)),
   if negb (FS.exists_ (watch_path c) f) then <[watch_path c := Dir]> f else f).

Definition remove_watch (n : string) (st : State) : State * bool :=
  if dict_mem n (_watches st) then
    (mkState (dict_pop n (_watches st)) (_pending_events st) (_running st)
       (delete n (_seen_files st)), true)
  else (st, false).

Definition get_watch (n : string) (st : State) : option WatchConfig :=
  dict_get n (_watches st).

(** A mutation of the set [self._seen_files.get(config.name, set())]: it
    lasts only when the watch name has an entry, otherwise the set is a
    temporary. *)
Definition update_seen (n : string) (g : gset string → gset string) (st : State)
    : State :=
  match _seen_files st !! n with
  | Some seen =>
      mkState (_watches st) (_pending_events st) (_running st)
        (<[n := g seen]> (_seen_files st))
  | None => st
  end.

Definition _map_change_type (change : Change) (path_str : string)
    (c : WatchConfig) (st : State) : State * option WatchEvent :=
  let seen := default ∅ (_seen_files st !! watch_name c) in
  match change with
  | added => (update_seen (watch_name c) (λ s, {[path_str]} ∪ s) st, Some CREATED)
  | modified =>
      if bool_decide (path_str ∈ seen) then (st, Some MODIFIED)
      else (update_seen (watch_name c) (λ s, {[path_str]} ∪ s) st, Some CREATED)
  | deleted => (update_seen (watch_name c) (λ s, s ∖ {[path_str]}) st, Some DELETED)
  end.

(** [_queue_event], at clock reading [now]. *)
Definition _queue_event (now : datetime) (event : FileEvent) (st : State) : State :=
  mkState (_watches st)
    (dict_set (event_path event)
       (mkPendingEvent event (now + debounce_seconds (watch_config event)))
       (_pending_events st))
    (_running st) (_seen_files st).

(** One turn of [_process_debounce_queue] at clock reading [now]: the loop
    walks a copy of the items, and each entry that is due is collected and
    deleted from the dictionary by its key. *)
Definition drain_step (now : datetime)
    (acc : list (string * PendingEvent) * list FileEvent)
    (kv : string * PendingEvent)
    : list (string * PendingEvent) * list FileEvent :=
  if bool_decide (scheduled_time kv.2 ≤ now)
  then (dict_pop kv.1 acc.1, acc.2 ++ [file_event kv.2])
  else acc.

Definition drain (now : datetime) (st : State) : State * list FileEvent :=
  let '(pending, events_to_process) :=
    foldl (drain_step now) (_pending_events st, []) (_pending_events st) in
  (mkState (_watches st) pending (_running st) (_seen_files st),
   events_to_process).
End FileWatcher.

(** * Concrete registries, jobs and worlds

    Small instances on which the statements below are exercised. *)

Module Fixtures.
(** The codec of the examples knows text of the Latin-1 range, a
    character standing for the code point of its number, under the two
    names ["utf-8"] and ["latin-1"].  UTF-8 writes a code point below 128
    as one byte and one from 128 to 255 as two. *)
Fixpoint utf8_encode (text : string) : string :=
  match text with
  | EmptyString => EmptyString
  | String a text' =>
      let n := nat_of_ascii a in
      if (n <? 128)%nat then String a (utf8_encode text')
      else String (ascii_of_nat (192 + n / 64))
             (String (ascii_of_nat (128 + n mod 64)) (utf8_encode text'))
  end.

(** Bytes that are not UTF-8, or that stand for a code point beyond 255,
    are refused. *)
Fixpoint utf8_decode (bytes : string) : outcome string :=
  match bytes with
  | EmptyString => Ok EmptyString
  | String a bytes' =>
      let n := nat_of_ascii a in
      if (n <? 128)%nat then
        match utf8_decode bytes' with
        | Ok text => Ok (String a text)
        | Raise e => Raise e
        end
      else if (n =? 194)%nat || (n =? 195)%nat then
        match bytes' with
        | String b bytes'' =>
            let m := nat_of_ascii b in
            if (128 <=? m)%nat && (m <? 192)%nat then
              match utf8_decode bytes'' with
              | Ok text =>
                  Ok (String (ascii_of_nat ((n - 192) * 64 + (m - 128))) text)
              | Raise e => Raise e
              end
            else Raise (UnicodeError "'utf-8' codec can't decode byte")
        | EmptyString => Raise (UnicodeError "'utf-8' codec can't decode byte")
        end
      else Raise (UnicodeError "'utf-8' codec can't decode byte")
  end.

Definition encode0 (encoding text : string) : outcome string :=
  if bool_decide (encoding = "utf-8") then Ok (utf8_encode text)
  else if bool_decide (encoding = "latin-1") then Ok text
  else Raise (LookupError ("unknown encoding: " +:+ encoding)).

Definition decode0 (encoding bytes : string) : outcome string :=
  if bool_decide (encoding = "utf-8") then utf8_decode bytes
  else if bool_decide (encoding = "latin-1") then Ok bytes
  else Raise (LookupError ("unknown encoding: " +:+ encoding)).

(** A codec that knows a single empty document, and the two encodings. *)
Definition codec0 : Codec :=
  mkCodec (λ _, Ok (JDict [])) (λ _, "") (λ _, "{}") (λ _, Ok (JDict []))
    encode0 decode0.

Definition job0 : Job := Job_.new 1%N 0 "test" "test".

Definition world0 : World := mkWorld ∅ ∅ ∅ 0 100%N [].

(** A processor that applies to every job and returns a completed result. *)
Definition proc (n : string) (req : list string) : Processor :=
  mkProcessor n n "" req false "never" true true
    (λ _ _, Ok true) (λ _, false)
    (λ j, Return (StepResult_.complete 0 None (StepResult_.new 0%N (job_id j) n)))
    (λ _ _, Return true).

(** A processor with the given body. *)
Definition proc_with (n : string) (body : script StepResult) : Processor :=
  mkProcessor n n "" [] false "never" true true
    (λ _ _, Ok true) (λ _, false) (λ _, body) (λ _ _, Return true).

Definition registry_of (ps : list Processor) : ProcessorRegistry :=
  foldl (λ r p, (ProcessorRegistry_.register p r).1) ProcessorRegistry_.new ps.

(** [a] and [c] are free, [b] requires [a]. *)
Definition reg_abc : ProcessorRegistry :=
  registry_of [proc "a" []; proc "b" ["a"]; proc "c" []].

(** The processors of [reg_abc], registered in the opposite order. *)
Definition reg_cba : ProcessorRegistry :=
  registry_of [proc "c" []; proc "b" ["a"]; proc "a" []].

(** [z] requires [a] and [x]; [x] requires [y]. *)
Definition reg_chain : ProcessorRegistry :=
  registry_of [proc "a" []; proc "y" []; proc "x" ["y"]; proc "z" ["a"; "x"]].

Definition completed_result (n : string) : StepResult :=
  StepResult_.complete 0 None (StepResult_.new 7%N 1%N n).

(** A watch on [/watch] that takes every name not ignored by default. *)
Definition watch_all : WatchConfig :=
  mkWatchConfig "/watch" "all" ["*"] false [CREATED; MODIFIED] "file" None 1
    WatchConfig_.default_ignore_patterns true [] 0 ∅.

(** A job whose history holds a completed run of [a]. *)
Definition job_a_done : Job := Job_.add_step_result 0 (completed_result "a") job0.

Definition result0 : StepResult :=
  StepResult_.start 0 (StepResult_.new 50%N 1%N "p").

Definition boom : exn := ProcessorError "boom".

(** A body that creates a file and then fails. *)
Definition body_create_raise : script StepResult :=
  Call (CreateFile "/v/out.md" "text" "utf-8") (λ _, Throw boom).

(** A body that creates a file, commits the context itself, then fails. *)
Definition body_commit_raise : script StepResult :=
  Call (CreateFile "/v/out.md" "text" "utf-8") (λ _, Commit (λ _, Throw boom)).

(** A body that asks for an encoding Python does not know and lets the
    exception escape. *)
Definition body_bad_encoding : script StepResult :=
  Call (CreateFile "/v/out.md" "text" "utf-9")
    (λ o, match o with
          | Raise e => Throw e
          | Ok _ => Return (StepResult_.new 0%N 1%N "p")
          end).

(** A body that rewrites a note and then fails. *)
Definition body_modify_raise : script StepResult :=
  Call (ModifyFile "/v/n.md" "new" "utf-8") (λ _, Throw boom).

(** A body that creates a note, rewrites it, and then fails. *)
Definition body_create_modify_raise : script StepResult :=
  Call (CreateFile "/v/out.md" "text" "utf-8")
    (λ _, Call (ModifyFile "/v/out.md" "more" "utf-8") (λ _, Throw boom)).

(** A body that rewrites a note kept in Latin-1 and then fails. *)
Definition body_modify_latin1_raise : script StepResult :=
  Call (ModifyFile "/v/n.md" "new" "latin-1") (λ _, Throw boom).

(** The bytes of [caf], then the byte 233, which is e acute in Latin-1. *)
Definition cafe_latin1 : string := "caf" +:+ String (ascii_of_nat 233) "".

(** The same word in UTF-8. *)
Definition cafe_utf8 : string :=
  "caf" +:+ String (ascii_of_nat 195) (String (ascii_of_nat 169) "").

(** Two lines, the first ended the DOS way. *)
Definition dos_text : string :=
  "a" +:+ String (ascii_of_nat 13) (String (ascii_of_nat 10) "b").

(** The artifact [move_file("/v/a.md", "/v/b.md")] records. *)
Definition move_artifact : Artifact :=
  mkArtifact 100%N 1%N "mover" FILE_MOVE "/v/b.md" (Some "/v/a.md")
    (Some "/v/b.md") ∅ ART_CREATED FULLY_REVERSIBLE 0 None None.

(** After the move, a new file has been put at the original path. *)
Definition fs_occupied : gmap string node :=
  {["/v/b.md" := File "moved"; "/v/a.md" := File "newer"]}.

(** The artifact [modify_file("/v/n.md", "new")] records over ["old"]. *)
Definition modify_artifact : Artifact :=
  mkArtifact 100%N 1%N "editor" FILE_MODIFY "/v/n.md" (Some "old")
    (Some "new") {["encoding" := JStr "utf-8"]} ART_CREATED FULLY_REVERSIBLE
    0 None None.

Definition world_with (f : gmap string node) : World :=
  mkWorld f ∅ ∅ 0 200%N [].

(** A world in which [job0] has its row, with the given files. *)
Definition world_of_job0 (f : gmap string node) : World :=
  mkWorld f ∅ {[1%N := job0]} 0 100%N [].

(** The directory [/v] alone. *)
Definition fs_vault : gmap string node := {["/v" := Dir]}.

(** A job whose only step, run by [n], completed with the artifacts [arts]. *)
Definition job_done_with (n : string) (arts : list Artifact) : Job :=
  Job_.add_step_result 0
    (JobExecutor.merge_result (completed_result n) arts (completed_result n))
    job0.

Definition reg_movers : ProcessorRegistry :=
  registry_of [proc "mover" []; proc "editor" []].

(** A cyclic registry: [p] and [q] require each other. *)
Definition reg_cycle : ProcessorRegistry :=
  registry_of [proc "p" ["q"]; proc "q" ["p"]].
(** A body that creates a file and completes. *)
Definition body_create_ok : script StepResult :=
  Call (CreateFile "/v/out.md" "text" "utf-8")
    (λ _, Return (completed_result "writer")).

Definition reg_writer : ProcessorRegistry :=
  registry_of [proc_with "writer" body_create_ok].

(** A processor that always asks for input before it runs. *)
Definition asker : Processor :=
  mkProcessor "asker" "asker" "" [] true "always" true true
    (λ _ _, Ok true) (λ _, false) (λ _, body_create_ok) (λ _ _, Return true).

Definition reg_asker : ProcessorRegistry := registry_of [asker].
(** A job on which [a], [b] and [c] have completed, in this order. *)
Definition job_abc_done : Job :=
  Job_.add_step_result 0 (completed_result "c")
    (Job_.add_step_result 0 (completed_result "b") job_a_done).

(** The artifact a call to [svc:post] declared not reversible records. *)
Definition api_artifact : Artifact :=
  mkArtifact 100%N 1%N "mover" EXTERNAL_API_CREATE "svc:post" None (Some "{}")
    (<["irreversible_reason" :=
         JStr "External API call to svc:post cannot be automatically reversed"]>
       (<["service" := JStr "svc"]>
          (<["action" := JStr "post"]>
             (<["request" := JNull]>
                (<["response" := JNull]> {["reverse_action" := JNull]})))))
    ART_IRREVERSIBLE IRREVERSIBLE 0 None None.
(** A change of [/watch/note.md] seen by the watch [watch_all]. *)
Definition note_event (ty : WatchEvent) (at_ : datetime) : FileWatcher.FileEvent :=
  FileWatcher.mkFileEvent ty "/watch/note.md" watch_all at_ None.
(** A processor that completes with one entry of output data. *)
Definition titler : Processor :=
  proc_with "titler"
    (Return (StepResult_.complete 0 (Some {["title" := JStr "note"]})
               (StepResult_.new 0%N 1%N "titler"))).

Definition reg_titler : ProcessorRegistry := registry_of [titler].
End Fixtures.

(** * Specification vocabulary *)

(** Job states produced from a freshly constructed job by the state
    transition methods of [Job]. *)
Inductive reachable : Job → Prop :=
  | reach_new id now st sn : reachable (Job_.new id now st sn)
  | reach_start_processing now step j :
      reachable j → reachable (Job_.start_processing now step j)
  | reach_await_input now step j :
      reachable j → reachable (Job_.await_input now step j)
  | reach_complete now j : reachable j → reachable (Job_.complete now j)
  | reach_fail now error j : reachable j → reachable (Job_.fail now error j)
  | reach_cancel now j : reachable j → reachable (Job_.cancel now j)
  | reach_start_revert now j : reachable j → reachable (Job_.start_revert now j)
  | reach_complete_revert now to_step j :
      reachable j → reachable (Job_.complete_revert now to_step j).

(** [depends_in r names p d]: inside [names], processor [p] requires [d]. *)
Definition depends_in (r : ProcessorRegistry) (names : list string)
    (p d : string) : Prop :=
  p ∈ names ∧ d ∈ names ∧ d ∈ ProcessorRegistry_.get_dependencies r p.

(** The [requires] relation restricted to [names] has no cycle. *)
Definition acyclic (r : ProcessorRegistry) (names : list string) : Prop :=
  ∀ p, ¬ tc (depends_in r names) p p.

(** [x] occurs in [l] at an earlier position than [y]. *)
Definition appears_before (l : list string) (x y : string) : Prop :=
  ∃ i j : nat, l !! i = Some x ∧ l !! j = Some y ∧ (i < j)%nat.

(** [p] was registered before [q]: its key comes first in the registry. *)
Definition registered_before (r : ProcessorRegistry) (p q : string) : Prop :=
  appears_before (ProcessorRegistry_.get_names r) p q.



(** The bytes [b] survive being read in [encoding] and written back as
    UTF-8, which is what recording the content of a file and reverting to
    it does. *)
Definition survives_revert (codec : Codec) (encoding b : string) : Prop :=
  ∃ text, text_decode codec encoding b = Ok text
          ∧ text_encode codec "utf-8" (universal_newlines text) = Ok b.




(** Number of occurrences of a name in a list. *)
Definition occ (x : string) (l : list string) : nat :=
  length (filter (λ y, y = x) l).

(** Number of requirements of [p] that are in [names]. *)
Definition indeg (r : ProcessorRegistry) (names : list string) (p : string) : nat :=
  length (filter (λ d, d ∈ names) (ProcessorRegistry_.get_dependencies r p)).

(** Requirements of [p] that are in [names] and not yet in [result]. *)
Definition need (r : ProcessorRegistry) (names result : list string) (p : string)
    : nat :=
  length (filter (λ d, d ∈ names ∧ d ∉ result)
            (ProcessorRegistry_.get_dependencies r p)).

(** Every entry of [result] comes after its requirements that are in [names]. *)
Definition ordered (r : ProcessorRegistry) (names result : list string) : Prop :=
  ∀ (j : nat) (p d : string),
    result !! j = Some p →
    d ∈ ProcessorRegistry_.get_dependencies r p → d ∈ names →
    ∃ i : nat, (i < j)%nat ∧ result !! i = Some d.

(** The loop invariant of Kahn's algorithm. *)
Record kahn_inv (r : ProcessorRegistry) (names : list string)
    (deg : gmap string Z) (queue result : list string) : Prop := {
  inv_nodup : NoDup (result ++ queue);
  inv_incl : ∀ x, x ∈ result ++ queue → x ∈ names;
  inv_deg : ∀ p, p ∈ names → deg !! p = Some (Z.of_nat (need r names result p));
  inv_mem : ∀ p, p ∈ names → (p ∈ result ++ queue ↔ need r names result p = 0%nat);
  inv_ordered : ordered r names result;
}.

(** Keys of [ks] whose degree is still positive. *)
Definition waiting (ks : list string) (deg : gmap string Z) : nat :=
  length (filter (λ k, 0 < deg !!! k) ks).

(** Every dependent listed in the graph is a key of the degree table. *)
Definition graph_closed (graph : gmap string (list string)) (ks : list string)
    (deg : gmap string Z) : Prop :=
  ∀ node L x, graph !! node = Some L → x ∈ L → x ∈ ks ∧ is_Some (deg !! x).

(** Registries built from the empty one by the mutating methods. *)
Inductive registry_reachable : ProcessorRegistry → Prop :=
  | rr_new : registry_reachable ProcessorRegistry_.new
  | rr_register p r :
      registry_reachable r →
      registry_reachable (ProcessorRegistry_.register p r).1
  | rr_unregister n r :
      registry_reachable r →
      registry_reachable (ProcessorRegistry_.unregister n r).1
  | rr_clear r :
      registry_reachable r → registry_reachable (ProcessorRegistry_.clear r).

(** Keys are distinct, every processor sits under its own non-empty name,
    and the stored definitions mirror the processors. *)
Definition registry_wf (r : ProcessorRegistry) : Prop :=
  NoDup (dict_keys (_processors r))
  ∧ (∀ n p, (n, p) ∈ _processors r → name p = n ∧ n ≠ "")
  ∧ _definitions r = (λ kv, (kv.1, to_definition kv.2)) <$> _processors r.

(** The job [j] with its data bag replaced: what a processor body may do
    to a job. *)
Definition with_data (d : gmap string json) (j : Job) : Job :=
  mkJob (job_id j) (source_type j) (source_path j) (source_url j)
    (source_name j) (status j) (current_step j) (next_step j) d
    (history j) (config j) (tags j) (created_at j) (started_at j)
    (completed_at j) (updated_at j) (error_message j) (priority j).

(** The history [h] is [h0] with the results whose step is named in [done]
    marked reverted, and the others untouched. *)
Definition reverted_in (h0 : list StepResult) (done : list string)
    (h : list StepResult) : Prop :=
  ∀ k, match h0 !! k with
       | Some res0 =>
           ∃ res, h !! k = Some res ∧ step_name res = step_name res0
                  ∧ if decide (step_name res0 ∈ done)
                    then step_status res = STEP_REVERTED
                    else res = res0
       | None => h !! k = None
       end.

(** [s] is the step of a revertable result of [h0] whose processor is
    registered. *)
Definition revertable_name (r : ProcessorRegistry) (h0 : list StepResult)
    (s : string) : Prop :=
  ∃ k res0, h0 !! k = Some res0 ∧ step_name res0 = s
            ∧ StepResult_.can_revert res0 = true
            ∧ is_Some (ProcessorRegistry_.get s r).

(** Every pending entry of a watcher is filed under the path of its event,
    and no path is filed twice. *)
Definition pending_wf (st : FileWatcher.State) : Prop :=
  NoDup (dict_keys (FileWatcher._pending_events st))
  ∧ ∀ k pe, (k, pe) ∈ FileWatcher._pending_events st →
            FileWatcher.event_path (FileWatcher.file_event pe) = k.

(** * Registry: a failed registration changes nothing *)

Lemma dict_get_set_ne {V} (k k' : string) (v : V) (d : list (string * V)) :
  k ≠ k' → dict_get k' (dict_set k v d) = dict_get k' d.
Proof.
  intros Hne. induction d as [|[k0 v0] d IH]; simpl.
  - destruct (decide (k = k')); [done|reflexivity].
  - destruct (decide (k0 = k)) as [->|Hk0]; simpl.
    + destruct (decide (k = k')); [done|reflexivity].
    + destruct (decide (k0 = k')); [reflexivity|apply IH].
Qed.

Lemma dict_get_set_eq {V} (k : string) (v : V) (d : list (string * V)) :
  dict_get k (dict_set k v d) = Some v.
Proof.
  induction d as [|[k0 v0] d IH]; simpl.
  - destruct (decide (k = k)); [reflexivity|done].
  - destruct (decide (k0 = k)) as [->|Hk0]; simpl.
    + destruct (decide (k = k)); [reflexivity|done].
    + destruct (decide (k0 = k)); [done|apply IH].
Qed.

(** A successful registration makes the processor retrievable and leaves
    every other name as it was. *)
Lemma register_ok_get (p : Processor) (r : ProcessorRegistry) :
  (ProcessorRegistry_.register p r).2 = Ok tt →
  ProcessorRegistry_.get (name p) (ProcessorRegistry_.register p r).1 = Some p
  ∧ ∀ n, n ≠ name p →
      ProcessorRegistry_.get n (ProcessorRegistry_.register p r).1
      = ProcessorRegistry_.get n r.
Proof.
  unfold ProcessorRegistry_.register, ProcessorRegistry_.get.
  destruct (decide (name p = "")) as [|_]; [discriminate|].
  destruct (dict_mem (name p) (_processors r)); [discriminate|].
  intros _. simpl. split.
  - apply dict_get_set_eq.
  - intros n Hn. apply dict_get_set_ne. congruence.
Qed.

(** C10. If [register(p)] raises, then the name of [p] is empty or already
    registered, and the registry is exactly what it was: the same
    name-to-processor mapping, the same stored step definitions, and [get]
    answers as before on every name. *)
Theorem register_raise_unchanged (p : Processor) (r : ProcessorRegistry) (e : exn) :
  (ProcessorRegistry_.register p r).2 = Raise e →
  (name p = "" ∨ ProcessorRegistry_.has (name p) r = true)
  ∧ _processors (ProcessorRegistry_.register p r).1 = _processors r
  ∧ _definitions (ProcessorRegistry_.register p r).1 = _definitions r
  ∧ ∀ n, ProcessorRegistry_.get n (ProcessorRegistry_.register p r).1
         = ProcessorRegistry_.get n r.
Proof.
  unfold ProcessorRegistry_.register, ProcessorRegistry_.has.
  destruct (decide (name p = "")) as [Hempty|Hname].
  - intros _. simpl. auto.
  - destruct (dict_mem (name p) (_processors r)) eqn:Hmem.
    + intros _. simpl. auto.
    + simpl. discriminate.
Qed.

Lemma register_raise_unchanged_witness :
  (ProcessorRegistry_.register (Fixtures.proc "a" []) Fixtures.reg_abc).2
    = Raise (ValueError "Processor 'a' is already registered")
  ∧ ∀ n, ProcessorRegistry_.get n
           (ProcessorRegistry_.register (Fixtures.proc "a" []) Fixtures.reg_abc).1
         = ProcessorRegistry_.get n Fixtures.reg_abc.
Proof.
  split; [reflexivity|].
  apply (register_raise_unchanged (Fixtures.proc "a" []) Fixtures.reg_abc
           (ValueError "Processor 'a' is already registered")).
  reflexivity.
Defined.

(** * Router *)

Lemma elem_of_get_completed_steps (job : Job) (n : string) :
  n ∈ Job_.get_completed_steps job
  ↔ ∃ res, res ∈ history job ∧ step_name res = n
           ∧ step_status res = STEP_COMPLETED.
Proof.
  unfold Job_.get_completed_steps. rewrite list_elem_of_fmap. split.
  - intros (res & -> & Hin). apply list_elem_of_filter in Hin as [Hst Hin].
    exists res. auto.
  - intros (res & Hin & <- & Hst). exists res. split; [reflexivity|].
    apply list_elem_of_filter. auto.
Qed.

Lemma runnable_not_completed (r : ProcessorRegistry) (completed : list string)
    (s : string) :
  Router.runnable r completed s = true → s ∉ completed.
Proof.
  unfold Router.runnable. intros H. apply andb_true_iff in H as [H _].
  apply negb_true_iff, bool_decide_eq_false in H. exact H.
Qed.

(** C3. Router monotonicity: when some history entry for [n] has status
    [completed], [get_next_step] does not return [n]. *)
Theorem get_next_step_skips_completed (r : ProcessorRegistry)
    (f : gmap string node) (job : Job) (n : string) :
  (∃ res, res ∈ history job ∧ step_name res = n
          ∧ step_status res = STEP_COMPLETED) →
  Router.get_next_step r f job ≠ Some n.
Proof.
  intros Hdone Hnext. apply elem_of_get_completed_steps in Hdone.
  unfold Router.get_next_step in Hnext.
  destruct (Router._get_applicable_processors r f job) as [|a l]; [discriminate|].
  destruct (ProcessorRegistry_.get_execution_order r (a :: l)) as [ordered|e];
    [|discriminate].
  apply head_Some_elem_of, list_elem_of_filter in Hnext as [Hrun _].
  apply runnable_not_completed in Hrun. contradiction.
Qed.

Lemma get_next_step_skips_completed_witness :
  Router.get_next_step Fixtures.reg_abc ∅ Fixtures.job_a_done ≠ Some "a".
Proof.
  apply (get_next_step_skips_completed Fixtures.reg_abc ∅ Fixtures.job_a_done "a").
  exists (Fixtures.completed_result "a"). split; [|split; reflexivity].
  apply list_elem_of_In. simpl. auto.
Defined.

(** On that job the router moves on to the first free processor. *)
Example get_next_step_after_a :
  Router.get_next_step Fixtures.reg_abc ∅ Fixtures.job_a_done = Some "c".
Proof. vm_compute. reflexivity. Qed.

(** * Job state machine *)

(** C4, as stated, fails: a job that fails while processing keeps its
    [current_step], and a revert to a named step leaves a pending job with a
    [current_step]. *)
Lemma current_step_iff_counterexample :
  ¬ (∀ j, reachable j →
       (current_step j ≠ None
        ↔ status j = JOB_PROCESSING ∨ status j = JOB_AWAITING_INPUT)).
Proof.
  intros H.
  pose (j := Job_.fail 2 "boom" (Job_.start_processing 1 "a" Fixtures.job0)).
  assert (Hr : reachable j) by (repeat constructor).
  destruct (H j Hr) as [Hcs _].
  destruct Hcs as [Hs|Hs]; [discriminate|discriminate|discriminate].
Qed.

(** C4 (amended). In every reachable job state: if the status is
    [processing] or [awaiting_input] then [current_step] is set, and if the
    status is [completed] or [reverted] then [current_step] is null. *)
Theorem current_step_by_status (j : Job) :
  reachable j →
  ((status j = JOB_PROCESSING ∨ status j = JOB_AWAITING_INPUT) →
     current_step j ≠ None)
  ∧ ((status j = JOB_COMPLETED ∨ status j = JOB_REVERTED) →
     current_step j = None).
Proof.
  induction 1 as [id now st sn| now step j Hj IH | now step j Hj IH
                 | now j Hj IH | now error j Hj IH | now j Hj IH
                 | now j Hj IH | now to_step j Hj IH]; simpl.
  - split; [intros [?|?]; discriminate | reflexivity].
  - split; [discriminate | intros [?|?]; discriminate].
  - split; [discriminate | intros [?|?]; discriminate].
  - split; [intros [?|?]; discriminate | reflexivity].
  - split; intros [?|?]; discriminate.
  - split; intros [?|?]; discriminate.
  - split; intros [?|?]; discriminate.
  - destruct to_step; split; try (intros [?|?]; discriminate); reflexivity.
Qed.

Lemma current_step_by_status_witness :
  reachable (Job_.await_input 2 "a" (Job_.start_processing 1 "a" Fixtures.job0))
  ∧ current_step (Job_.await_input 2 "a" (Job_.start_processing 1 "a" Fixtures.job0))
    ≠ None.
Proof.
  assert (Hr : reachable
                 (Job_.await_input 2 "a" (Job_.start_processing 1 "a" Fixtures.job0)))
    by (repeat constructor).
  split; [exact Hr|].
  apply (current_step_by_status _ Hr). right. reflexivity.
Defined.

(** * Executor: steps that cannot run *)

Lemma can_run_step_reason_nonempty (r : ProcessorRegistry) (job : Job)
    (step : string) :
  (Router.can_run_step r job step).1 = false →
  (Router.can_run_step r job step).2 ≠ "".
Proof.
  unfold Router.can_run_step.
  destruct (ProcessorRegistry_.get step r) as [processor|]; [|discriminate].
  destruct (Job_.has_completed_step step job); [discriminate|].
  destruct (filter _ (requires processor)); simpl; [discriminate|].
  intros _. discriminate.
Qed.

(** C9, as stated, fails: for a name that is not registered [can_run_step]
    answers false, yet [execute_step] raises instead of returning a skipped
    result. *)
Lemma execute_step_skip_counterexample :
  ¬ (∀ (codec : Codec) (r : ProcessorRegistry) (job : Job) (step : string)
       (w : World),
       (Router.can_run_step r job step).1 = false →
       ∃ job' w' result,
         JobExecutor.execute_step codec r job step w = (job', w', Ok result)
         ∧ step_status result = STEP_SKIPPED).
Proof.
  intros H.
  destruct (H Fixtures.codec0 ProcessorRegistry_.new Fixtures.job0 "ghost"
              Fixtures.world0 eq_refl) as (job' & w' & result & Heq & _).
  discriminate Heq.
Qed.

(** C9 (amended). For a registered processor, when [can_run_step] returns
    false, [execute_step] returns a result with status [skipped] that
    carries the reason, hands the job back unchanged (status, current step,
    history and data bag included), and writes nothing: the job table, the
    artifact table, the filesystem and the event log are as before. *)
Theorem execute_step_skips (codec : Codec) (r : ProcessorRegistry) (job : Job)
    (step : string) (w : World) (processor : Processor) :
  ProcessorRegistry_.get step r = Some processor →
  (Router.can_run_step r job step).1 = false →
  ∃ w' result,
    JobExecutor.execute_step codec r job step w = (job, w', Ok result)
    ∧ step_status result = STEP_SKIPPED
    ∧ step_name result = step
    ∧ output_data result !! "skip_reason"
      = Some (JStr (Router.can_run_step r job step).2)
    ∧ job_rows w' = job_rows w ∧ artifact_rows w' = artifact_rows w
    ∧ fs w' = fs w ∧ events w' = events w.
Proof.
  intros Hget Hcan. pose proof (can_run_step_reason_nonempty r job step Hcan) as Hne.
  unfold JobExecutor.execute_step. rewrite Hget.
  destruct (Router.can_run_step r job step) as [can_run reason].
  simpl in Hcan, Hne. subst can_run. simpl.
  eexists _, _. split; [reflexivity|]. simpl.
  destruct (decide (reason = "")); [contradiction|].
  rewrite lookup_insert_eq. repeat split; reflexivity.
Qed.

Lemma execute_step_skips_witness :
  ∃ w' result,
    JobExecutor.execute_step Fixtures.codec0 Fixtures.reg_abc Fixtures.job_a_done
      "a" Fixtures.world0 = (Fixtures.job_a_done, w', Ok result)
    ∧ step_status result = STEP_SKIPPED.
Proof.
  destruct (execute_step_skips Fixtures.codec0 Fixtures.reg_abc
              Fixtures.job_a_done "a" Fixtures.world0 (Fixtures.proc "a" [])
              eq_refl eq_refl)
    as (w' & result & Heq & Hst & _).
  exists w', result. split; assumption.
Defined.

(** * Watch patterns *)

Section matches_file.
Variable fnmatch : string → string → bool.

Lemma ignored_false_iff (filename file_path : string) (pats : list string) :
  WatchConfig_.ignored fnmatch filename file_path pats = false
  ↔ ∀ pat, pat ∈ pats →
      fnmatch filename pat = false ∧ fnmatch file_path pat = false.
Proof.
  induction pats as [|pat pats IH]; simpl.
  - split; [|reflexivity]. intros _ pat Hin. inversion Hin.
  - destruct (fnmatch filename pat) eqn:Hn.
    { split; [discriminate|]. intros H.
      destruct (H pat) as [H1 _]; [left|]. congruence. }
    destruct (fnmatch file_path pat) eqn:Hp.
    { split; [discriminate|]. intros H.
      destruct (H pat) as [_ H2]; [left|]. congruence. }
    rewrite IH. split.
    + intros H q Hq. apply elem_of_cons in Hq as [->|Hq]; auto.
    + intros H q Hq. apply H. right. exact Hq.
Qed.

Lemma accepted_true_iff (filename : string) (pats : list string) :
  WatchConfig_.accepted fnmatch filename pats = true
  ↔ ∃ pat, pat ∈ pats ∧ fnmatch filename pat = true.
Proof.
  induction pats as [|pat pats IH]; simpl.
  - split; [discriminate|]. intros (q & Hq & _). inversion Hq.
  - destruct (fnmatch filename pat) eqn:Hn.
    { split; [|reflexivity]. intros _. exists pat. split; [left|exact Hn]. }
    rewrite IH. split.
    + intros (q & Hq & Hm). exists q. split; [right; exact Hq|exact Hm].
    + intros (q & Hq & Hm). apply elem_of_cons in Hq as [->|Hq].
      * congruence.
      * exists q. auto.
Qed.

(** C7 (amended). [matches_file(p)] is true exactly when no ignore pattern
    matches the name or the full path and some positive pattern matches
    the name.  The function never consults the filesystem; it is the
    watcher that drops directories, before the patterns are tried. *)
Theorem matches_file_iff (c : WatchConfig) (p : string) :
  (WatchConfig_.matches_file fnmatch c p = true
   ↔ (∀ pat, pat ∈ ignore_patterns c →
        fnmatch (WatchConfig_.path_name p) pat = false
        ∧ fnmatch p pat = false)
     ∧ (∃ pat, pat ∈ patterns c
               ∧ fnmatch (WatchConfig_.path_name p) pat = true))
  ∧ (∀ f : gmap string node,
       FS.is_dir p f = true → FileWatcher.passes_filter fnmatch f c p = false).
Proof.
  split.
  - unfold WatchConfig_.matches_file.
    rewrite <- ignored_false_iff, <- accepted_true_iff.
    destruct (WatchConfig_.ignored fnmatch _ p _); split.
    + discriminate.
    + intros [? _]. discriminate.
    + intros H. split; [reflexivity|exact H].
    + intros [_ H]. exact H.
  - intros f Hdir. unfold FileWatcher.passes_filter. rewrite Hdir. reflexivity.
Qed.
End matches_file.

(** C7, as stated, fails in its last part: [matches_file] answers from the
    path text alone, so a directory whose name fits the patterns matches. *)
Lemma matches_file_directory_counterexample :
  ¬ (∀ (f : gmap string node) (c : WatchConfig) (p : string),
       FS.is_dir p f = true →
       WatchConfig_.matches_file WatchConfig_.fnmatch_glob c p = false).
Proof.
  intros H.
  specialize (H {["/watch/sub" := Dir]} Fixtures.watch_all "/watch/sub" eq_refl).
  vm_compute in H. discriminate H.
Qed.

Lemma matches_file_iff_witness :
  WatchConfig_.matches_file WatchConfig_.fnmatch_glob Fixtures.watch_all
    "/watch/note.md" = true
  ∧ FileWatcher.passes_filter WatchConfig_.fnmatch_glob {["/watch/sub" := Dir]}
      Fixtures.watch_all "/watch/sub" = false.
Proof.
  destruct (matches_file_iff WatchConfig_.fnmatch_glob Fixtures.watch_all
              "/watch/sub") as [_ Hdir].
  split; [vm_compute; reflexivity|].
  apply Hdir. reflexivity.
Defined.

(** The default ignore list in action. *)
Example matches_file_ignores_swap :
  WatchConfig_.matches_file WatchConfig_.fnmatch_glob Fixtures.watch_all
    "/watch/.note.md.swp" = false.
Proof. vm_compute. reflexivity. Qed.

(** * Execution context: rollback undoes what was recorded *)




Lemma stat_lookup (p : string) (f : gmap string node) :
  FS.is_root p = false → FS.stat p f = f !! p.
Proof. unfold FS.stat. intros ->. reflexivity. Qed.



(** ** Making directories *)

Lemma os_mkdir_ok (d : string) (f f' : gmap string node) :
  FS.os_mkdir d f = Ok f' →
  FS.stat d f = None ∧ FS.is_dir (FS.parent d) f = true ∧ f' = <[d := Dir]> f.
Proof.
  unfold FS.os_mkdir, FS.is_dir. destruct (FS.stat d f); [discriminate|].
  destruct (FS.stat (FS.parent d) f) as [[c|]|]; try discriminate.
  intros [= <-]. split; [reflexivity|]. split; [|reflexivity].
  apply bool_decide_eq_true. reflexivity.
Qed.

Lemma os_mkdir_missing (d : string) (f : gmap string node) (m : string) :
  FS.os_mkdir d f = Raise (FileNotFoundError m) →
  FS.stat (FS.parent d) f = None.
Proof.
  unfold FS.os_mkdir. destruct (FS.stat d f); [discriminate|].
  destruct (FS.stat (FS.parent d) f) as [[c|]|]; try discriminate. reflexivity.
Qed.

Lemma before_slash_length (l d : list ascii) :
  FS.before_slash l = Some d → (length d < length l)%nat.
Proof.
  revert d. induction l as [|a l IH]; intros d; simpl; [discriminate|].
  destruct (decide (a = FS.slash)).
  - intros [= <-]. lia.
  - intros H. apply IH in H. lia.
Qed.

Lemma string_length_of_list (l : list ascii) :
  String.length (string_of_list_ascii l) = length l.
Proof. induction l as [|a l IH]; simpl; [reflexivity|]. rewrite IH. reflexivity. Qed.

Lemma list_of_string_length (s : string) :
  length (list_ascii_of_string s) = String.length s.
Proof. induction s as [|a s IH]; simpl; [reflexivity|]. rewrite IH. reflexivity. Qed.

(** The directory above a path is a shorter path, unless it is the root
    or the working directory. *)
Lemma parent_shorter (d : string) :
  FS.is_root (FS.parent d) = false →
  (String.length (FS.parent d) < String.length d)%nat.
Proof.
  unfold FS.parent.
  destruct (FS.before_slash (rev (list_ascii_of_string d))) as [[|a l]|] eqn:Hb;
    [discriminate| |discriminate].
  intros _. apply before_slash_length in Hb.
  rewrite string_length_of_list, length_rev.
  rewrite length_rev, list_of_string_length in Hb. exact Hb.
Qed.

Lemma stat_none_not_root (p : string) (f : gmap string node) :
  FS.stat p f = None → FS.is_root p = false.
Proof. unfold FS.stat. destruct (FS.is_root p); [discriminate|reflexivity]. Qed.

(** The recursion of [mkdir] never runs out of turns: from the length of
    the path on, the bound no longer matters. *)
Lemma mkdir_fuel (n m : nat) (d : string) (f : gmap string node) :
  (String.length d ≤ n)%nat → (String.length d ≤ m)%nat →
  FS.mkdir_parents n d f = FS.mkdir_parents m d f.
Proof.
  revert m d f. induction n as [|n IH]; intros m d f Hn Hm.
  - destruct m as [|m]; [reflexivity|]. simpl.
    destruct (FS.os_mkdir d f) as [f'|e] eqn:Hmk; [reflexivity|].
    destruct e; try reflexivity.
    destruct (decide (FS.parent d = d)); [reflexivity|].
    apply os_mkdir_missing, stat_none_not_root, parent_shorter in Hmk. lia.
  - destruct m as [|m]; simpl.
    + destruct (FS.os_mkdir d f) as [f'|e] eqn:Hmk; [reflexivity|].
      destruct e; try reflexivity.
      destruct (decide (FS.parent d = d)); [reflexivity|].
      apply os_mkdir_missing, stat_none_not_root, parent_shorter in Hmk. lia.
    + destruct (FS.os_mkdir d f) as [f'|e] eqn:Hmk; [reflexivity|].
      destruct e; try reflexivity.
      destruct (decide (FS.parent d = d)); [reflexivity|].
      apply os_mkdir_missing, stat_none_not_root, parent_shorter in Hmk.
      rewrite (IH m) by lia. reflexivity.
Qed.




(** When [mkdir] returns, the directory is there. *)
Lemma mkdir_parents_made (fuel : nat) (d : string) (f f' : gmap string node) :
  FS.mkdir_parents fuel d f = (f', Ok tt) → FS.is_dir d f' = true.
Proof.
  assert (Hos : ∀ d f f', FS.os_mkdir d f = Ok f' → FS.is_dir d f' = true).
  { intros d0 f0 f0' Hmk. apply os_mkdir_ok in Hmk as (Hst & _ & ->).
    unfold FS.is_dir. apply bool_decide_eq_true.
    rewrite stat_lookup by (eapply stat_none_not_root, Hst).
    apply lookup_insert_eq. }
  destruct fuel as [|fuel]; simpl.
  - destruct (FS.os_mkdir d f) as [f1|e] eqn:Hmk; simpl.
    { intros [= <-]. eapply Hos, Hmk. }
    destruct e; try solve [destruct (FS.is_dir d f) eqn:Hd; intros [= <-]; exact Hd].
    destruct (decide (FS.parent d = d)); discriminate.
  - destruct (FS.os_mkdir d f) as [f1|e] eqn:Hmk; simpl.
    { intros [= <-]. eapply Hos, Hmk. }
    destruct e; try solve [destruct (FS.is_dir d f) eqn:Hd; intros [= <-]; exact Hd].
    destruct (decide (FS.parent d = d)); [discriminate|].
    destruct (FS.mkdir_parents fuel (FS.parent d) f) as [f1 [[]|e1]];
      [|discriminate].
    destruct (FS.os_mkdir d f1) as [f2|e2] eqn:Hmk2; simpl.
    { intros [= <-]. eapply Hos, Hmk2. }
    destruct e2; try discriminate;
      destruct (FS.is_dir d f1) eqn:Hd; intros [= <-]; exact Hd.
Qed.

(** ** What a context call leaves *)

Section rollback.
Variable codec : Codec.

Ltac split_matches :=
  repeat (lazymatch goal with
          | |- context [match ?x with _ => _ end] => destruct x eqn:?
          end; simpl).


(** Every context call leaves the commit flag, the job of the context and
    the two tables alone. *)
Lemma do_call_frame (c : ctx_call) (ctx : ExecutionContext) (w : World) :
  _committed (JobExecutor.do_call codec c ctx w).1.1 = _committed ctx
  ∧ ctx_job_id (JobExecutor.do_call codec c ctx w).1.1 = ctx_job_id ctx
  ∧ artifact_rows (JobExecutor.do_call codec c ctx w).1.2 = artifact_rows w
  ∧ job_rows (JobExecutor.do_call codec c ctx w).1.2 = job_rows w.
Proof.
  destruct c; simpl;
    unfold ExecutionContext_.create_file, ExecutionContext_.modify_file,
      ExecutionContext_.delete_file, ExecutionContext_.move_file,
      ExecutionContext_.update_frontmatter, ExecutionContext_.record_api_call,
      ExecutionContext_.new_artifact, fresh_uuid; cbv zeta beta;
    split_matches; auto.
Qed.

(** A call that raises leaves the context as it was; a call that returns
    has appended the artifact it returns, which carries the job of the
    context. *)
Lemma do_call_pending (c : ctx_call) (ctx ctx' : ExecutionContext)
    (w w' : World) (res : outcome Artifact) :
  JobExecutor.do_call codec c ctx w = (ctx', w', res) →
  match res with
  | Raise _ => ctx' = ctx
  | Ok a =>
      ctx' = ExecutionContext_.append_pending a ctx
      ∧ artifact_job_id a = ctx_job_id ctx
  end.
Proof.
  intros H. destruct c; simpl in H;
    unfold ExecutionContext_.create_file, ExecutionContext_.modify_file,
      ExecutionContext_.delete_file, ExecutionContext_.move_file,
      ExecutionContext_.update_frontmatter, ExecutionContext_.record_api_call,
      ExecutionContext_.new_artifact, fresh_uuid in H; cbv zeta beta in H;
    repeat (lazymatch type of H with
            | context [match ?x with _ => _ end] => destruct x eqn:?
            end; simpl in H);
    simplify_eq; simpl; auto.
Qed.

(** ** Saving artifacts *)

Lemma save_frame (a : Artifact) (w w' : World) :
  ArtifactStore.save a w = Ok w' →
  fs w' = fs w ∧ job_rows w' = job_rows w ∧ clock w' = clock w
  ∧ uuid_supply w' = uuid_supply w ∧ events w' = events w
  ∧ is_Some (artifact_rows w' !! artifact_id a)
  ∧ ∀ id, is_Some (artifact_rows w !! id) → is_Some (artifact_rows w' !! id).
Proof.
  unfold ArtifactStore.save.
  destruct (artifact_rows w !! artifact_id a) as [old|] eqn:Hrow.
  - intros [= <-]. simpl. repeat (split; [reflexivity|]).
    split; [rewrite lookup_insert_eq; eauto|].
    intros id Hid. destruct (decide (id = artifact_id a)) as [->|Hne].
    + rewrite lookup_insert_eq. eauto.
    + rewrite lookup_insert_ne by congruence. exact Hid.
  - destruct (bool_decide _); [|discriminate].
    intros [= <-]. simpl. repeat (split; [reflexivity|]).
    split; [rewrite lookup_insert_eq; eauto|].
    intros id Hid. destruct (decide (id = artifact_id a)) as [->|Hne].
    + rewrite lookup_insert_eq. eauto.
    + rewrite lookup_insert_ne by congruence. exact Hid.
Qed.

(** A save is refused only for want of the job's row. *)
Lemma save_ok (a : Artifact) (w : World) :
  is_Some (job_rows w !! artifact_job_id a) → ∃ w', ArtifactStore.save a w = Ok w'.
Proof.
  intros Hjob. unfold ArtifactStore.save.
  destruct (artifact_rows w !! artifact_id a); [eauto|].
  rewrite bool_decide_eq_true_2 by exact Hjob. eauto.
Qed.

Lemma save_each_frame (l : list Artifact) (w : World) :
  fs (ArtifactStore.save_each l w).1 = fs w
  ∧ job_rows (ArtifactStore.save_each l w).1 = job_rows w
  ∧ clock (ArtifactStore.save_each l w).1 = clock w
  ∧ uuid_supply (ArtifactStore.save_each l w).1 = uuid_supply w
  ∧ events (ArtifactStore.save_each l w).1 = events w
  ∧ ∀ id, is_Some (artifact_rows w !! id) →
          is_Some (artifact_rows (ArtifactStore.save_each l w).1 !! id).
Proof.
  revert w. induction l as [|a l IH]; intros w; simpl; [auto 10|].
  destruct (ArtifactStore.save a w) as [w'|e] eqn:Hs; simpl; [|auto 10].
  apply save_frame in Hs as (H1 & H2 & H3 & H4 & H5 & _ & H7).
  destruct (IH w') as (I1 & I2 & I3 & I4 & I5 & I6).
  rewrite I1, I2, I3, I4, I5. auto 10.
Qed.

(** A loop of saves that ends has written a row for every artifact. *)
Lemma save_each_saved (l : list Artifact) (w w' : World) :
  ArtifactStore.save_each l w = (w', Ok tt) →
  ∀ a, a ∈ l → is_Some (artifact_rows w' !! artifact_id a).
Proof.
  revert w. induction l as [|a l IH]; intros w Heq b Hb; [inversion Hb|].
  simpl in Heq. destruct (ArtifactStore.save a w) as [w1|e] eqn:Hs; [|discriminate].
  apply elem_of_cons in Hb as [->|Hb]; [|eapply IH; eauto].
  apply save_frame in Hs as (_ & _ & _ & _ & _ & Hrow & _).
  pose proof (save_each_frame l w1) as (_ & _ & _ & _ & _ & Hkeep).
  rewrite Heq in Hkeep. apply Hkeep, Hrow.
Qed.

(** With the row of their job in place, the saves all go through. *)
Lemma save_each_ok (l : list Artifact) (w : World) :
  (∀ a, a ∈ l → is_Some (job_rows w !! artifact_job_id a)) →
  (ArtifactStore.save_each l w).2 = Ok tt.
Proof.
  revert w. induction l as [|a l IH]; intros w Hjob; simpl; [reflexivity|].
  destruct (save_ok a w) as [w' Hs]; [apply Hjob; left|].
  rewrite Hs. apply IH. intros b Hb.
  apply save_frame in Hs as (_ & -> & _). apply Hjob. right. exact Hb.
Qed.

(** ** Commit *)

Lemma commit_frame (ctx : ExecutionContext) (w : World) :
  fs (ExecutionContext_.commit ctx w).1.2 = fs w
  ∧ job_rows (ExecutionContext_.commit ctx w).1.2 = job_rows w
  ∧ ctx_job_id (ExecutionContext_.commit ctx w).1.1 = ctx_job_id ctx
  ∧ _pending_artifacts (ExecutionContext_.commit ctx w).1.1
    = _pending_artifacts ctx
  ∧ (_committed ctx = true → ExecutionContext_.commit ctx w = (ctx, w, Ok (_pending_artifacts ctx))).
Proof.
  unfold ExecutionContext_.commit.
  destruct (_committed ctx); simpl; [auto 10|].
  pose proof (save_each_frame (_pending_artifacts ctx) w) as (H1 & H2 & _).
  destruct (ArtifactStore.save_each (_pending_artifacts ctx) w) as [w' [[]|e]];
    simpl in *; (split; [exact H1|]); (split; [exact H2|]);
    (split; [reflexivity|]); (split; [reflexivity|]); discriminate.
Qed.

(** With the row of the job in place, [commit] goes through and sets the
    flag. *)
Lemma commit_ok (ctx : ExecutionContext) (w : World) :
  is_Some (job_rows w !! ctx_job_id ctx) →
  (∀ a, a ∈ _pending_artifacts ctx → artifact_job_id a = ctx_job_id ctx) →
  _committed (ExecutionContext_.commit ctx w).1.1 = true
  ∧ (ExecutionContext_.commit ctx w).2 = Ok (_pending_artifacts ctx)
  ∧ ∀ a, a ∈ _pending_artifacts ctx → _committed ctx = false →
         is_Some (artifact_rows (ExecutionContext_.commit ctx w).1.2
                    !! artifact_id a).
Proof.
  intros Hjob Hown. unfold ExecutionContext_.commit.
  destruct (_committed ctx) eqn:Hc; simpl.
  { split; [exact Hc|]. split; [reflexivity|]. intros; discriminate. }
  pose proof (save_each_ok (_pending_artifacts ctx) w) as Hok.
  pose proof (save_each_saved (_pending_artifacts ctx) w) as Hsaved.
  destruct (ArtifactStore.save_each (_pending_artifacts ctx) w) as [w' [[]|e]];
    simpl in *.
  - split; [reflexivity|]. split; [reflexivity|].
    intros a Ha _. eapply Hsaved; [reflexivity|exact Ha].
  - exfalso. assert (Raise e = Ok tt) as Habs; [|discriminate Habs].
    apply Hok. intros a Ha. rewrite (Hown a Ha). exact Hjob.
Qed.

(** ** Running a body *)

(** A body leaves the job table alone and cannot change the job of its
    context; the artifacts it records carry that job. *)
Lemma run_script_frame {R : Type} (s : script R) (job : Job)
    (ctx : ExecutionContext) (w : World) :
  job_rows (JobExecutor.run_script codec s job ctx w).1.2 = job_rows w
  ∧ ctx_job_id (JobExecutor.run_script codec s job ctx w).1.1.2 = ctx_job_id ctx
  ∧ ((∀ a, a ∈ _pending_artifacts ctx → artifact_job_id a = ctx_job_id ctx) →
     ∀ a, a ∈ _pending_artifacts (JobExecutor.run_script codec s job ctx w).1.1.2 →
          artifact_job_id a = ctx_job_id ctx).
Proof.
  revert job ctx w.
  induction s as [r|e|c k IH|k IH|k IH|path enc k IH|key v k IH|key k IH];
    intros job ctx w; simpl; try done.
  - pose proof (do_call_frame c ctx w) as (_ & Hj & _ & Hrows).
    destruct (JobExecutor.do_call codec c ctx w) as [[ctx' w'] res] eqn:Hdo.
    simpl in Hj, Hrows. pose proof (do_call_pending _ _ _ _ _ _ Hdo) as Hp.
    destruct (IH res job ctx' w') as (I1 & I2 & I3).
    rewrite I1, I2, Hj, Hrows. split; [reflexivity|]. split; [reflexivity|].
    intros Hown a Ha. rewrite <- Hj. apply I3; [|exact Ha].
    intros b Hb. rewrite Hj. destruct res as [art|e].
    + destruct Hp as [-> Hart]. simpl in Hb.
      apply elem_of_app in Hb as [Hb|Hb]; [apply Hown, Hb|].
      apply list_elem_of_singleton in Hb as ->. exact Hart.
    + subst ctx'. apply Hown, Hb.
  - pose proof (commit_frame ctx w) as (_ & Hrows & Hj & Hp & _).
    destruct (ExecutionContext_.commit ctx w) as [[ctx' w'] res].
    simpl in Hrows, Hj, Hp.
    destruct (IH res job ctx' w') as (I1 & I2 & I3).
    rewrite I1, I2, Hj, Hrows. split; [reflexivity|]. split; [reflexivity|].
    intros Hown a Ha. rewrite <- Hj. apply I3; [|exact Ha].
    rewrite Hp, Hj. exact Hown.
  - unfold ExecutionContext_.rollback.
    destruct (_committed ctx); [apply IH|].
    destruct (IH job (mkExecutionContext (ctx_job_id ctx) (ctx_step_name ctx) [] false)
                (set_fs (ExecutionContext_.rollback_artifacts codec
                           (_pending_artifacts ctx) (fs w)) w))
      as (I1 & I2 & I3).
    rewrite I1, I2. split; [reflexivity|]. split; [reflexivity|].
    intros _ a Ha. apply I3; [|exact Ha]. intros b Hb. inversion Hb.
Qed.



Lemma rollback_artifacts_nil (f : gmap string node) :
  ExecutionContext_.rollback_artifacts codec [] f = f.
Proof. reflexivity. Qed.



End rollback.

(** * Executor: reverting a step *)

(** [revert_step] mutates the object [get_step_result] hands out: the entry
    at [last_index] is that most recent result. *)
Lemma last_index_spec (step : string) (h : list StepResult) :
  ∀ (pre : list StepResult) (found : option nat),
    (∀ k, found = Some k → (k < length pre)%nat) →
    found ≫= (λ k, pre !! k) = last (filter (λ r, step_name r = step) pre) →
    JobExecutor.last_index step h (length pre) found ≫= (λ k, (pre ++ h) !! k)
    = last (filter (λ r, step_name r = step) (pre ++ h)).
Proof.
  induction h as [|x h IH]; intros pre found Hlt Hfound; simpl.
  - rewrite app_nil_r. exact Hfound.
  - replace (pre ++ x :: h) with ((pre ++ [x]) ++ h)
      by (rewrite <- app_assoc; reflexivity).
    replace (S (length pre)) with (length (pre ++ [x]))
      by (rewrite length_app; simpl; lia).
    apply IH.
    + intros k Hk. rewrite length_app. simpl.
      destruct (decide (step_name x = step)); [injection Hk as <-; lia|].
      apply Hlt in Hk. lia.
    + rewrite filter_app, filter_cons, filter_nil.
      destruct (decide (step_name x = step)); simpl.
      * rewrite last_snoc. apply list_lookup_middle. reflexivity.
      * rewrite app_nil_r, <- Hfound. destruct found as [k|]; simpl; [|reflexivity].
        apply lookup_app_l, Hlt. reflexivity.
Qed.

Lemma get_step_result_last_index (step : string) (job : Job) :
  Job_.get_step_result step job
  = JobExecutor.last_index step (history job) 0 None ≫= (λ i, history job !! i).
Proof.
  unfold Job_.get_step_result. rewrite filter_reverse, head_reverse.
  symmetry. apply (last_index_spec step (history job) [] None).
  - intros k Hk. discriminate.
  - reflexivity.
Qed.

Section revert.
Variable codec : Codec.


Lemma set_revert_error_opt_status err res :
  step_status (JobExecutor.set_revert_error_opt err res) = step_status res.
Proof. destruct err; reflexivity. Qed.

End revert.

(** * Scenarios: failing bodies, occupied paths, failing reversals *)


Example move_file_records :
  (ExecutionContext_.move_file "/v/a.md" "/v/b.md"
     (ExecutionContext_.new 1%N "mover")
     (mkWorld {["/v/a.md" := File "moved"]} ∅ ∅ 0 100%N [])).2
  = Ok Fixtures.move_artifact.
Proof. vm_compute. reflexivity. Qed.

Example modify_file_records :
  (ExecutionContext_.modify_file Fixtures.codec0 "/v/n.md" "new" "utf-8"
     (ExecutionContext_.new 1%N "editor")
     (mkWorld {["/v/n.md" := File "old"]} ∅ ∅ 0 100%N [])).2
  = Ok Fixtures.modify_artifact.
Proof. vm_compute. reflexivity. Qed.



(** The body that commits and then raises: the file stays and its artifact
    has a row. *)
Example commit_then_raise_keeps_file :
  fs (JobExecutor._do_execute Fixtures.codec0 Fixtures.job0
        (Fixtures.proc_with "p" Fixtures.body_commit_raise) Fixtures.result0
        (Fixtures.world_of_job0 Fixtures.fs_vault)).1.2 !! "/v/out.md"
  = Some (File "text")
  ∧ is_Some (artifact_rows
               (JobExecutor._do_execute Fixtures.codec0 Fixtures.job0
                  (Fixtures.proc_with "p" Fixtures.body_commit_raise)
                  Fixtures.result0
                  (Fixtures.world_of_job0 Fixtures.fs_vault)).1.2 !! 100%N).
Proof. split; [vm_compute; reflexivity|]. vm_compute. eauto. Qed.

(** Without the row of the job the commit of that body is refused, and the
    body ends as one that never committed: the file is removed again. *)
Example commit_refused_rolls_back :
  fs (JobExecutor._do_execute Fixtures.codec0 Fixtures.job0
        (Fixtures.proc_with "p" Fixtures.body_commit_raise) Fixtures.result0
        (Fixtures.world_with Fixtures.fs_vault)).1.2 = Fixtures.fs_vault
  ∧ artifact_rows
      (JobExecutor._do_execute Fixtures.codec0 Fixtures.job0
         (Fixtures.proc_with "p" Fixtures.body_commit_raise) Fixtures.result0
         (Fixtures.world_with Fixtures.fs_vault)).1.2 = ∅.
Proof. split; vm_compute; reflexivity. Qed.

(** What a rollback does not put back.  A directory made for a new file
    stays when the file is removed again. *)
Example rollback_keeps_made_directory :
  fs (JobExecutor._do_execute Fixtures.codec0 Fixtures.job0
        (Fixtures.proc_with "p" Fixtures.body_create_raise) Fixtures.result0
        (Fixtures.world_of_job0 ∅)).1.2 = Fixtures.fs_vault.
Proof. vm_compute. reflexivity. Qed.

(** A write refused for its encoding has created the file by then; no
    artifact stands for it, so it stays, empty. *)
Example failed_write_leaves_empty_file :
  fs (JobExecutor._do_execute Fixtures.codec0 Fixtures.job0
        (Fixtures.proc_with "p" Fixtures.body_bad_encoding) Fixtures.result0
        (Fixtures.world_of_job0 Fixtures.fs_vault)).1.2
  = {["/v" := Dir; "/v/out.md" := File ""]}.
Proof. vm_compute. reflexivity. Qed.

(** The content recorded for a rewritten file is the text as read: the DOS
    line end comes back as a bare line feed. *)
Example rollback_loses_carriage_return :
  fs (JobExecutor._do_execute Fixtures.codec0 Fixtures.job0
        (Fixtures.proc_with "p" Fixtures.body_modify_raise) Fixtures.result0
        (Fixtures.world_of_job0
           {["/v" := Dir; "/v/n.md" := File Fixtures.dos_text]})).1.2
  = {["/v" := Dir; "/v/n.md" := File ("a" +:+ newline +:+ "b")]}.
Proof. vm_compute. reflexivity. Qed.

(** The content is written back as UTF-8, whatever encoding the file was
    read in. *)
Example rollback_rewrites_as_utf8 :
  fs (JobExecutor._do_execute Fixtures.codec0 Fixtures.job0
        (Fixtures.proc_with "p" Fixtures.body_modify_latin1_raise)
        Fixtures.result0
        (Fixtures.world_of_job0
           {["/v" := Dir; "/v/n.md" := File Fixtures.cafe_latin1]})).1.2
  = {["/v" := Dir; "/v/n.md" := File Fixtures.cafe_utf8]}.
Proof. vm_compute. reflexivity. Qed.

(** The order of the reversals matters: latest first, the file created and
    then rewritten is gone; earliest first, it would be back with its first
    content. *)
Example rollback_latest_first :
  let r := JobExecutor.run_script Fixtures.codec0
             Fixtures.body_create_modify_raise Fixtures.job0
             (ExecutionContext_.new 1%N "p")
             (Fixtures.world_of_job0 Fixtures.fs_vault) in
  ExecutionContext_.rollback_artifacts Fixtures.codec0
    (_pending_artifacts r.1.1.2) (fs r.1.2) = Fixtures.fs_vault
  ∧ foldl (λ f a, (ExecutionContext_._revert_artifact_run Fixtures.codec0 a f).1)
      (fs r.1.2) (_pending_artifacts r.1.1.2)
    = {["/v" := Dir; "/v/out.md" := File "text"]}.
Proof. split; vm_compute; reflexivity. Qed.

(** C5. Reverting a move whose original path has been taken again: the
    reversal raises nothing and the file now at the original path is
    replaced by the one moved back; through [revert_step] the step is
    reported reverted with no [revert_error]. *)
Theorem revert_move_overwrites_occupied :
  ExecutionContext_._revert_artifact Fixtures.codec0 Fixtures.move_artifact Fixtures.fs_occupied
  = Ok {["/v/a.md" := File "moved"]}
  ∧ ∃ job' w' result',
      JobExecutor.revert_step Fixtures.codec0 Fixtures.reg_movers
        (Fixtures.job_done_with "mover" [Fixtures.move_artifact]) "mover"
        (Fixtures.world_with Fixtures.fs_occupied) = (job', w', true)
      ∧ fs w' !! "/v/a.md" = Some (File "moved")
      ∧ history job' !! 0%nat = Some result'
      ∧ step_status result' = STEP_REVERTED
      ∧ revert_error result' = None.
Proof.
  split; [vm_compute; reflexivity|].
  eexists _, _, _. split; [vm_compute; reflexivity|].
  split; [vm_compute; reflexivity|].
  split; [reflexivity|]. split; reflexivity.
Qed.



(** * Dependency resolution: Kahn's algorithm *)

Lemma occ_cons (x y : string) (l : list string) :
  occ x (y :: l) = ((if decide (y = x) then 1 else 0) + occ x l)%nat.
Proof.
  unfold occ. rewrite filter_cons. destruct (decide (y = x)); reflexivity.
Qed.

Lemma occ_app (x : string) (l1 l2 : list string) :
  occ x (l1 ++ l2) = (occ x l1 + occ x l2)%nat.
Proof. unfold occ. rewrite filter_app, length_app. reflexivity. Qed.

Lemma occ_replicate (x y : string) (n : nat) :
  occ x (replicate n y) = if decide (y = x) then n else 0%nat.
Proof.
  induction n as [|n IH]; simpl.
  - destruct (decide (y = x)); reflexivity.
  - rewrite occ_cons, IH. destruct (decide (y = x)); reflexivity.
Qed.

Lemma occ_pos (x : string) (l : list string) : (0 < occ x l)%nat ↔ x ∈ l.
Proof.
  induction l as [|y l IH].
  - split; [intros H; inversion H|intros H; inversion H].
  - rewrite occ_cons, elem_of_cons. destruct (decide (y = x)) as [->|Hne].
    + split; [auto|lia].
    + simpl. rewrite IH. split; [auto|]. intros [Heq|H]; [congruence|exact H].
Qed.

Lemma occ_zero (x : string) (l : list string) : x ∉ l → occ x l = 0%nat.
Proof. intros H. destruct (occ x l) eqn:E; [reflexivity|]. exfalso. apply H, occ_pos. lia. Qed.

Lemma occ_NoDup (x : string) (l : list string) : NoDup l → x ∈ l → occ x l = 1%nat.
Proof.
  induction 1 as [|y l Hy Hl IH]; intros Hin; [inversion Hin|].
  rewrite occ_cons. apply elem_of_cons in Hin as [->|Hin].
  - rewrite decide_True by reflexivity. rewrite occ_zero by exact Hy. reflexivity.
  - rewrite decide_False by (intros ->; contradiction). rewrite IH by exact Hin.
    reflexivity.
Qed.

Lemma occ_flat_map_replicate (x : string) (f : string → nat) (l : list string) :
  occ x (flat_map (λ p, replicate (f p) p) l) = (occ x l * f x)%nat.
Proof.
  induction l as [|y l IH]; simpl; [reflexivity|].
  rewrite occ_app, occ_replicate, occ_cons, IH.
  destruct (decide (y = x)) as [->|Hne]; lia.
Qed.

(** ** The tables built by [get_execution_order] *)

Lemma foldl_insert_const_lookup {V : Type} (v : V) (l : list string)
    (m : gmap string V) (p : string) :
  foldl (λ m p, <[p := v]> m) m l !! p
  = if decide (p ∈ l) then Some v else m !! p.
Proof.
  revert m. induction l as [|x l IH]; intros m; simpl.
  - destruct (decide (p ∈ [])) as [H|_]; [inversion H|reflexivity].
  - rewrite IH. destruct (decide (p ∈ l)) as [Hin|Hnin].
    + rewrite decide_True by (right; exact Hin). reflexivity.
    + destruct (decide (x = p)) as [->|Hne].
      * rewrite decide_True by left. apply lookup_insert_eq.
      * rewrite lookup_insert_ne by exact Hne.
        rewrite decide_False; [reflexivity|].
        intros H. apply elem_of_cons in H as [->|H]; contradiction.
Qed.

Section build_graph.
Variable r : ProcessorRegistry.
Variable names : list string.

Abbreviation deps := (ProcessorRegistry_.get_dependencies r).

Lemma add_edge_fold_deg (proc : string) (ds : list string)
    (st : gmap string Z * gmap string (list string)) (p : string) :
  (foldl (ProcessorRegistry_.add_edge names proc) st ds).1 !! p
  = (λ d, d + (if decide (proc = p)
               then Z.of_nat (length (filter (λ d, d ∈ names) ds)) else 0))
    <$> st.1 !! p.
Proof.
  revert st. induction ds as [|x ds IH]; intros st; simpl.
  - destruct (st.1 !! p); simpl; [f_equal|reflexivity].
    destruct (decide (proc = p)); simpl; lia.
  - rewrite IH. unfold ProcessorRegistry_.add_edge.
    destruct (bool_decide_reflect (x ∈ names)) as [Hin|Hnin]; simpl.
    + rewrite filter_cons_True by exact Hin. rewrite lookup_alter.
      destruct (decide (proc = p)) as [->|Hne].
      * destruct (st.1 !! p); simpl; [f_equal|reflexivity]. lia.
      * reflexivity.
    + rewrite filter_cons_False by exact Hnin. reflexivity.
Qed.

Lemma add_edge_fold_graph (proc : string) (ds : list string)
    (st : gmap string Z * gmap string (list string)) (d : string) :
  (foldl (ProcessorRegistry_.add_edge names proc) st ds).2 !! d
  = (λ l, l ++ replicate (if decide (d ∈ names) then occ d ds else 0%nat) proc)
    <$> st.2 !! d.
Proof.
  revert st. induction ds as [|x ds IH]; intros st; simpl.
  - destruct (st.2 !! d); simpl; [f_equal|reflexivity].
    destruct (decide (d ∈ names)); simpl; rewrite app_nil_r; reflexivity.
  - rewrite IH, occ_cons. unfold ProcessorRegistry_.add_edge.
    destruct (bool_decide_reflect (x ∈ names)) as [Hin|Hnin]; simpl;
      rewrite ?lookup_alter; repeat case_decide; subst; try contradiction;
      destruct (st.2 !! d); simpl; try reflexivity; f_equal;
      rewrite <- ?app_assoc; reflexivity.
Qed.

Lemma build_fold_deg (ps : list string)
    (st : gmap string Z * gmap string (list string)) (p : string) :
  (foldl (λ st proc, foldl (ProcessorRegistry_.add_edge names proc) st (deps proc))
     st ps).1 !! p
  = (λ d, d + Z.of_nat (occ p ps * indeg r names p)) <$> st.1 !! p.
Proof.
  revert st. induction ps as [|x ps IH]; intros st; simpl.
  - destruct (st.1 !! p); simpl; [f_equal; lia|reflexivity].
  - rewrite IH, add_edge_fold_deg, occ_cons. fold (indeg r names x).
    destruct (st.1 !! p); simpl; [f_equal|reflexivity].
    destruct (decide (x = p)) as [->|Hne]; lia.
Qed.

Lemma build_fold_graph (ps : list string)
    (st : gmap string Z * gmap string (list string)) (d : string) :
  d ∈ names →
  (foldl (λ st proc, foldl (ProcessorRegistry_.add_edge names proc) st (deps proc))
     st ps).2 !! d
  = (λ l, l ++ flat_map (λ proc, replicate (occ d (deps proc)) proc) ps)
    <$> st.2 !! d.
Proof.
  intros Hd. revert st. induction ps as [|x ps IH]; intros st; simpl.
  - destruct (st.2 !! d); simpl; [f_equal; rewrite app_nil_r; reflexivity|reflexivity].
  - rewrite IH, add_edge_fold_graph. rewrite decide_True by exact Hd.
    destruct (st.2 !! d); simpl; [f_equal|reflexivity].
    rewrite <- app_assoc. reflexivity.
Qed.

Lemma build_graph_deg (p : string) :
  (ProcessorRegistry_.build_graph r names).1 !! p
  = if decide (p ∈ names) then Some (Z.of_nat (occ p names * indeg r names p)) else None.
Proof.
  unfold ProcessorRegistry_.build_graph. rewrite build_fold_deg. simpl.
  unfold ProcessorRegistry_.in_degree_init. rewrite foldl_insert_const_lookup.
  destruct (decide (p ∈ names)); simpl; [f_equal|reflexivity].
Qed.

Lemma build_graph_graph (d : string) :
  d ∈ names →
  (ProcessorRegistry_.build_graph r names).2 !! d
  = Some (flat_map (λ proc, replicate (occ d (deps proc)) proc) names).
Proof.
  intros Hd. unfold ProcessorRegistry_.build_graph.
  rewrite build_fold_graph by exact Hd. simpl.
  unfold ProcessorRegistry_.graph_init. rewrite foldl_insert_const_lookup.
  rewrite decide_True by exact Hd. reflexivity.
Qed.

Lemma build_graph_graph_elem (d x : string) (l : list string) :
  (ProcessorRegistry_.build_graph r names).2 !! d = Some l → x ∈ l → x ∈ names.
Proof.
  intros Hl Hx.
  assert (Hd : d ∈ names).
  { destruct (decide (d ∈ names)) as [H|H]; [exact H|].
    unfold ProcessorRegistry_.build_graph in Hl.
    assert (Hnone : ∀ ps st, st.2 !! d = None →
              (foldl (λ st proc, foldl (ProcessorRegistry_.add_edge names proc)
                                   st (deps proc)) st ps).2 !! d = None).
    { induction ps as [|y ps IH]; intros st Hst; simpl; [exact Hst|].
      apply IH. rewrite add_edge_fold_graph, Hst. reflexivity. }
    rewrite Hnone in Hl; [discriminate|]. simpl.
    unfold ProcessorRegistry_.graph_init. rewrite foldl_insert_const_lookup.
    rewrite decide_False by exact H. reflexivity. }
  rewrite build_graph_graph in Hl by exact Hd. injection Hl as <-.
  apply occ_pos in Hx. rewrite occ_flat_map_replicate in Hx.
  apply occ_pos. lia.
Qed.
End build_graph.

(** ** The inner loop of Kahn's algorithm *)

(** Releasing the dependents [L] of a node lowers each degree by the number
    of occurrences in [L] and appends, once each, the names whose degree
    reaches zero on the way. *)
Lemma release_fold (L : list string) :
  ∀ (deg : gmap string Z) (q : list string),
    (∀ x, x ∈ L → is_Some (deg !! x)) →
    (∀ p, (foldl ProcessorRegistry_.release (deg, q) L).1 !! p
          = (λ d, d - Z.of_nat (occ p L)) <$> deg !! p)
    ∧ ∃ new, (foldl ProcessorRegistry_.release (deg, q) L).2 = q ++ new
             ∧ NoDup new
             ∧ ∀ x, x ∈ new
                    ↔ ∃ v, deg !! x = Some v ∧ 1 ≤ v ≤ Z.of_nat (occ x L).
Proof.
  induction L as [|y L IH]; intros deg q Hdom.
  - simpl. split.
    + intros p. destruct (deg !! p); simpl; [f_equal; unfold occ; simpl; lia|reflexivity].
    + exists []. split; [rewrite app_nil_r; reflexivity|]. split; [constructor|].
      intros x. split; [intros H; inversion H|].
      intros (v & _ & Hv). unfold occ in Hv. simpl in Hv. lia.
  - destruct (Hdom y) as [v Hv]; [left|].
    assert (Hdom1 : ∀ x, x ∈ L → is_Some (alter (λ d, d - 1) y deg !! x)).
    { intros x Hx. rewrite lookup_alter. destruct (decide (y = x)) as [->|_].
      - rewrite Hv. eauto.
      - apply Hdom. right. exact Hx. }
    assert (Hy1 : alter (λ d, d - 1) y deg !!! y = v - 1).
    { rewrite lookup_total_alter_eq, Hv. reflexivity. }
    assert (Hstep : ProcessorRegistry_.release (deg, q) y
                    = (alter (λ d, d - 1) y deg,
                       if bool_decide (v - 1 = 0) then q ++ [y] else q)).
    { unfold ProcessorRegistry_.release. simpl. rewrite Hy1.
      destruct (bool_decide (v - 1 = 0)); reflexivity. }
    change (foldl ProcessorRegistry_.release (deg, q) (y :: L))
      with (foldl ProcessorRegistry_.release
              (ProcessorRegistry_.release (deg, q) y) L).
    rewrite Hstep. clear Hstep.
    destruct (bool_decide_reflect (v - 1 = 0)) as [Hz|Hnz].
    + destruct (IH (alter (λ d, d - 1) y deg) (q ++ [y]) Hdom1)
        as (Hdeg & new & Hq & Hnd & Hnew).
      split.
      * intros p. rewrite Hdeg, lookup_alter, occ_cons.
        destruct (decide (y = p)) as [->|Hne].
        -- rewrite Hv. simpl. f_equal. lia.
        -- destruct (deg !! p); simpl; [f_equal; lia|reflexivity].
      * exists (y :: new). split; [rewrite Hq, <- app_assoc; reflexivity|].
        split.
        -- constructor; [|exact Hnd]. rewrite Hnew. intros (v' & Hv' & Hle).
           rewrite lookup_alter_eq, Hv in Hv'. simpl in Hv'. injection Hv' as <-. lia.
        -- intros x. rewrite elem_of_cons, Hnew, occ_cons, lookup_alter.
           destruct (decide (y = x)) as [->|Hne].
           ++ split; [|auto]. intros _. exists v. split; [exact Hv|]. lia.
           ++ split.
              ** intros [Heq|H]; [congruence|]. simpl. exact H.
              ** intros H. right. exact H.
    + destruct (IH (alter (λ d, d - 1) y deg) q Hdom1)
        as (Hdeg & new & Hq & Hnd & Hnew).
      split.
      * intros p. rewrite Hdeg, lookup_alter, occ_cons.
        destruct (decide (y = p)) as [->|Hne].
        -- rewrite Hv. simpl. f_equal. lia.
        -- destruct (deg !! p); simpl; [f_equal; lia|reflexivity].
      * exists new. split; [exact Hq|]. split; [exact Hnd|].
        intros x. rewrite Hnew, occ_cons, lookup_alter.
        destruct (decide (y = x)) as [->|Hne].
        -- rewrite Hv. simpl. split.
           ++ intros (v' & Hv' & Hle). injection Hv' as <-. exists v. split; [reflexivity|lia].
           ++ intros (v' & Hv' & Hle). injection Hv' as <-. exists (v - 1).
              split; [reflexivity|lia].
        -- simpl. reflexivity.
Qed.

(** The queue only grows at its end. *)
Lemma release_fold_queue (L : list string) (deg : gmap string Z) (q : list string) :
  ∃ new, (foldl ProcessorRegistry_.release (deg, q) L).2 = q ++ new.
Proof.
  revert deg q. induction L as [|y L IH]; intros deg q; simpl.
  - exists []. rewrite app_nil_r. reflexivity.
  - unfold ProcessorRegistry_.release at 2. simpl.
    destruct (bool_decide _).
    + destruct (IH (alter (λ d, d - 1) y deg) (q ++ [y])) as [new Hq].
      exists (y :: new). rewrite Hq, <- app_assoc. reflexivity.
    + apply IH.
Qed.

Lemma kahn_loop_prefix (graph : gmap string (list string)) (fuel : nat) :
  ∀ (deg : gmap string Z) (queue result final : list string),
    ProcessorRegistry_.kahn_loop fuel graph deg queue result = Some final →
    (result ++ queue) `prefix_of` final.
Proof.
  induction fuel as [|fuel IH]; intros deg queue result final Hloop.
  - destruct queue; [|discriminate]. injection Hloop as <-.
    rewrite app_nil_r. reflexivity.
  - destruct queue as [|node queue].
    + injection Hloop as <-. rewrite app_nil_r. reflexivity.
    + simpl in Hloop.
      destruct (release_fold_queue (graph !!! node) deg queue) as [new Hq].
      destruct (foldl ProcessorRegistry_.release (deg, queue) (graph !!! node))
        as [deg' queue'].
      simpl in Hq. subst queue'. apply IH in Hloop.
      replace ((result ++ [node]) ++ queue ++ new)
        with ((result ++ node :: queue) ++ new) in Hloop
        by (rewrite <- !app_assoc; reflexivity).
      apply prefix_app_l in Hloop. exact Hloop.
Qed.

(** ** Correctness of the ordering on duplicate-free lists *)

Section kahn_correct.
Variable r : ProcessorRegistry.
Variable names : list string.
Hypothesis names_nodup : NoDup names.

Abbreviation deps := (ProcessorRegistry_.get_dependencies r).
Abbreviation graph := (ProcessorRegistry_.build_graph r names).2.

Lemma need_snoc (result : list string) (node p : string) :
  node ∈ names → node ∉ result →
  (need r names (result ++ [node]) p + occ node (deps p))%nat
  = need r names result p.
Proof.
  intros Hin Hnin. unfold need, occ.
  induction (deps p) as [|d ds IH]; [reflexivity|].
  rewrite !filter_cons.
  destruct (decide (d = node)) as [->|Hne].
  - rewrite decide_False by (intros [_ H]; apply H, elem_of_app; right; left).
    rewrite decide_True by (split; assumption). simpl. lia.
  - destruct (decide (d ∈ names ∧ d ∉ result)) as [[H1 H2]|Hn].
    + rewrite decide_True; [simpl; lia|]. split; [exact H1|].
      intros H. apply elem_of_app in H as [H|H]; [contradiction|].
      apply list_elem_of_singleton in H. contradiction.
    + rewrite decide_False; [exact IH|]. intros [H1 H2]. apply Hn.
      split; [exact H1|]. intros H. apply H2, elem_of_app. left. exact H.
Qed.

Lemma need_nil (p : string) : need r names [] p = indeg r names p.
Proof.
  unfold need, indeg. f_equal. apply list_filter_iff. intros d. split.
  - intros [H _]. exact H.
  - intros H. split; [exact H|apply not_elem_of_nil].
Qed.

Lemma need_zero (result : list string) (p d : string) :
  need r names result p = 0%nat → d ∈ deps p → d ∈ names → d ∈ result.
Proof.
  unfold need. intros Hz Hd Hn.
  destruct (decide (d ∈ result)) as [H|H]; [exact H|].
  assert (Hin : d ∈ filter (λ d, d ∈ names ∧ d ∉ result) (deps p)).
  { apply list_elem_of_filter. auto. }
  destruct (filter _ (deps p)); [inversion Hin|discriminate].
Qed.

Lemma need_pos (result : list string) (p : string) :
  need r names result p ≠ 0%nat →
  ∃ d, d ∈ deps p ∧ d ∈ names ∧ d ∉ result.
Proof.
  unfold need. intros Hz.
  destruct (filter (λ d, d ∈ names ∧ d ∉ result) (deps p)) as [|d l] eqn:E;
    [contradiction|].
  assert (Hin : d ∈ filter (λ d, d ∈ names ∧ d ∉ result) (deps p))
    by (rewrite E; left).
  apply list_elem_of_filter in Hin as [[H1 H2] H3]. eauto.
Qed.

Lemma graph_occ (node p : string) (L : list string) :
  node ∈ names → graph !! node = Some L →
  occ p L = if decide (p ∈ names) then occ node (deps p) else 0%nat.
Proof.
  intros Hnode HL. rewrite build_graph_graph in HL by exact Hnode.
  injection HL as <-. rewrite occ_flat_map_replicate.
  destruct (decide (p ∈ names)) as [Hp|Hp].
  - rewrite occ_NoDup by assumption. lia.
  - rewrite occ_zero by exact Hp. reflexivity.
Qed.

Lemma kahn_inv_init :
  kahn_inv r names (ProcessorRegistry_.build_graph r names).1
    (filter (λ p, (ProcessorRegistry_.build_graph r names).1 !!! p = 0) names) [].
Proof.
  assert (Hdeg : ∀ p, p ∈ names →
            (ProcessorRegistry_.build_graph r names).1 !! p
            = Some (Z.of_nat (need r names [] p))).
  { intros p Hp. rewrite build_graph_deg, decide_True by exact Hp.
    rewrite occ_NoDup by assumption. rewrite need_nil. do 2 f_equal. lia. }
  split; simpl.
  - apply NoDup_filter, names_nodup.
  - intros x Hx. apply list_elem_of_filter in Hx as [_ Hx]. exact Hx.
  - exact Hdeg.
  - intros p Hp. rewrite list_elem_of_filter.
    rewrite (lookup_total_correct _ _ _ (Hdeg p Hp)). split.
    + intros [H _]. lia.
    + intros H. split; [lia|exact Hp].
  - intros j p d Hj. rewrite lookup_nil in Hj. discriminate.
Qed.

Lemma kahn_inv_step (deg : gmap string Z) (node : string)
    (queue result : list string) :
  kahn_inv r names deg (node :: queue) result →
  kahn_inv r names
    (foldl ProcessorRegistry_.release (deg, queue) (graph !!! node)).1
    (foldl ProcessorRegistry_.release (deg, queue) (graph !!! node)).2
    (result ++ [node]).
Proof.
  intros [Hnd Hincl Hdeg Hmem Hord].
  assert (Hnode : node ∈ names).
  { apply Hincl, elem_of_app. right. left. }
  assert (Hfresh : node ∉ result).
  { apply NoDup_app in Hnd as (_ & Hdisj & _). intros H.
    apply (Hdisj node H). left. }
  pose proof (build_graph_graph r names node Hnode) as HL.
  set (L := flat_map _ names) in HL.
  rewrite (lookup_total_correct _ _ _ HL).
  assert (HLnames : ∀ x, x ∈ L → x ∈ names).
  { intros x. apply (build_graph_graph_elem r names node x L HL). }
  assert (Hocc : ∀ p, p ∈ names → occ p L = occ node (deps p)).
  { intros p Hp. rewrite (graph_occ node p L Hnode HL).
    rewrite decide_True by exact Hp. reflexivity. }
  destruct (release_fold L deg queue) as (Hdeg' & new & Hq & Hnew_nd & Hnew).
  { intros x Hx. rewrite (Hdeg x (HLnames x Hx)). eauto. }
  rewrite Hq.
  assert (Hnew_out : ∀ x, x ∈ new → x ∈ names ∧ x ∉ result ++ node :: queue).
  { intros x Hx. apply Hnew in Hx as (v & Hv & Hle).
    assert (Hxn : x ∈ names) by (apply HLnames, occ_pos; lia).
    split; [exact Hxn|]. rewrite (Hdeg x Hxn) in Hv. injection Hv as <-.
    rewrite (Hmem x Hxn). lia. }
  assert (Heq : (result ++ [node]) ++ queue ++ new
                = (result ++ node :: queue) ++ new)
    by (rewrite <- !app_assoc; reflexivity).
  split.
  - rewrite Heq. apply NoDup_app. split; [exact Hnd|]. split; [|exact Hnew_nd].
    intros x Hx Hx'. apply Hnew_out in Hx' as [_ Hx']. contradiction.
  - intros x. rewrite Heq, elem_of_app. intros [Hx|Hx].
    + apply Hincl, Hx.
    + apply Hnew_out, Hx.
  - intros p Hp. rewrite Hdeg', (Hdeg p Hp), (Hocc p Hp). simpl. f_equal.
    pose proof (need_snoc result node p Hnode Hfresh). lia.
  - intros p Hp. pose proof (need_snoc result node p Hnode Hfresh) as Hsn.
    rewrite Heq, elem_of_app, (Hmem p Hp), Hnew, (Hdeg p Hp), (Hocc p Hp).
    split.
    + intros [H|(v & Hv & Hle)]; [lia|]. injection Hv as <-. lia.
    + intros H. destruct (decide (need r names result p = 0%nat)) as [Hz|Hz];
        [left; exact Hz|].
      right. eexists. split; [reflexivity|]. lia.
  - intros j p d Hj Hd Hdn. apply lookup_snoc_Some in Hj as [[Hlt Hj]|[-> <-]].
    + destruct (Hord j p d Hj Hd Hdn) as (i & Hi & Hid).
      exists i. split; [exact Hi|]. apply lookup_app_l_Some, Hid.
    + assert (Hz : need r names result node = 0%nat).
      { apply (Hmem node Hnode), elem_of_app. right. left. }
      pose proof (need_zero result node d Hz Hd Hdn) as Hin.
      apply list_elem_of_lookup in Hin as [i Hi].
      exists i. split; [apply lookup_lt_Some in Hi; exact Hi|].
      apply lookup_app_l_Some, Hi.
Qed.

Lemma kahn_loop_inv (fuel : nat) :
  ∀ (deg : gmap string Z) (queue result : list string),
    kahn_inv r names deg queue result →
    (length names ≤ fuel + length result)%nat →
    ∃ final deg',
      ProcessorRegistry_.kahn_loop fuel graph deg queue result = Some final
      ∧ kahn_inv r names deg' [] final.
Proof.
  induction fuel as [|fuel IH]; intros deg queue result Hinv Hfuel.
  - destruct queue as [|node queue]; [exists result, deg; auto|].
    exfalso. destruct Hinv as [Hnd Hincl _ _ _].
    pose proof (submseteq_length _ _ (NoDup_submseteq _ _ Hnd Hincl)) as Hlen.
    rewrite length_app in Hlen. simpl in Hlen. lia.
  - destruct queue as [|node queue]; [exists result, deg; auto|].
    simpl. pose proof (kahn_inv_step deg node queue result Hinv) as Hstep.
    destruct (foldl ProcessorRegistry_.release (deg, queue) (graph !!! node))
      as [deg' queue'].
    apply IH; [exact Hstep|]. rewrite length_app. simpl. lia.
Qed.
End kahn_correct.

(** ** Acyclic requirements leave no processor behind *)

Lemma depends_in_tc_names (r : ProcessorRegistry) (names : list string)
    (x y : string) :
  tc (depends_in r names) x y → y ∈ names.
Proof. induction 1 as [x y (_ & Hy & _)|x z y _ _ IH]; assumption. Qed.

Lemma acyclic_sn (r : ProcessorRegistry) (names : list string) :
  acyclic r names → ∀ x, sn (depends_in r names) x.
Proof.
  intros Hacy x. apply tc_finite_sn.
  - intros p. apply Hacy.
  - exists names. intros y. apply depends_in_tc_names.
Qed.

Lemma acyclic_all_done (r : ProcessorRegistry) (names final : list string) :
  acyclic r names →
  (∀ p, p ∈ names → p ∉ final →
        ∃ d, d ∈ ProcessorRegistry_.get_dependencies r p ∧ d ∈ names ∧ d ∉ final) →
  ∀ p, p ∈ names → p ∈ final.
Proof.
  intros Hacy Hstuck p Hp.
  destruct (decide (p ∈ final)) as [H|H]; [exact H|]. exfalso.
  induction (acyclic_sn r names Hacy p) as [p _ IH].
  destruct (Hstuck p Hp H) as (d & Hd & Hdn & Hdf).
  apply (IH d); [|exact Hdn|exact Hdf]. split; [exact Hp|]. split; assumption.
Qed.

(** C1 (amended). For every registry and every duplicate-free list [names]
    whose [requires] relation restricted to [names] is acyclic,
    [get_execution_order(names)] returns a permutation of [names] in which
    every processor appears after every element of its [requires] list that
    is also in [names]. *)
Theorem get_execution_order_topological (r : ProcessorRegistry)
    (names : list string) :
  NoDup names → acyclic r names →
  ∃ result,
    ProcessorRegistry_.get_execution_order r names = Ok result
    ∧ result ≡ₚ names
    ∧ ∀ p processor d,
        p ∈ names → ProcessorRegistry_.get p r = Some processor →
        d ∈ requires processor → d ∈ names →
        appears_before result d p.
Proof.
  intros Hnd Hacy.
  destruct (kahn_loop_inv r names Hnd (length names) _ _ []
              (kahn_inv_init r names Hnd)) as (final & deg' & Hloop & Hinv);
    [simpl; lia|].
  destruct Hinv as [Hfnd Hfincl Hfdeg Hfmem Hford].
  rewrite app_nil_r in Hfnd, Hfincl. setoid_rewrite app_nil_r in Hfmem.
  assert (Hall : ∀ p, p ∈ names → p ∈ final).
  { apply (acyclic_all_done r names final Hacy). intros p Hp Hpf.
    apply (need_pos r names). rewrite <- (Hfmem p Hp). exact Hpf. }
  assert (Hperm : final ≡ₚ names).
  { apply NoDup_Permutation; [exact Hfnd|exact Hnd|]. intros x. split; auto. }
  exists final. split; [|split; [exact Hperm|]].
  - unfold ProcessorRegistry_.get_execution_order.
    destruct (ProcessorRegistry_.build_graph r names) as [deg0 g0].
    simpl in Hloop. rewrite Hloop.
    rewrite bool_decide_eq_true_2 by (apply Permutation_length, Hperm).
    reflexivity.
  - intros p processor d Hp Hget Hd Hdn.
    pose proof (Hall p Hp) as Hpf. apply list_elem_of_lookup in Hpf as [j Hj].
    destruct (Hford j p d Hj) as (i & Hi & Hid); [|exact Hdn|].
    + unfold ProcessorRegistry_.get_dependencies. rewrite Hget. exact Hd.
    + exists i, j. auto.
Qed.

(** ** Which processors come first *)

Lemma filter_ext_in {A : Type} (P Q : A → Prop) `{!∀ x, Decision (P x)}
    `{!∀ x, Decision (Q x)} (l : list A) :
  (∀ x, x ∈ l → (P x ↔ Q x)) → filter P l = filter Q l.
Proof.
  induction l as [|a l IH]; intros Hext; [reflexivity|].
  rewrite !filter_cons.
  assert (Ha : P a ↔ Q a) by (apply Hext; left).
  rewrite IH by (intros x Hx; apply Hext; right; exact Hx).
  destruct (decide (P a)), (decide (Q a)); tauto || reflexivity.
Qed.

Lemma indeg_zero_iff (r : ProcessorRegistry) (names : list string) (p : string) :
  indeg r names p = 0%nat
  ↔ Forall (λ d, d ∉ names) (ProcessorRegistry_.get_dependencies r p).
Proof.
  unfold indeg. induction (ProcessorRegistry_.get_dependencies r p) as [|d ds IH].
  - split; [constructor|reflexivity].
  - rewrite filter_cons, Forall_cons. destruct (decide (d ∈ names)); simpl.
    + split; [discriminate|]. intros [H _]. contradiction.
    + rewrite IH. tauto.
Qed.

Lemma foldl_ext_in {A B : Type} (f g : A → B → A) (l : list B) (a : A) :
  (∀ x st, x ∈ l → f st x = g st x) → foldl f a l = foldl g a l.
Proof.
  revert a. induction l as [|x l IH]; intros a Hext; simpl; [reflexivity|].
  rewrite (Hext x a) by left. apply IH. intros y st Hy. apply Hext. right. exact Hy.
Qed.

(** The tables are built from the [requires] of the listed names only. *)
Lemma build_graph_ext (r r' : ProcessorRegistry) (names : list string) :
  (∀ p, p ∈ names →
        ProcessorRegistry_.get_dependencies r' p
        = ProcessorRegistry_.get_dependencies r p) →
  ProcessorRegistry_.build_graph r' names = ProcessorRegistry_.build_graph r names.
Proof.
  intros Hdeps. unfold ProcessorRegistry_.build_graph.
  apply foldl_ext_in. intros p st Hp. rewrite (Hdeps p Hp). reflexivity.
Qed.

(** C8 (amended). The processors of the list that have none of their
    [requires] in the list come first in the returned ordering, in the order
    of the input list.  The ordering is a function of the input list and of
    the [requires] of the listed processors alone: a registry that holds
    them in another order, or beside others, gives the same ordering, so
    registration order is not consulted. *)
Theorem get_execution_order_free_first (r : ProcessorRegistry)
    (names result : list string) :
  ProcessorRegistry_.get_execution_order r names = Ok result →
  filter (λ p, Forall (λ d, d ∉ names) (ProcessorRegistry_.get_dependencies r p))
    names `prefix_of` result
  ∧ ∀ r', (∀ p, p ∈ names →
                ProcessorRegistry_.get_dependencies r' p
                = ProcessorRegistry_.get_dependencies r p) →
          ProcessorRegistry_.get_execution_order r' names = Ok result.
Proof.
  intros Hres. split.
  - revert Hres. unfold ProcessorRegistry_.get_execution_order.
    pose proof (build_graph_deg r names) as Hdeg.
    destruct (ProcessorRegistry_.build_graph r names) as [deg0 g0]. simpl in Hdeg.
    destruct (ProcessorRegistry_.kahn_loop _ _ _ _ _) as [final|] eqn:Hloop;
      [|discriminate].
    destruct (negb _); [discriminate|]. intros [= <-].
    apply kahn_loop_prefix in Hloop. simpl in Hloop.
    erewrite filter_ext_in; [exact Hloop|].
    intros p Hp. rewrite <- indeg_zero_iff.
    specialize (Hdeg p). rewrite decide_True in Hdeg by exact Hp.
    rewrite (lookup_total_correct _ _ _ Hdeg).
    apply occ_pos in Hp. split; [intros ->; lia|nia].
  - intros r' Hdeps. rewrite <- Hres.
    unfold ProcessorRegistry_.get_execution_order.
    rewrite (build_graph_ext r r' names Hdeps). reflexivity.
Qed.

(** ** The loop bound is never reached *)

Lemma filter_length_update (P Q : string → Prop) `{!∀ x, Decision (P x)}
    `{!∀ x, Decision (Q x)} (ks : list string) (y : string) :
  NoDup ks → y ∈ ks → (∀ k, k ≠ y → (P k ↔ Q k)) →
  (length (filter P ks) + (if decide (Q y) then 1 else 0)
   = length (filter Q ks) + (if decide (P y) then 1 else 0))%nat.
Proof.
  intros Hnd Hy Hext. induction Hnd as [|k ks Hk Hnd IH]; [inversion Hy|].
  rewrite !filter_cons. apply elem_of_cons in Hy as [<-|Hy].
  - rewrite (filter_ext_in P Q ks).
    + destruct (decide (P y)), (decide (Q y)); simpl; lia.
    + intros x Hx. apply Hext. intros ->. contradiction.
  - assert (Hne : k ≠ y) by (intros ->; contradiction).
    specialize (IH Hy). pose proof (Hext k Hne) as Hiff.
    destruct (decide (P k)), (decide (Q k)); simpl; tauto || lia.
Qed.

Lemma filter_disjoint_length (P Q : string → Prop) `{!∀ x, Decision (P x)}
    `{!∀ x, Decision (Q x)} (l : list string) :
  (∀ x, P x → Q x → False) →
  (length (filter P l) + length (filter Q l) ≤ length l)%nat.
Proof.
  intros Hdisj. induction l as [|a l IH]; [reflexivity|].
  rewrite !filter_cons. pose proof (Hdisj a).
  destruct (decide (P a)), (decide (Q a)); simpl; tauto || lia.
Qed.

Section kahn_total.
Variable graph : gmap string (list string).
Variable ks : list string.
Hypothesis ks_nodup : NoDup ks.

Lemma waiting_release (deg : gmap string Z) (q : list string) (y : string) :
  y ∈ ks → is_Some (deg !! y) →
  (length (ProcessorRegistry_.release (deg, q) y).2
   + waiting ks (ProcessorRegistry_.release (deg, q) y).1
   = length q + waiting ks deg)%nat
  ∧ ∀ x, is_Some ((ProcessorRegistry_.release (deg, q) y).1 !! x)
         ↔ is_Some (deg !! x).
Proof.
  intros Hy [v Hv].
  assert (Hy1 : alter (λ d, d - 1) y deg !!! y = v - 1).
  { rewrite lookup_total_alter_eq, Hv. reflexivity. }
  assert (Hdom : ∀ x, is_Some (alter (λ d, d - 1) y deg !! x) ↔ is_Some (deg !! x)).
  { intros x. rewrite lookup_alter. destruct (decide (y = x)) as [->|_]; [|tauto].
    rewrite Hv. simpl. split; eauto. }
  pose proof (filter_length_update (λ k, 0 < deg !!! k)
                (λ k, 0 < alter (λ d, d - 1) y deg !!! k) ks y ks_nodup Hy) as Hupd.
  cbv beta in Hupd. rewrite Hy1, (lookup_total_correct _ _ _ Hv) in Hupd.
  unfold ProcessorRegistry_.release. simpl fst. simpl snd. cbv zeta.
  rewrite Hy1. unfold waiting.
  destruct (bool_decide_reflect (v - 1 = 0)) as [Hz|Hnz]; simpl fst; simpl snd;
    (split; [|exact Hdom]).
  - rewrite length_app. simpl.
    destruct (decide (0 < v - 1)); [lia|]. destruct (decide (0 < v)); [|lia].
    specialize (Hupd ltac:(intros k Hk; rewrite lookup_total_alter_ne by congruence;
                           tauto)). lia.
  - specialize (Hupd ltac:(intros k Hk; rewrite lookup_total_alter_ne by congruence;
                           tauto)).
    destruct (decide (0 < v - 1)), (decide (0 < v)); lia.
Qed.

Lemma waiting_release_fold (L : list string) :
  ∀ (deg : gmap string Z) (q : list string),
    (∀ x, x ∈ L → x ∈ ks ∧ is_Some (deg !! x)) →
    (length (foldl ProcessorRegistry_.release (deg, q) L).2
     + waiting ks (foldl ProcessorRegistry_.release (deg, q) L).1
     = length q + waiting ks deg)%nat
    ∧ ∀ x, is_Some ((foldl ProcessorRegistry_.release (deg, q) L).1 !! x)
           ↔ is_Some (deg !! x).
Proof.
  induction L as [|y L IH]; intros deg q HL; simpl; [tauto|].
  destruct (HL y) as [Hy Hsome]; [left|].
  destruct (waiting_release deg q y Hy Hsome) as [Hlen Hdom].
  destruct (ProcessorRegistry_.release (deg, q) y) as [deg1 q1].
  simpl in Hlen, Hdom.
  destruct (IH deg1 q1) as [Hlen' Hdom'].
  { intros x Hx. destruct (HL x) as [Hxk Hxs]; [right; exact Hx|].
    split; [exact Hxk|]. apply Hdom, Hxs. }
  split; [lia|]. intros x. rewrite Hdom'. apply Hdom.
Qed.

Lemma kahn_loop_some (fuel : nat) :
  ∀ (deg : gmap string Z) (queue result : list string),
    graph_closed graph ks deg →
    (length queue + waiting ks deg ≤ fuel)%nat →
    is_Some (ProcessorRegistry_.kahn_loop fuel graph deg queue result).
Proof.
  induction fuel as [|fuel IH]; intros deg queue result Hclosed Hfuel.
  - destruct queue; [simpl; eauto|simpl in Hfuel; lia].
  - destruct queue as [|node queue]; [simpl; eauto|]. simpl.
    destruct (waiting_release_fold (graph !!! node) deg queue) as [Hlen Hdom].
    { intros x Hx. rewrite lookup_total_alt in Hx.
      destruct (graph !! node) as [L|] eqn:HL; simpl in Hx; [|inversion Hx].
      apply (Hclosed node L x HL Hx). }
    destruct (foldl ProcessorRegistry_.release (deg, queue) (graph !!! node))
      as [deg' queue'].
    simpl in Hlen, Hdom. apply IH.
    + intros n L x HL Hx. destruct (Hclosed n L x HL Hx) as [Hk Hs].
      split; [exact Hk|]. apply Hdom, Hs.
    + simpl in Hfuel. lia.
Qed.
End kahn_total.

(** With one turn per entry of [processors] the loop always runs to the end
    of the queue. *)
Lemma kahn_loop_total (r : ProcessorRegistry) (names : list string) :
  is_Some
    (ProcessorRegistry_.kahn_loop (length names)
       (ProcessorRegistry_.build_graph r names).2
       (ProcessorRegistry_.build_graph r names).1
       (filter (λ p, (ProcessorRegistry_.build_graph r names).1 !!! p = 0) names)
       []).
Proof.
  apply (kahn_loop_some _ (remove_dups names) (NoDup_remove_dups names)).
  - intros node L x HL Hx.
    pose proof (build_graph_graph_elem r names node x L HL Hx) as Hn.
    split; [apply elem_of_remove_dups, Hn|].
    rewrite build_graph_deg, decide_True by exact Hn. eauto.
  - unfold waiting.
    set (deg0 := (ProcessorRegistry_.build_graph r names).1).
    assert (Hle : (length (filter (λ k, (0 < deg0 !!! k)%Z) (remove_dups names))
                   ≤ length (filter (λ k, (0 < deg0 !!! k)%Z) names))%nat).
    { apply submseteq_length, NoDup_submseteq.
      - apply NoDup_filter, NoDup_remove_dups.
      - intros x. rewrite !list_elem_of_filter, elem_of_remove_dups. tauto. }
    assert (Hdisj : ∀ x : string, deg0 !!! x = 0 → 0 < deg0 !!! x → False).
    { intros x H1 H2. rewrite H1 in H2. lia. }
    pose proof (filter_disjoint_length (λ p, deg0 !!! p = 0) (λ k, 0 < deg0 !!! k)
                  names Hdisj).
    lia.
Qed.

(** Hence [get_execution_order] either returns an ordering or reports a
    circular dependency. *)
Lemma get_execution_order_total (r : ProcessorRegistry) (names : list string) :
  (∃ result, ProcessorRegistry_.get_execution_order r names = Ok result)
  ∨ ∃ msg, ProcessorRegistry_.get_execution_order r names = Raise (ValueError msg).
Proof.
  unfold ProcessorRegistry_.get_execution_order.
  pose proof (kahn_loop_total r names) as [final Hfinal].
  destruct (ProcessorRegistry_.build_graph r names) as [deg0 g0].
  simpl in Hfinal. rewrite Hfinal.
  destruct (negb _); eauto.
Qed.

(** ** Worked orderings *)

Lemma reg_abc_edges (names : list string) (x y : string) :
  (∀ n, n ∈ names → n = "a" ∨ n = "b" ∨ n = "c") →
  depends_in Fixtures.reg_abc names x y → x = "b" ∧ y = "a".
Proof.
  intros Hnames (Hx & _ & Hd).
  destruct (Hnames x Hx) as [-> | [-> | ->]]; vm_compute in Hd.
  - inversion Hd.
  - apply list_elem_of_singleton in Hd. auto.
  - inversion Hd.
Qed.

Lemma names_abc (names : list string) :
  Forall (λ n, n = "a" ∨ n = "b" ∨ n = "c") names →
  ∀ n, n ∈ names → n = "a" ∨ n = "b" ∨ n = "c".
Proof. intros H n Hn. rewrite Forall_forall in H. apply H, Hn. Qed.

Lemma reg_abc_acyclic (names : list string) :
  (∀ n, n ∈ names → n = "a" ∨ n = "b" ∨ n = "c") →
  acyclic Fixtures.reg_abc names.
Proof.
  intros Hnames p Htc.
  assert (Hfirst : ∀ x y, tc (depends_in Fixtures.reg_abc names) x y → x = "b").
  { intros x y H. destruct H as [x y H|x z y H _];
      apply (reg_abc_edges names _ _ Hnames) in H as [-> _]; reflexivity. }
  inversion Htc as [x y H|x z y H Hrest]; subst.
  - apply (reg_abc_edges names _ _ Hnames) in H as [-> H]. discriminate.
  - apply (reg_abc_edges names _ _ Hnames) in H as [-> ->].
    apply Hfirst in Hrest. discriminate.
Qed.

Lemma get_execution_order_topological_witness :
  ∃ result,
    ProcessorRegistry_.get_execution_order Fixtures.reg_abc ["b"; "c"; "a"]
    = Ok result
    ∧ result ≡ₚ ["b"; "c"; "a"]
    ∧ appears_before result "a" "b".
Proof.
  destruct (get_execution_order_topological Fixtures.reg_abc ["b"; "c"; "a"])
    as (result & Heq & Hperm & Hord).
  - compute_done.
  - apply reg_abc_acyclic, names_abc. compute_done.
  - exists result. split; [exact Heq|]. split; [exact Hperm|].
    apply (Hord "b" (Fixtures.proc "b" ["a"]) "a");
      [compute_done|reflexivity|left|compute_done].
Defined.

(** C1, as stated, fails on a list with a repeated name: the requirements
    are acyclic, yet the call raises instead of returning an ordering. *)
Lemma get_execution_order_duplicates_counterexample :
  ¬ (∀ (r : ProcessorRegistry) (names : list string),
       acyclic r names →
       ∃ result,
         ProcessorRegistry_.get_execution_order r names = Ok result
         ∧ result ≡ₚ names
         ∧ ∀ p processor d,
             p ∈ names → ProcessorRegistry_.get p r = Some processor →
             d ∈ requires processor → d ∈ names →
             appears_before result d p).
Proof.
  intros H.
  destruct (H Fixtures.reg_abc ["a"; "b"; "b"]) as (result & Heq & _).
  - apply reg_abc_acyclic, names_abc. compute_done.
  - vm_compute in Heq. discriminate Heq.
Qed.

(** With a repeated name an ordering can also come back wrong: [z] is
    placed before [x], which it requires. *)
Example get_execution_order_duplicates_misordered :
  ProcessorRegistry_.get_execution_order Fixtures.reg_chain
    ["a"; "a"; "y"; "x"; "z"] = Ok ["a"; "a"; "y"; "z"; "x"].
Proof. vm_compute. reflexivity. Qed.

(** C8, as stated, fails: [a] was registered before [c] and neither
    requires the other, yet on the input [c; a] the result keeps [c] first. *)
Lemma registration_order_counterexample :
  ¬ (∀ (r : ProcessorRegistry) (names result : list string) (p q : string),
       ProcessorRegistry_.get_execution_order r names = Ok result →
       p ∈ names → q ∈ names →
       ¬ tc (depends_in r names) p q → ¬ tc (depends_in r names) q p →
       registered_before r p q →
       appears_before result p q).
Proof.
  intros H.
  assert (Hnames : ∀ n : string, n ∈ ["c"; "a"] → n = "a" ∨ n = "b" ∨ n = "c")
    by (apply names_abc; compute_done).
  assert (Hno : ∀ x y, x ≠ "b" → ¬ tc (depends_in Fixtures.reg_abc ["c"; "a"]) x y).
  { intros x y Hx Htc. apply Hx.
    destruct Htc as [x y Hd|x z y Hd _];
      apply (reg_abc_edges _ _ _ Hnames) in Hd as [-> _]; reflexivity. }
  destruct (H Fixtures.reg_abc ["c"; "a"] ["c"; "a"] "a" "c")
    as (i & j & Hi & Hj & Hlt).
  - vm_compute. reflexivity.
  - compute_done.
  - compute_done.
  - apply Hno. discriminate.
  - apply Hno. discriminate.
  - exists 0%nat, 2%nat. repeat split. lia.
  - destruct i as [|[|i]], j as [|[|j]]; simpl in Hi, Hj; try discriminate; lia.
Qed.

(** Ties do not follow the input order either: [b] stands before [c] in
    the input and neither requires the other, but [b] waits for [a]. *)
Example get_execution_order_breadth_first :
  ProcessorRegistry_.get_execution_order Fixtures.reg_abc ["a"; "b"; "c"]
  = Ok ["a"; "c"; "b"].
Proof. vm_compute. reflexivity. Qed.

Lemma get_execution_order_free_first_witness :
  ["c"; "a"] `prefix_of` ["c"; "a"; "b"]
  ∧ ProcessorRegistry_.get_execution_order Fixtures.reg_cba ["c"; "b"; "a"]
    = Ok ["c"; "a"; "b"].
Proof.
  destruct (get_execution_order_free_first Fixtures.reg_abc ["c"; "b"; "a"]
              ["c"; "a"; "b"]) as [Hfree Hany].
  - vm_compute. reflexivity.
  - split; [exact Hfree|]. apply Hany. intros p Hp.
    repeat (apply elem_of_cons in Hp as [->|Hp]; [reflexivity|]).
    inversion Hp.
Defined.

(** * Registry: lookups, order and invariants *)

Lemma dict_get_None {V} (k : string) (d : list (string * V)) :
  dict_get k d = None ↔ k ∉ dict_keys d.
Proof.
  unfold dict_keys. induction d as [|[k0 v0] d IH]; simpl.
  - split; [intros _; apply not_elem_of_nil|reflexivity].
  - rewrite not_elem_of_cons. destruct (decide (k0 = k)) as [->|Hne].
    + split; [discriminate|]. intros [H _]. contradiction.
    + rewrite IH. split; [auto|]. intros [_ H]. exact H.
Qed.

Lemma dict_mem_false {V} (k : string) (d : list (string * V)) :
  dict_mem k d = false ↔ k ∉ dict_keys d.
Proof.
  rewrite <- dict_get_None. unfold dict_mem. rewrite bool_decide_eq_false.
  destruct (dict_get k d); split; intros H; try reflexivity; try discriminate.
  - exfalso. apply H. eauto.
  - intros [? ?]. discriminate.
Qed.

Lemma dict_get_elem {V} (k : string) (v : V) (d : list (string * V)) :
  NoDup (dict_keys d) → ((k, v) ∈ d ↔ dict_get k d = Some v).
Proof.
  unfold dict_keys. induction d as [|[k0 v0] d IH]; simpl; intros Hnd.
  - split; [intros H; inversion H|discriminate].
  - apply NoDup_cons in Hnd as [Hk0 Hnd]. rewrite elem_of_cons.
    destruct (decide (k0 = k)) as [->|Hne].
    + split.
      * intros [[= ->]|Hin]; [reflexivity|]. exfalso. apply Hk0.
        apply list_elem_of_fmap. exists (k, v). auto.
      * intros [= ->]. left. reflexivity.
    + rewrite <- (IH Hnd). split; [|auto]. intros [[= ? ?]|H]; [congruence|exact H].
Qed.

Lemma dict_set_absent {V} (k : string) (v : V) (d : list (string * V)) :
  k ∉ dict_keys d → dict_set k v d = d ++ [(k, v)].
Proof.
  unfold dict_keys. induction d as [|[k0 v0] d IH]; simpl; intros Hk; [reflexivity|].
  apply not_elem_of_cons in Hk as [Hne Hk].
  destruct (decide (k0 = k)); [congruence|]. rewrite IH by exact Hk. reflexivity.
Qed.

Lemma dict_pop_absent {V} (k : string) (d : list (string * V)) :
  k ∉ dict_keys d → dict_pop k d = d.
Proof.
  unfold dict_keys. induction d as [|[k0 v0] d IH]; simpl; intros Hk; [reflexivity|].
  apply not_elem_of_cons in Hk as [Hne Hk].
  destruct (decide (k0 = k)); [congruence|]. rewrite IH by exact Hk. reflexivity.
Qed.

Lemma dict_pop_snoc {V} (k : string) (v : V) (d : list (string * V)) :
  k ∉ dict_keys d → dict_pop k (d ++ [(k, v)]) = d.
Proof.
  unfold dict_keys. induction d as [|[k0 v0] d IH]; simpl; intros Hk.
  - destruct (decide (k = k)); [reflexivity|contradiction].
  - apply not_elem_of_cons in Hk as [Hne Hk].
    destruct (decide (k0 = k)); [congruence|]. rewrite IH by exact Hk. reflexivity.
Qed.

Lemma dict_pop_elem {V} (k : string) (d : list (string * V)) (kv : string * V) :
  kv ∈ dict_pop k d → kv ∈ d.
Proof.
  induction d as [|[k0 v0] d IH]; simpl; [auto|].
  destruct (decide (k0 = k)).
  - intros H. right. exact H.
  - intros H. apply elem_of_cons in H as [->|H]; [left|right; auto].
Qed.

Lemma dict_pop_keys {V} (k : string) (d : list (string * V)) :
  NoDup (dict_keys d) →
  NoDup (dict_keys (dict_pop k d)) ∧ k ∉ dict_keys (dict_pop k d).
Proof.
  unfold dict_keys. induction d as [|[k0 v0] d IH]; simpl; intros Hnd.
  - split; [constructor|apply not_elem_of_nil].
  - apply NoDup_cons in Hnd as [Hk0 Hnd]. destruct (decide (k0 = k)) as [->|Hne].
    + auto.
    + destruct (IH Hnd) as [IH1 IH2]. simpl. split.
      * apply NoDup_cons. split; [|exact IH1]. intros Hin. apply Hk0.
        apply list_elem_of_fmap in Hin as (kv & -> & Hin).
        apply list_elem_of_fmap. exists kv. split; [reflexivity|].
        apply (dict_pop_elem k _ _ Hin).
      * apply not_elem_of_cons. auto.
Qed.

Lemma dict_pop_fmap {V W} (g : string * V → string * W) (k : string)
    (d : list (string * V)) :
  (∀ kv, (g kv).1 = kv.1) → dict_pop k (g <$> d) = g <$> dict_pop k d.
Proof.
  intros Hg. induction d as [|[k0 v0] d IH]; [reflexivity|].
  rewrite fmap_cons. pose proof (Hg (k0, v0)) as Hk.
  destruct (g (k0, v0)) as [k1 w1] eqn:E. simpl in Hk. subst k1.
  simpl dict_pop. destruct (decide (k0 = k)); [reflexivity|].
  rewrite fmap_cons, E, IH. reflexivity.
Qed.

Lemma dict_get_pop_ne {V} (k k' : string) (d : list (string * V)) :
  k ≠ k' → dict_get k' (dict_pop k d) = dict_get k' d.
Proof.
  intros Hne. induction d as [|[k0 v0] d IH]; simpl; [reflexivity|].
  destruct (decide (k0 = k)) as [->|Hk0]; simpl.
  - destruct (decide (k = k')); [contradiction|reflexivity].
  - destruct (decide (k0 = k')); [reflexivity|exact IH].
Qed.

(** X1. A successful [register] puts the processor last in the registry's
    iteration order, makes it retrievable under its name and leaves every
    other name as it was. *)
Theorem register_appends (p : Processor) (r : ProcessorRegistry) :
  (ProcessorRegistry_.register p r).2 = Ok tt →
  ProcessorRegistry_.get_names (ProcessorRegistry_.register p r).1
  = ProcessorRegistry_.get_names r ++ [name p]
  ∧ ProcessorRegistry_.get_all (ProcessorRegistry_.register p r).1
    = ProcessorRegistry_.get_all r ++ [p]
  ∧ ProcessorRegistry_.get (name p) (ProcessorRegistry_.register p r).1 = Some p
  ∧ ∀ n, n ≠ name p →
      ProcessorRegistry_.get n (ProcessorRegistry_.register p r).1
      = ProcessorRegistry_.get n r.
Proof.
  unfold ProcessorRegistry_.register, ProcessorRegistry_.get,
    ProcessorRegistry_.get_names, ProcessorRegistry_.get_all.
  destruct (decide (name p = "")) as [|_]; [discriminate|].
  destruct (dict_mem (name p) (_processors r)) eqn:Hmem; [discriminate|].
  intros _. simpl. apply dict_mem_false in Hmem.
  rewrite (dict_set_absent _ _ _ Hmem). unfold dict_keys, dict_values.
  rewrite !fmap_app. simpl. repeat split.
  - rewrite <- (dict_set_absent _ _ _ Hmem). apply dict_get_set_eq.
  - intros n Hn. rewrite <- (dict_set_absent _ _ _ Hmem).
    apply dict_get_set_ne. congruence.
Qed.

Lemma register_appends_witness :
  ProcessorRegistry_.get_names
    (ProcessorRegistry_.register (Fixtures.proc "d" []) Fixtures.reg_abc).1
  = ["a"; "b"; "c"; "d"].
Proof.
  apply (register_appends (Fixtures.proc "d" []) Fixtures.reg_abc). reflexivity.
Defined.

Lemma registry_reachable_invariant (r : ProcessorRegistry) :
  registry_reachable r → registry_wf r.
Proof.
  induction 1 as [|p r Hr (Hnd & Hname & Hdef)|n r Hr (Hnd & Hname & Hdef)
                 |r Hr _].
  - split; [constructor|]. split; [|reflexivity]. intros n p H. inversion H.
  - unfold ProcessorRegistry_.register.
    destruct (decide (name p = "")) as [|Hp]; [simpl; unfold registry_wf; auto|].
    destruct (dict_mem (name p) (_processors r)) eqn:Hmem;
      [simpl; unfold registry_wf; auto|].
    apply dict_mem_false in Hmem. unfold registry_wf. simpl.
    assert (Hmem' : name p ∉ dict_keys (_definitions r)).
    { rewrite Hdef. unfold dict_keys in *. rewrite <- list_fmap_compose. exact Hmem. }
    rewrite (dict_set_absent _ _ _ Hmem), (dict_set_absent _ _ _ Hmem').
    split; [|split].
    + unfold dict_keys in *. rewrite fmap_app. simpl. apply NoDup_app.
      split; [exact Hnd|]. split; [|apply NoDup_singleton].
      intros x Hx Hx'. apply list_elem_of_singleton in Hx'. subst. contradiction.
    + intros n q Hin. apply elem_of_app in Hin as [Hin|Hin]; [apply Hname, Hin|].
      apply list_elem_of_singleton in Hin. injection Hin as -> ->. auto.
    + rewrite fmap_app, Hdef. reflexivity.
  - unfold ProcessorRegistry_.unregister, registry_wf. simpl. split; [|split].
    + apply dict_pop_keys, Hnd.
    + intros m q Hin. apply Hname. apply (dict_pop_elem n _ _ Hin).
    + rewrite Hdef. apply dict_pop_fmap. reflexivity.
  - split; [constructor|]. split; [|reflexivity]. intros n p H. inversion H.
Qed.

(** X2. Every registry obtained from the empty one by [register],
    [unregister] and [clear] has distinct keys, holds each processor under
    its own non-empty name, and stores for each the definition
    [to_definition] gives. *)
Theorem registry_reachable_wf (r : ProcessorRegistry) :
  registry_reachable r → registry_wf r.
Proof. apply registry_reachable_invariant. Qed.

Lemma registry_of_reachable (ps : list Processor) :
  registry_reachable (Fixtures.registry_of ps).
Proof.
  unfold Fixtures.registry_of.
  assert (H : ∀ r, registry_reachable r →
            registry_reachable
              (foldl (λ r p, (ProcessorRegistry_.register p r).1) r ps)).
  { induction ps as [|p ps IH]; intros r Hr; simpl; [exact Hr|].
    apply IH. constructor. exact Hr. }
  apply H. constructor.
Qed.

Lemma registry_reachable_wf_witness : registry_wf Fixtures.reg_abc.
Proof.
  apply (registry_reachable_wf Fixtures.reg_abc).
  apply registry_of_reachable.
Defined.

(** X3. On a reachable registry, unregistering a processor right after it
    was registered hands that processor back and restores the registry
    exactly. *)
Theorem unregister_register (p : Processor) (r : ProcessorRegistry) :
  registry_reachable r →
  (ProcessorRegistry_.register p r).2 = Ok tt →
  ProcessorRegistry_.unregister (name p) (ProcessorRegistry_.register p r).1
  = (r, Some p).
Proof.
  intros Hr Hok. apply registry_reachable_invariant in Hr as (Hnd & Hname & Hdef).
  unfold ProcessorRegistry_.register in *.
  destruct (decide (name p = "")) as [|Hp]; [discriminate|].
  destruct (dict_mem (name p) (_processors r)) eqn:Hmem; [discriminate|].
  apply dict_mem_false in Hmem. simpl.
  assert (Hmem' : name p ∉ dict_keys (_definitions r)).
  { rewrite Hdef. unfold dict_keys in *. rewrite <- list_fmap_compose. exact Hmem. }
  unfold ProcessorRegistry_.unregister. simpl. rewrite dict_get_set_eq.
  rewrite (dict_set_absent _ _ _ Hmem), (dict_set_absent _ _ _ Hmem').
  rewrite !dict_pop_snoc by assumption. destruct r; reflexivity.
Qed.

Lemma unregister_register_witness :
  ProcessorRegistry_.unregister "d"
    (ProcessorRegistry_.register (Fixtures.proc "d" []) Fixtures.reg_abc).1
  = (Fixtures.reg_abc, Some (Fixtures.proc "d" [])).
Proof.
  apply (unregister_register (Fixtures.proc "d" []) Fixtures.reg_abc).
  - apply registry_of_reachable.
  - reflexivity.
Defined.

(** X4. On a reachable registry, [unregister(n)] returns what [get(n)]
    returned, after it [n] is no longer registered while every other name
    answers as before, and for a name that was not registered the registry
    is unchanged. *)
Theorem unregister_removes (n : string) (r : ProcessorRegistry) :
  registry_reachable r →
  (ProcessorRegistry_.unregister n r).2 = ProcessorRegistry_.get n r
  ∧ ProcessorRegistry_.has n (ProcessorRegistry_.unregister n r).1 = false
  ∧ (∀ m, m ≠ n →
       ProcessorRegistry_.get m (ProcessorRegistry_.unregister n r).1
       = ProcessorRegistry_.get m r)
  ∧ (ProcessorRegistry_.get n r = None →
     (ProcessorRegistry_.unregister n r).1 = r).
Proof.
  intros Hr. apply registry_reachable_invariant in Hr as (Hnd & Hname & Hdef).
  unfold ProcessorRegistry_.unregister, ProcessorRegistry_.has,
    ProcessorRegistry_.get. simpl.
  split; [reflexivity|]. split; [|split].
  - apply dict_mem_false, dict_pop_keys, Hnd.
  - intros m Hm. apply dict_get_pop_ne. congruence.
  - intros Hnone. apply dict_get_None in Hnone.
    assert (Hnone' : n ∉ dict_keys (_definitions r)).
    { rewrite Hdef. unfold dict_keys in *. rewrite <- list_fmap_compose. exact Hnone. }
    rewrite !dict_pop_absent by assumption. destruct r; reflexivity.
Qed.

Lemma unregister_removes_witness :
  ProcessorRegistry_.has "b" (ProcessorRegistry_.unregister "b" Fixtures.reg_abc).1
  = false.
Proof.
  apply (unregister_removes "b" Fixtures.reg_abc).
  apply registry_of_reachable.
Defined.

Lemma flat_map_nil_iff {A B} (f : A → list B) (l : list A) :
  flat_map f l = [] ↔ ∀ x, x ∈ l → f x = [].
Proof.
  induction l as [|a l IH]; simpl.
  - split; [|reflexivity]. intros _ x H. inversion H.
  - split.
    + intros H. apply app_eq_nil in H as [Ha Hl]. intros x Hx.
      apply elem_of_cons in Hx as [->|Hx]; [exact Ha|]. apply IH; assumption.
    + intros H. rewrite (H a) by left. apply IH. intros x Hx. apply H. right. exact Hx.
Qed.

Lemma filter_nil_iff {A} (P : A → Prop) `{!∀ x, Decision (P x)} (l : list A) :
  filter P l = [] ↔ ∀ x, x ∈ l → ¬ P x.
Proof.
  split.
  - intros Hnil x Hx HP.
    assert (Hin : x ∈ filter P l) by (apply list_elem_of_filter; auto).
    rewrite Hnil in Hin. inversion Hin.
  - intros Hall. destruct (filter P l) as [|x l'] eqn:E; [reflexivity|].
    assert (Hin : x ∈ filter P l) by (rewrite E; left).
    apply list_elem_of_filter in Hin as [HP Hx]. exfalso. exact (Hall x Hx HP).
Qed.

(** X5. [validate_dependencies] reports nothing exactly when every
    requirement of every registered processor is itself registered. *)
Theorem validate_dependencies_nil_iff (r : ProcessorRegistry) :
  ProcessorRegistry_.validate_dependencies r = []
  ↔ ∀ n p dep, (n, p) ∈ _processors r → dep ∈ requires p →
               ProcessorRegistry_.has dep r = true.
Proof.
  unfold ProcessorRegistry_.validate_dependencies, ProcessorRegistry_.has.
  rewrite flat_map_nil_iff. split.
  - intros H n p dep Hin Hdep. specialize (H (n, p) Hin). simpl in H.
    apply fmap_nil_inv in H. rewrite filter_nil_iff in H.
    specialize (H dep Hdep). destruct (dict_mem dep (_processors r)); [reflexivity|].
    exfalso. apply H. reflexivity.
  - intros H [n p] Hin. simpl.
    replace (filter _ (requires p)) with (@nil string); [reflexivity|].
    symmetry. apply filter_nil_iff. intros dep Hdep Hf.
    rewrite (H n p dep Hin Hdep) in Hf. discriminate.
Qed.

(** X6. On a reachable registry [get_dependents] is the converse of
    [get_dependencies]: [p] is among the dependents of [n] exactly when [p]
    is registered and lists [n] among its requirements. *)
Theorem get_dependents_iff (n p : string) (r : ProcessorRegistry) :
  registry_reachable r →
  (p ∈ ProcessorRegistry_.get_dependents n r
   ↔ ProcessorRegistry_.has p r = true
     ∧ n ∈ ProcessorRegistry_.get_dependencies r p).
Proof.
  intros Hr. apply registry_reachable_invariant in Hr as (Hnd & Hname & Hdef).
  unfold ProcessorRegistry_.get_dependents, ProcessorRegistry_.has,
    ProcessorRegistry_.get_dependencies, ProcessorRegistry_.get.
  rewrite list_elem_of_fmap. split.
  - intros ([k proc] & -> & Hin). apply list_elem_of_filter in Hin as [Hreq Hin].
    simpl in *. apply (dict_get_elem _ _ _ Hnd) in Hin. rewrite Hin.
    split; [|exact Hreq]. unfold dict_mem. rewrite Hin.
    apply bool_decide_eq_true. eauto.
  - intros [_ Hreq]. destruct (dict_get p (_processors r)) as [proc|] eqn:Hget;
      [|inversion Hreq].
    exists (p, proc). split; [reflexivity|]. apply list_elem_of_filter.
    split; [exact Hreq|]. apply (dict_get_elem _ _ _ Hnd). exact Hget.
Qed.

Lemma get_dependents_iff_witness :
  "b" ∈ ProcessorRegistry_.get_dependents "a" Fixtures.reg_abc.
Proof.
  apply (get_dependents_iff "a" "b" Fixtures.reg_abc).
  - apply registry_of_reachable.
  - split; [reflexivity|]. vm_compute. left.
Defined.

(** * Dependency resolution: cycles and independent processors *)

Lemma kahn_loop_length (graph : gmap string (list string)) (fuel : nat) :
  ∀ (deg : gmap string Z) (queue result final : list string),
    ProcessorRegistry_.kahn_loop fuel graph deg queue result = Some final →
    (length final ≤ length result + fuel)%nat.
Proof.
  induction fuel as [|fuel IH]; intros deg queue result final Hloop.
  - destruct queue; [|discriminate]. injection Hloop as <-. lia.
  - destruct queue as [|node queue]; [injection Hloop as <-; lia|].
    simpl in Hloop.
    destruct (foldl ProcessorRegistry_.release (deg, queue) (graph !!! node))
      as [deg' queue'].
    apply IH in Hloop. rewrite length_app in Hloop. simpl in Hloop. lia.
Qed.

(** An ordering that respects every requirement rules cycles out. *)
Lemma ordered_acyclic (r : ProcessorRegistry) (names final : list string) :
  NoDup final → (∀ p, p ∈ names → p ∈ final) → ordered r names final →
  acyclic r names.
Proof.
  intros Hnd Hall Hord.
  assert (Htc : ∀ x y, tc (depends_in r names) x y → appears_before final y x).
  { induction 1 as [x y (Hx & Hy & Hd)|x z y (Hx & Hz & Hd) _ IH].
    - apply Hall, list_elem_of_lookup in Hx as [j Hj].
      destruct (Hord j x y Hj Hd Hy) as (i & Hi & Hiy). exists i, j. auto.
    - apply Hall, list_elem_of_lookup in Hx as [j Hj].
      destruct (Hord j x z Hj Hd Hz) as (i & Hi & Hiz).
      destruct IH as (i' & j' & Hi' & Hj' & Hlt).
      pose proof (NoDup_lookup _ _ _ _ Hnd Hiz Hj') as ->.
      exists i', j. split; [exact Hi'|]. split; [exact Hj|lia]. }
  intros p Hp. destruct (Htc p p Hp) as (i & j & Hi & Hj & Hlt).
  pose proof (NoDup_lookup _ _ _ _ Hnd Hi Hj). lia.
Qed.

(** X7. Cycle detection: on a duplicate-free list whose requirements
    contain a cycle, [get_execution_order] raises [ValueError]. *)
Theorem get_execution_order_cycle (r : ProcessorRegistry) (names : list string) :
  NoDup names → ¬ acyclic r names →
  ∃ msg, ProcessorRegistry_.get_execution_order r names = Raise (ValueError msg).
Proof.
  intros Hnd Hcyc.
  destruct (get_execution_order_total r names) as [[result Hok]|Hraise];
    [|exact Hraise].
  exfalso. apply Hcyc.
  destruct (kahn_loop_inv r names Hnd (length names) _ _ []
              (kahn_inv_init r names Hnd)) as (final & deg' & Hloop & Hinv);
    [simpl; lia|].
  destruct Hinv as [Hfnd Hfincl _ _ Hford]. rewrite app_nil_r in Hfnd, Hfincl.
  unfold ProcessorRegistry_.get_execution_order in Hok.
  destruct (ProcessorRegistry_.build_graph r names) as [deg0 g0].
  simpl in Hloop. rewrite Hloop in Hok.
  destruct (bool_decide_reflect (length final = length names)) as [Hlen|Hlen];
    [|discriminate].
  assert (Hperm : final ≡ₚ names).
  { apply submseteq_length_Permutation; [|lia].
    apply NoDup_submseteq; assumption. }
  apply (ordered_acyclic r names final Hfnd); [|exact Hford].
  intros p Hp. rewrite Hperm. exact Hp.
Qed.

Lemma get_execution_order_cycle_witness :
  ∃ msg,
    ProcessorRegistry_.get_execution_order Fixtures.reg_cycle ["p"; "q"]
    = Raise (ValueError msg).
Proof.
  apply (get_execution_order_cycle Fixtures.reg_cycle ["p"; "q"]).
  - compute_done.
  - intros H. apply (H "p"). apply (tc_l _ "p" "q" "p").
    + split; [compute_done|]. split; [compute_done|]. vm_compute. left.
    + apply tc_once. split; [compute_done|]. split; [compute_done|].
      vm_compute. left.
Defined.

(** The message names the processors that could not be ordered. *)
Example get_execution_order_cycle_message :
  ProcessorRegistry_.get_execution_order Fixtures.reg_cycle ["p"; "a"; "q"]
  = Raise (ValueError "Circular dependency detected involving: ['p', 'q']").
Proof. vm_compute. reflexivity. Qed.

(** X8. When no processor of the list requires another processor of the
    list, [get_execution_order] returns the list as it was given (with or
    without repeated or unregistered names). *)
Theorem get_execution_order_independent (r : ProcessorRegistry)
    (names : list string) :
  Forall (λ p, Forall (λ d, d ∉ names) (ProcessorRegistry_.get_dependencies r p))
    names →
  ProcessorRegistry_.get_execution_order r names = Ok names.
Proof.
  intros Hfree.
  pose proof (kahn_loop_total r names) as [final Hloop].
  pose proof (build_graph_deg r names) as Hdeg.
  unfold ProcessorRegistry_.get_execution_order.
  destruct (ProcessorRegistry_.build_graph r names) as [deg0 g0].
  simpl in Hloop, Hdeg. rewrite Hloop.
  assert (Hq : filter (λ p, deg0 !!! p = 0) names = names).
  { rewrite <- (filter_ext_in (λ _ : string, True) _ names).
    - clear. induction names as [|a l IH]; [reflexivity|].
      rewrite filter_cons_True by exact I. rewrite IH. reflexivity.
    - intros p Hp. split; [intros _|auto].
      specialize (Hdeg p). rewrite decide_True in Hdeg by exact Hp.
      rewrite (lookup_total_correct _ _ _ Hdeg).
      rewrite Forall_forall in Hfree.
      rewrite (proj2 (indeg_zero_iff r names p) (Hfree p Hp)). lia. }
  rewrite Hq in Hloop.
  pose proof (kahn_loop_prefix _ _ _ _ _ _ Hloop) as Hpre.
  pose proof (kahn_loop_length _ _ _ _ _ _ Hloop) as Hlen.
  simpl in Hpre, Hlen.
  apply prefix_length_eq in Hpre; [|exact Hlen]. subst final.
  rewrite bool_decide_eq_true_2 by reflexivity. reflexivity.
Qed.

Lemma get_execution_order_independent_witness :
  ProcessorRegistry_.get_execution_order Fixtures.reg_abc ["c"; "ghost"; "a"; "c"]
  = Ok ["c"; "ghost"; "a"; "c"].
Proof.
  apply (get_execution_order_independent Fixtures.reg_abc).
  repeat (constructor; [vm_compute; constructor|]). constructor.
Defined.

(** * Router: what the next step is *)

Lemma release_fold_queue_incl (L : list string) (deg : gmap string Z)
    (q : list string) :
  ∃ new, (foldl ProcessorRegistry_.release (deg, q) L).2 = q ++ new
         ∧ ∀ x, x ∈ new → x ∈ L.
Proof.
  revert deg q. induction L as [|y L IH]; intros deg q; simpl.
  - exists []. split; [rewrite app_nil_r; reflexivity|]. intros x H. inversion H.
  - unfold ProcessorRegistry_.release at 2. simpl.
    destruct (bool_decide _).
    + destruct (IH (alter (λ d, d - 1) y deg) (q ++ [y])) as (new & Hq & Hin).
      exists (y :: new). split; [rewrite Hq, <- app_assoc; reflexivity|].
      intros x Hx. apply elem_of_cons in Hx as [->|Hx]; [left|right; auto].
    + destruct (IH (alter (λ d, d - 1) y deg) q) as (new & Hq & Hin).
      exists new. split; [exact Hq|]. intros x Hx. right. auto.
Qed.

Lemma kahn_loop_incl (graph : gmap string (list string)) (names : list string)
    (fuel : nat) :
  (∀ node L x, graph !! node = Some L → x ∈ L → x ∈ names) →
  ∀ (deg : gmap string Z) (queue result final : list string),
    (∀ x, x ∈ result ++ queue → x ∈ names) →
    ProcessorRegistry_.kahn_loop fuel graph deg queue result = Some final →
    ∀ x, x ∈ final → x ∈ names.
Proof.
  intros Hgraph. induction fuel as [|fuel IH]; intros deg queue result final Hin Hloop.
  - destruct queue; [|discriminate]. injection Hloop as <-.
    intros x Hx. apply Hin. rewrite app_nil_r. exact Hx.
  - destruct queue as [|node queue].
    + injection Hloop as <-. intros x Hx. apply Hin. rewrite app_nil_r. exact Hx.
    + simpl in Hloop.
      destruct (release_fold_queue_incl (graph !!! node) deg queue)
        as (new & Hq & Hnew).
      destruct (foldl ProcessorRegistry_.release (deg, queue) (graph !!! node))
        as [deg' queue'].
      simpl in Hq. subst queue'. eapply IH; [|exact Hloop].
      intros x Hx. rewrite !elem_of_app in Hx.
      destruct Hx as [[Hx|Hx]|[Hx|Hx]].
      * apply Hin, elem_of_app. left. exact Hx.
      * apply list_elem_of_singleton in Hx as ->. apply Hin, elem_of_app. right. left.
      * apply Hin, elem_of_app. right. right. exact Hx.
      * apply Hnew in Hx. rewrite lookup_total_alt in Hx.
        destruct (graph !! node) as [L|] eqn:HL; simpl in Hx; [|inversion Hx].
        apply (Hgraph node L x HL Hx).
Qed.

(** An ordering only holds names it was given. *)
Lemma get_execution_order_incl (r : ProcessorRegistry) (names result : list string) :
  ProcessorRegistry_.get_execution_order r names = Ok result →
  ∀ x, x ∈ result → x ∈ names.
Proof.
  unfold ProcessorRegistry_.get_execution_order.
  pose proof (build_graph_graph_elem r names) as Hg.
  destruct (ProcessorRegistry_.build_graph r names) as [deg0 g0]. simpl in Hg.
  destruct (ProcessorRegistry_.kahn_loop _ _ _ _ _) as [final|] eqn:Hloop;
    [|discriminate].
  destruct (negb _); [discriminate|]. intros [= <-].
  eapply (kahn_loop_incl g0 names _ (λ node L x, Hg node x L)); [|exact Hloop].
  intros x Hx. simpl in Hx. apply list_elem_of_filter in Hx as [_ Hx]. exact Hx.
Qed.

(** X9. The step [get_next_step] returns can run: it comes from a processor
    that applies to the job, [can_run_step] accepts it with an empty reason,
    and it is one of the pending steps. *)
Theorem get_next_step_can_run (r : ProcessorRegistry) (f : gmap string node)
    (job : Job) (s : string) :
  Router.get_next_step r f job = Some s →
  s ∈ Router._get_applicable_processors r f job
  ∧ Router.can_run_step r job s = (true, "")
  ∧ s ∈ Router.get_pending_steps r f job.
Proof.
  unfold Router.get_next_step, Router.get_pending_steps,
    Router.get_all_applicable_steps.
  destruct (Router._get_applicable_processors r f job) as [|a l] eqn:Happ;
    [discriminate|].
  destruct (ProcessorRegistry_.get_execution_order r (a :: l)) as [ordered|e] eqn:Hord;
    [|discriminate].
  intros Hhead. apply head_Some_elem_of, list_elem_of_filter in Hhead as [Hrun Hin].
  unfold Router.runnable in Hrun. apply andb_true_iff in Hrun as [Hnot Hdeps].
  apply negb_true_iff, bool_decide_eq_false in Hnot.
  split; [apply (get_execution_order_incl r _ _ Hord s Hin)|]. split.
  - unfold Router.can_run_step, Job_.has_completed_step.
    destruct (ProcessorRegistry_.get s r) as [processor|]; [|discriminate].
    rewrite bool_decide_eq_false_2 by exact Hnot.
    replace (filter _ (requires processor)) with (@nil string); [reflexivity|].
    symmetry. apply filter_nil_iff. intros dep Hdep Hmiss. apply Hmiss.
    unfold Router.deps_satisfied in Hdeps. rewrite forallb_forall in Hdeps.
    apply list_elem_of_In in Hdep. apply Hdeps in Hdep.
    apply bool_decide_eq_true in Hdep. exact Hdep.
  - apply list_elem_of_filter. split; assumption.
Qed.

Lemma get_next_step_can_run_witness :
  Router.can_run_step Fixtures.reg_abc Fixtures.job_a_done "c" = (true, "").
Proof.
  apply (get_next_step_can_run Fixtures.reg_abc ∅ Fixtures.job_a_done "c").
  vm_compute. reflexivity.
Defined.

(** Under the hypotheses of the ordering theorem the ordering exists,
    permutes the names and respects every requirement. *)
Lemma get_execution_order_ordered (r : ProcessorRegistry) (names : list string) :
  NoDup names → acyclic r names →
  ∃ result,
    ProcessorRegistry_.get_execution_order r names = Ok result
    ∧ result ≡ₚ names ∧ ordered r names result.
Proof.
  intros Hnd Hacy.
  destruct (kahn_loop_inv r names Hnd (length names) _ _ []
              (kahn_inv_init r names Hnd)) as (final & deg' & Hloop & Hinv);
    [simpl; lia|].
  destruct Hinv as [Hfnd Hfincl Hfdeg Hfmem Hford].
  rewrite app_nil_r in Hfnd, Hfincl. setoid_rewrite app_nil_r in Hfmem.
  assert (Hperm : final ≡ₚ names).
  { apply NoDup_Permutation; [exact Hfnd|exact Hnd|]. intros x. split; [auto|].
    revert x. apply (acyclic_all_done r names final Hacy). intros p Hp Hpf.
    apply (need_pos r names). rewrite <- (Hfmem p Hp). exact Hpf. }
  exists final. split; [|auto].
  unfold ProcessorRegistry_.get_execution_order.
  destruct (ProcessorRegistry_.build_graph r names) as [deg0 g0].
  simpl in Hloop. rewrite Hloop.
  rewrite bool_decide_eq_true_2 by (apply Permutation_length, Hperm).
  reflexivity.
Qed.

(** The names of the applicable processors of a reachable registry are
    distinct. *)
Lemma applicable_NoDup (r : ProcessorRegistry) (f : gmap string node) (job : Job) :
  registry_reachable r → NoDup (Router._get_applicable_processors r f job).
Proof.
  intros Hr. apply registry_reachable_invariant in Hr as (Hnd & Hname & _).
  unfold Router._get_applicable_processors, ProcessorRegistry_.get_all.
  apply (sublist_NoDup _ (name <$> dict_values (_processors r))).
  - replace (name <$> dict_values (_processors r)) with (dict_keys (_processors r));
      [exact Hnd|].
    unfold dict_keys, dict_values. rewrite <- list_fmap_compose.
    apply Forall_fmap_ext_1, Forall_forall. intros [n p] Hin. simpl.
    symmetry. apply (Hname n p Hin).
  - apply fmap_sublist, sublist_filter.
Qed.

(** X10. On a reachable registry whose applicable processors have acyclic
    requirements, [get_all_applicable_steps] is a permutation of the
    applicable processors in which each one comes after its requirements
    that are applicable too. *)
Theorem get_all_applicable_steps_ordered (r : ProcessorRegistry)
    (f : gmap string node) (job : Job) :
  registry_reachable r →
  acyclic r (Router._get_applicable_processors r f job) →
  Router.get_all_applicable_steps r f job
    ≡ₚ Router._get_applicable_processors r f job
  ∧ ∀ p d,
      p ∈ Router._get_applicable_processors r f job →
      d ∈ Router._get_applicable_processors r f job →
      d ∈ ProcessorRegistry_.get_dependencies r p →
      appears_before (Router.get_all_applicable_steps r f job) d p.
Proof.
  intros Hr Hacy.
  destruct (get_execution_order_ordered r _ (applicable_NoDup r f job Hr) Hacy)
    as (result & Hok & Hperm & Hord).
  unfold Router.get_all_applicable_steps.
  destruct (Router._get_applicable_processors r f job) as [|a l] eqn:Happ.
  - split; [reflexivity|]. intros p d Hp. inversion Hp.
  - rewrite Hok. split; [exact Hperm|]. intros p d Hp Hd Hdep.
    rewrite <- Hperm in Hp. apply list_elem_of_lookup in Hp as [j Hj].
    destruct (Hord j p d Hj Hdep Hd) as (i & Hi & Hid). exists i, j. auto.
Qed.

Lemma get_all_applicable_steps_ordered_witness :
  appears_before (Router.get_all_applicable_steps Fixtures.reg_abc ∅ Fixtures.job0)
    "a" "b".
Proof.
  apply (get_all_applicable_steps_ordered Fixtures.reg_abc ∅ Fixtures.job0).
  - apply registry_of_reachable.
  - apply reg_abc_acyclic, names_abc. compute_done.
  - compute_done.
  - compute_done.
  - vm_compute. left.
Defined.

(** * Executor: what running a step records *)

Section executor.
Variable codec : Codec.

(** A processor body changes nothing of the job but its data bag. *)
Lemma run_script_with_data {R : Type} (s : script R) (job : Job)
    (ctx : ExecutionContext) (w : World) :
  (JobExecutor.run_script codec s job ctx w).1.1.1
  = with_data (data (JobExecutor.run_script codec s job ctx w).1.1.1) job.
Proof.
  revert job ctx w.
  induction s as [r|e|c k IH|k IH|k IH|path enc k IH|key v k IH|key k IH];
    intros job ctx w; simpl.
  - destruct job; reflexivity.
  - destruct job; reflexivity.
  - destruct (JobExecutor.do_call codec c ctx w) as [[ctx' w'] res]. apply IH.
  - destruct (ExecutionContext_.commit ctx w) as [[ctx' w'] res]. apply IH.
  - destruct (ExecutionContext_.rollback codec ctx w) as [ctx' w']. apply IH.
  - apply IH.
  - rewrite IH at 1. reflexivity.
  - rewrite IH at 1. reflexivity.
Qed.

Lemma job_store_save_lookup (j : Job) (w : World) :
  ∃ row, job_rows (JobStore.save j w) !! job_id j = Some row
         ∧ status row = status j ∧ current_step row = current_step j
         ∧ history row = history j ∧ data row = data j.
Proof.
  unfold JobStore.save. simpl.
  destruct (job_rows w !! job_id j); rewrite lookup_insert_eq;
    eexists; (split; [reflexivity|]); simpl; auto.
Qed.

Lemma finish_spec (job : Job) (result : StepResult) (w : World) :
  ∃ job' w',
    JobExecutor.finish job result w = (job', w', Ok result)
    ∧ job' = Job_.add_step_result (utcnow w) result job
    ∧ artifact_rows w' = artifact_rows w ∧ fs w' = fs w
    ∧ ∃ row, job_rows w' !! job_id job = Some row
             ∧ status row = status job ∧ current_step row = current_step job
             ∧ history row = history job ++ [result] ∧ data row = data job.
Proof.
  unfold JobExecutor.finish. eexists _, _. split; [reflexivity|].
  repeat split; try reflexivity.
  destruct (job_store_save_lookup (Job_.add_step_result (utcnow w) result job) w)
    as (row & Hrow & Hst & Hcur & Hh & Hd).
  exists row. simpl in *. auto.
Qed.

Ltac use_finish :=
  match goal with
  | |- context [JobExecutor.finish ?j ?r ?w] =>
      let job' := fresh "job'" in
      let w' := fresh "w'" in
      let Hfin := fresh "Hfin" in
      let Hjob' := fresh "Hjob'" in
      let Hrows' := fresh "Hrows'" in
      let Hfs' := fresh "Hfs'" in
      let row := fresh "row" in
      let Hrow := fresh "Hrow" in
      destruct (finish_spec j r w)
        as (job' & w' & Hfin & Hjob' & Hrows' & Hfs' & row & Hrow);
      rewrite Hfin
  end.

(** The [except] clause: the step and the job end failed, the artifact
    table is left alone, and the job is saved. *)
Lemma fail_step_spec (e : exn) (job : Job) (processor : Processor)
    (result : StepResult) (ctx : ExecutionContext) (w : World) :
  ∃ job' w' result',
    JobExecutor.fail_step codec e job processor result ctx w
    = (job', w', Ok result')
    ∧ result' = StepResult_.fail (utcnow w) (exn_str e)
                  (Some (JobExecutor.format_exc e)) result
    ∧ job' = Job_.add_step_result (utcnow w) result'
               (Job_.fail (utcnow w) (exn_str e) job)
    ∧ artifact_rows w' = artifact_rows w
    ∧ fs w' = (if auto_revert_on_error processor
               then fs (ExecutionContext_.rollback codec ctx w).2 else fs w)
    ∧ ∃ row, job_rows w' !! job_id job = Some row
             ∧ status row = status job' ∧ history row = history job'.
Proof.
  unfold JobExecutor.fail_step, ExecutionContext_.rollback.
  destruct (auto_revert_on_error processor); [destruct (_committed ctx)|];
    cbv beta iota zeta; use_finish;
    (eexists _, _, _; split; [reflexivity|]); subst job'; simpl in *;
    (split; [reflexivity|]); (split; [reflexivity|]);
    (split; [exact Hrows'|]); (split; [exact Hfs'|]);
    exists row; destruct Hrow as (? & ? & ? & ? & ?); auto.
Qed.

(** Leaving the context without an exception: with the row of the job in
    place the commit goes through. *)
Lemma aexit_commits (ctx : ExecutionContext) (w : World) :
  job_rows (ExecutionContext_.__aexit__ codec false ctx w).1.2 = job_rows w
  ∧ fs (ExecutionContext_.__aexit__ codec false ctx w).1.2 = fs w
  ∧ (∀ id, is_Some (artifact_rows w !! id) →
       is_Some (artifact_rows (ExecutionContext_.__aexit__ codec false ctx w).1.2
                  !! id))
  ∧ (is_Some (job_rows w !! ctx_job_id ctx) →
     (∀ a, a ∈ _pending_artifacts ctx → artifact_job_id a = ctx_job_id ctx) →
     (ExecutionContext_.__aexit__ codec false ctx w).2 = Ok tt).
Proof.
  unfold ExecutionContext_.__aexit__. simpl.
  destruct (_committed ctx) eqn:Hc; simpl; [auto|].
  pose proof (commit_frame ctx w) as (Hfs & Hrows & _).
  pose proof (commit_ok ctx w) as Hok.
  assert (Hkeep : ∀ id, is_Some (artifact_rows w !! id) →
            is_Some (artifact_rows (ExecutionContext_.commit ctx w).1.2 !! id)).
  { unfold ExecutionContext_.commit. rewrite Hc.
    pose proof (save_each_frame (_pending_artifacts ctx) w)
      as (_ & _ & _ & _ & _ & Hk).
    destruct (ArtifactStore.save_each (_pending_artifacts ctx) w) as [w' [[]|e]];
      exact Hk. }
  destruct (ExecutionContext_.commit ctx w) as [[ctx' w'] [l|e]]; simpl in *;
    (split; [exact Hrows|]); (split; [exact Hfs|]); (split; [exact Hkeep|]);
    [reflexivity|].
  intros Hjob Hown. destruct (Hok Hjob Hown) as (_ & Habs & _). discriminate.
Qed.

(** What [_do_execute] hands back, whatever the body did. *)
Lemma do_execute_spec (job : Job) (processor : Processor) (result : StepResult)
    (w : World) :
  ∃ job' w' result',
    JobExecutor._do_execute codec job processor result w = (job', w', Ok result')
    ∧ history job' = history job ++ [result']
    ∧ job_id job' = job_id job
    ∧ step_id result' = step_id result
    ∧ step_name result' = step_name result
    ∧ step_job_id result' = step_job_id result
    ∧ (is_Some (job_rows w !! job_id job) →
       ∀ a, a ∈ artifacts result' →
         a ∈ artifacts result ∨ is_Some (artifact_rows w' !! artifact_id a))
    ∧ (∃ row, job_rows w' !! job_id job = Some row
              ∧ status row = status job' ∧ history row = history job').
Proof.
  unfold JobExecutor._do_execute.
  pose proof (run_script_with_data (process processor job) job
                (ExecutionContext_.new (job_id job) (name processor)) w) as Hjob.
  pose proof (run_script_frame codec (process processor job) job
                (ExecutionContext_.new (job_id job) (name processor)) w)
    as (Hjrows & Hcid & Hown).
  destruct (JobExecutor.run_script codec _ job _ w) as [[[job1 ctx1] w1] res].
  simpl in Hjob, Hjrows, Hcid, Hown.
  assert (Hown1 : ∀ a, a ∈ _pending_artifacts ctx1 →
                       artifact_job_id a = ctx_job_id ctx1).
  { intros a Ha. rewrite Hcid. apply Hown; [|exact Ha].
    intros b Hb. inversion Hb. }
  assert (Hid1 : job_id job1 = job_id job) by (rewrite Hjob; reflexivity).
  assert (Hh1 : history job1 = history job) by (rewrite Hjob; reflexivity).
  destruct res as [step_result|e].
  - pose proof (aexit_commits ctx1 w1) as (Hjrows2 & _ & Hkeep2 & Hok2).
    destruct (ExecutionContext_.__aexit__ codec false ctx1 w1)
      as [[ctx2 w2] [[]|e]]; simpl in Hjrows2, Hkeep2, Hok2.
    + simpl artifacts.
      pose proof (save_each_saved (ExecutionContext_.artifacts_of ctx1) w2) as Hsaved.
      pose proof (save_each_ok (ExecutionContext_.artifacts_of ctx1) w2) as Hsok.
      destruct (ArtifactStore.save_each (ExecutionContext_.artifacts_of ctx1) w2)
        as [w3 [[]|e]]; simpl in Hsok.
      * specialize (Hsaved w3 eq_refl).
        repeat case_decide; use_finish;
          (eexists _, _, _; split; [reflexivity|]); subst job'; simpl in *;
          rewrite ?Hid1, ?Hh1 in *;
          (repeat split; try reflexivity;
           [intros _ a Ha; right; rewrite Hrows'; apply Hsaved, Ha
           |exists row; destruct Hrow as (? & ? & ? & ? & ?); auto]).
      * destruct (fail_step_spec e job1 processor
                    (JobExecutor.merge_result step_result
                       (ExecutionContext_.artifacts_of ctx1) result) ctx2 w3)
          as (job' & w' & result' & Heq & -> & -> & _ & _ & row & Hrow).
        rewrite Heq. eexists _, _, _. split; [reflexivity|]. simpl in *.
        rewrite ?Hid1, ?Hh1 in *. repeat split; try reflexivity.
        -- intros Hrowj. exfalso.
           assert (Raise e = Ok tt) as Habs; [|discriminate Habs].
           apply Hsok. intros a Ha. unfold ExecutionContext_.artifacts_of in Ha.
           rewrite (Hown1 a Ha), Hcid, Hjrows2, Hjrows. exact Hrowj.
        -- exists row. exact Hrow.
    + destruct (fail_step_spec e job1 processor
                  (JobExecutor.merge_result step_result
                     (ExecutionContext_.artifacts_of ctx1) result) ctx2 w2)
        as (job' & w' & result' & Heq & -> & -> & _ & _ & row & Hrow).
      rewrite Heq. eexists _, _, _. split; [reflexivity|]. simpl in *.
      rewrite ?Hid1, ?Hh1 in *. repeat split; try reflexivity.
      * intros Hrowj. exfalso.
        assert (Raise e = Ok tt) as Habs; [|discriminate Habs].
        apply Hok2; [|exact Hown1]. rewrite Hcid, Hjrows. exact Hrowj.
      * exists row. exact Hrow.
  - destruct (ExecutionContext_.__aexit__ codec true ctx1 w1) as [[ctx2 w2] o].
    destruct (fail_step_spec e job1 processor result ctx2 w2)
      as (job' & w' & result' & Heq & -> & -> & _ & _ & row & Hrow).
    rewrite Heq. eexists _, _, _. split; [reflexivity|]. simpl in *.
    rewrite ?Hid1, ?Hh1 in *. repeat split; try reflexivity.
    + intros _ a Ha. left. exact Ha.
    + exists row. exact Hrow.
Qed.
Lemma get_next_step_runnable (r : ProcessorRegistry) (f : gmap string node)
    (job : Job) (s : string) :
  Router.get_next_step r f job = Some s →
  Router.runnable r (Job_.get_completed_steps job) s = true.
Proof.
  unfold Router.get_next_step.
  destruct (Router._get_applicable_processors r f job) as [|a l]; [discriminate|].
  destruct (ProcessorRegistry_.get_execution_order r (a :: l)) as [ordered|e];
    [|discriminate].
  intros Hhead. apply head_Some_elem_of, list_elem_of_filter in Hhead as [Hrun _].
  exact Hrun.
Qed.

Lemma runnable_can_run (r : ProcessorRegistry) (job : Job) (s : string) :
  Router.runnable r (Job_.get_completed_steps job) s = true →
  is_Some (ProcessorRegistry_.get s r) ∧ Router.can_run_step r job s = (true, "").
Proof.
  unfold Router.runnable, Router.can_run_step, Job_.has_completed_step.
  intros Hrun. apply andb_true_iff in Hrun as [Hnot Hdeps].
  apply negb_true_iff in Hnot. rewrite Hnot.
  destruct (ProcessorRegistry_.get s r) as [processor|]; [|discriminate].
  split; [eauto|].
  replace (filter _ (requires processor)) with (@nil string); [reflexivity|].
  symmetry. apply filter_nil_iff. intros dep Hdep Hmiss. apply Hmiss.
  unfold Router.deps_satisfied in Hdeps. rewrite forallb_forall in Hdeps.
  apply list_elem_of_In in Hdep. apply Hdeps in Hdep.
  apply bool_decide_eq_true in Hdep. exact Hdep.
Qed.

(** The paths of [execute_step] for a registered processor that can run. *)
Lemma execute_step_spec (r : ProcessorRegistry) (job : Job) (step : string)
    (w : World) (processor : Processor) :
  ProcessorRegistry_.get step r = Some processor →
  (Router.can_run_step r job step).1 = true →
  ∃ job' w' result,
    JobExecutor.execute_step codec r job step w = (job', w', Ok result)
    ∧ history job' = history job ++ [result]
    ∧ step_id result = uuid_supply w
    ∧ step_name result = step
    ∧ step_job_id result = job_id job
    ∧ (∀ a, a ∈ artifacts result → is_Some (artifact_rows w' !! artifact_id a))
    ∧ (∃ row, job_rows w' !! job_id job = Some row
              ∧ status row = status job' ∧ history row = history job').
Proof.
  intros Hget Hcan. unfold JobExecutor.execute_step. rewrite Hget.
  destruct (Router.can_run_step r job step) as [can_run reason].
  simpl in Hcan. subst can_run. simpl negb. unfold fresh_uuid. cbv beta iota zeta.
  destruct (_ || _).
  - eexists _, _, _. split; [reflexivity|].
    repeat split; try reflexivity.
    + intros a Ha. inversion Ha.
    + lazymatch goal with
      | |- ∃ row, job_rows (emit _ (JobStore.save ?j ?w)) !! _ = Some row ∧ _ =>
          destruct (job_store_save_lookup j w) as (row & Hrow & Hst & _ & Hh & _)
      end.
      exists row. repeat split; [exact Hrow|exact Hst|exact Hh].
  - match goal with
    | |- context [JobExecutor._do_execute codec ?j ?p ?res (JobStore.save ?j ?w0)] =>
        destruct (do_execute_spec j p res (JobStore.save j w0))
          as (job' & w' & result' & Heq & Hh & Hid & Hsid & Hname & Hjid & Harts & Hrow);
        destruct (job_store_save_lookup j w0) as (row0 & Hrow0 & _);
        specialize (Harts (ex_intro _ row0 Hrow0))
    end.
    rewrite Heq. exists job', w', result'. split; [reflexivity|].
    simpl in *. repeat split; try assumption.
    intros a Ha. destruct (Harts a Ha) as [Hnil|Hsome]; [inversion Hnil|exact Hsome].
Qed.

(** X11. Running a registered step that can run records exactly one new
    result: it is appended to the job's history, earlier entries are kept,
    it carries the step's name and the job's id, and the job row in the
    store shows the same status and history as the job handed back. *)
Theorem execute_step_records (r : ProcessorRegistry) (job : Job) (step : string)
    (w : World) (processor : Processor) :
  ProcessorRegistry_.get step r = Some processor →
  (Router.can_run_step r job step).1 = true →
  ∃ job' w' result,
    JobExecutor.execute_step codec r job step w = (job', w', Ok result)
    ∧ history job' = history job ++ [result]
    ∧ step_name result = step
    ∧ step_job_id result = job_id job
    ∧ ∃ row, job_rows w' !! job_id job = Some row
             ∧ status row = status job' ∧ history row = history job'.
Proof.
  intros Hget Hcan.
  destruct (execute_step_spec r job step w processor Hget Hcan)
    as (job' & w' & result & Heq & Hh & _ & Hname & Hjid & _ & Hrow).
  exists job', w', result. auto.
Qed.


(** X13. Every artifact listed in the result [execute_step] returns has a
    row in the artifact table. *)
Theorem execute_step_artifacts_persisted (r : ProcessorRegistry) (job : Job)
    (step : string) (w : World) (job' : Job) (w' : World) (result : StepResult) :
  JobExecutor.execute_step codec r job step w = (job', w', Ok result) →
  ∀ a, a ∈ artifacts result → is_Some (artifact_rows w' !! artifact_id a).
Proof.
  intros Heq. destruct (ProcessorRegistry_.get step r) as [processor|] eqn:Hget.
  - destruct (Router.can_run_step r job step) as [can_run reason] eqn:Hcan.
    destruct can_run.
    + destruct (execute_step_spec r job step w processor Hget)
        as (job2 & w2 & result2 & Heq2 & _ & _ & _ & _ & Harts & _);
        [rewrite Hcan; reflexivity|].
      rewrite Heq in Heq2. injection Heq2 as <- <- <-. exact Harts.
    + unfold JobExecutor.execute_step in Heq. rewrite Hget, Hcan in Heq.
      simpl in Heq. injection Heq as <- <- <-. intros a Ha. inversion Ha.
  - unfold JobExecutor.execute_step in Heq. rewrite Hget in Heq. discriminate.
Qed.

(** X14. A step whose run came back [completed] is never offered again by
    the router, whatever the files look like. *)
Theorem completed_step_not_offered_again (r : ProcessorRegistry) (job : Job)
    (step : string) (w : World) (job' : Job) (w' : World) (result : StepResult) :
  JobExecutor.execute_step codec r job step w = (job', w', Ok result) →
  step_status result = STEP_COMPLETED →
  ∀ f, Router.get_next_step r f job' ≠ Some step.
Proof.
  intros Heq Hdone f Hnext.
  apply get_next_step_runnable, runnable_not_completed in Hnext. apply Hnext.
  apply elem_of_get_completed_steps. exists result.
  destruct (ProcessorRegistry_.get step r) as [processor|] eqn:Hget.
  - destruct (Router.can_run_step r job step) as [can_run reason] eqn:Hcan.
    destruct can_run.
    + destruct (execute_step_spec r job step w processor Hget)
        as (job2 & w2 & result2 & Heq2 & Hh & _ & Hname & _);
        [rewrite Hcan; reflexivity|].
      rewrite Heq in Heq2. injection Heq2 as <- <- <-.
      rewrite Hh. split; [|auto]. apply elem_of_app. right. left.
    + unfold JobExecutor.execute_step in Heq. rewrite Hget, Hcan in Heq.
      simpl in Heq. injection Heq as <- <- <-. discriminate.
  - unfold JobExecutor.execute_step in Heq. rewrite Hget in Heq. discriminate.
Qed.

(** X15. When the processor asks for input ([requires_input] is "always",
    or "conditional" with [requires_user_input] true on the started job)
    the body is not run: the step and the job are left awaiting input, the
    job points at the step, the callback is notified, and the files, the
    artifact table and the data bag are as before. *)
Theorem execute_step_awaits_input (r : ProcessorRegistry) (job : Job)
    (step : string) (w : World) (processor : Processor) :
  ProcessorRegistry_.get step r = Some processor →
  (Router.can_run_step r job step).1 = true →
  requires_input processor = "always"
  ∨ (requires_input processor = "conditional"
     ∧ requires_user_input processor
         (Job_.start_processing (utcnow w) step job) = true) →
  ∃ job' w' result,
    JobExecutor.execute_step codec r job step w = (job', w', Ok result)
    ∧ step_status result = STEP_AWAITING_INPUT
    ∧ status job' = JOB_AWAITING_INPUT
    ∧ current_step job' = Some step
    ∧ data job' = data job
    ∧ fs w' = fs w ∧ artifact_rows w' = artifact_rows w
    ∧ events w' = events w ++ [EvAwaitingInput (job_id job) step].
Proof.
  intros Hget Hcan Hinput. unfold JobExecutor.execute_step. rewrite Hget.
  destruct (Router.can_run_step r job step) as [can_run reason].
  simpl in Hcan. subst can_run. simpl negb. unfold fresh_uuid. cbv beta iota zeta.
  replace (_ || _) with true.
  - eexists _, _, _. split; [reflexivity|]. simpl. repeat split; reflexivity.
  - symmetry. destruct Hinput as [Halways|[Hcond Hask]].
    + rewrite Halways. reflexivity.
    + rewrite Hcond. simpl. exact Hask.
Qed.

(** X16. What [execute_next_step] returns.  When it returns no result,
    the job has been marked completed and nothing was run: the history, the
    files and the artifact table are as before.  When it returns a result,
    that is the result of the step the router named, appended to the
    history. *)
Theorem execute_next_step_returns (r : ProcessorRegistry) (job : Job)
    (w : World) (job' : Job) (w' : World) (res : option StepResult) :
  JobExecutor.execute_next_step codec r job w = (job', w', Ok res) →
  match res with
  | None =>
      status job' = JOB_COMPLETED ∧ history job' = history job
      ∧ fs w' = fs w ∧ artifact_rows w' = artifact_rows w
  | Some result =>
      Router.get_next_step r (fs w) job = Some (step_name result)
      ∧ history job' = history job ++ [result]
  end.
Proof.
  unfold JobExecutor.execute_next_step.
  destruct (Router.get_next_step r (fs w) job) as [step|] eqn:Hnext.
  - destruct (decide (step = "")).
    + intros [= <- <- <-]. simpl. auto.
    + apply get_next_step_runnable, runnable_can_run in Hnext as [[p Hget] Hcan].
      destruct (execute_step_spec r job step w p Hget)
        as (job2 & w2 & result & Heq & Hh & _ & Hname & _);
        [rewrite Hcan; reflexivity|].
      rewrite Heq. intros [= <- <- <-]. rewrite Hname. auto.
  - intros [= <- <- <-]. simpl. auto.
Qed.
End executor.

Lemma execute_step_records_witness :
  ∃ job' w' result,
    JobExecutor.execute_step Fixtures.codec0 Fixtures.reg_writer Fixtures.job0
      "writer" Fixtures.world0 = (job', w', Ok result)
    ∧ history job' = [result].
Proof.
  destruct (execute_step_records Fixtures.codec0 Fixtures.reg_writer Fixtures.job0
              "writer" Fixtures.world0
              (Fixtures.proc_with "writer" Fixtures.body_create_ok))
    as (job' & w' & result & Heq & Hh & _).
  - reflexivity.
  - reflexivity.
  - exists job', w', result. auto.
Defined.


Lemma execute_next_step_returns_witness :
  Router.get_next_step Fixtures.reg_writer ∅ Fixtures.job0 = Some "writer".
Proof.
  pose proof (execute_next_step_returns Fixtures.codec0 Fixtures.reg_writer
                Fixtures.job0 Fixtures.world0 _ _ _ eq_refl) as [Hnext _].
  exact Hnext.
Defined.

Lemma execute_step_artifacts_persisted_witness :
  is_Some (artifact_rows
             (JobExecutor.execute_step Fixtures.codec0 Fixtures.reg_writer
                Fixtures.job0 "writer" Fixtures.world0).1.2 !! 101%N).
Proof.
  eapply (execute_step_artifacts_persisted Fixtures.codec0 Fixtures.reg_writer
            Fixtures.job0 "writer" Fixtures.world0 _ _ _ eq_refl
            (Artifact_.mark_created
               (mkArtifact 101%N 1%N "writer" FILE_CREATE "/v/out.md" None
                  (Some "text") {["encoding" := JStr "utf-8"]} ART_PENDING
                  FULLY_REVERSIBLE 0 None None))).
  vm_compute. left.
Defined.

Lemma completed_step_not_offered_again_witness :
  Router.get_next_step Fixtures.reg_writer ∅
    (JobExecutor.execute_step Fixtures.codec0 Fixtures.reg_writer Fixtures.job0
       "writer" Fixtures.world0).1.1 ≠ Some "writer".
Proof.
  eapply (completed_step_not_offered_again Fixtures.codec0 Fixtures.reg_writer
            Fixtures.job0 "writer" Fixtures.world0 _ _ _ eq_refl).
  reflexivity.
Defined.

Lemma execute_step_awaits_input_witness :
  ∃ job' w' result,
    JobExecutor.execute_step Fixtures.codec0 Fixtures.reg_asker Fixtures.job0
      "asker" Fixtures.world0 = (job', w', Ok result)
    ∧ step_status result = STEP_AWAITING_INPUT.
Proof.
  destruct (execute_step_awaits_input Fixtures.codec0 Fixtures.reg_asker
              Fixtures.job0 "asker" Fixtures.world0 Fixtures.asker)
    as (job' & w' & result & Heq & Hst & _).
  - reflexivity.
  - reflexivity.
  - left. reflexivity.
  - exists job', w', result. auto.
Defined.

(** * Executor: reverting steps *)

Lemma last_index_found (step : string) (h : list StepResult) :
  ∀ (off : nat) (found : option nat) (i : nat),
    JobExecutor.last_index step h off found = Some i →
    found = Some i
    ∨ ∃ res, h !! (i - off)%nat = Some res ∧ (off ≤ i)%nat ∧ step_name res = step.
Proof.
  induction h as [|r h IH]; intros off found i Hidx; simpl in Hidx; [auto|].
  apply IH in Hidx as [Hfound|(res & Hres & Hle & Hname)].
  - destruct (decide (step_name r = step)) as [Hr|Hr]; [|auto].
    injection Hfound as <-. right. exists r.
    rewrite Nat.sub_diag. auto.
  - right. exists res. replace (i - off)%nat with (S (i - S off)) by lia.
    split; [exact Hres|]. split; [lia|exact Hname].
Qed.

Lemma last_index_is_Some (step : string) (h : list StepResult) :
  ∀ (off : nat) (found : option nat),
    is_Some found ∨ (∃ res, res ∈ h ∧ step_name res = step) →
    is_Some (JobExecutor.last_index step h off found).
Proof.
  induction h as [|r h IH]; intros off found Hsome; simpl.
  - destruct Hsome as [Hsome|(res & Hin & _)]; [exact Hsome|inversion Hin].
  - apply IH. destruct (decide (step_name r = step)) as [Hr|Hr]; [left; eauto|].
    destruct Hsome as [Hsome|(res & Hin & Hname)]; [auto|].
    apply elem_of_cons in Hin as [->|Hin]; [contradiction|eauto].
Qed.

Lemma last_index_ext (step : string) (h : list StepResult) :
  ∀ (h' : list StepResult) (off : nat) (found : option nat),
    step_name <$> h = step_name <$> h' →
    JobExecutor.last_index step h off found
    = JobExecutor.last_index step h' off found.
Proof.
  induction h as [|r h IH]; intros [|r' h'] off found Hnames; try discriminate;
    [reflexivity|].
  simpl in *. injection Hnames as Hr Hnames. rewrite Hr. apply IH, Hnames.
Qed.

(** With distinct step names the index [revert_step] works on is the index
    of the one result that bears the name. *)
Lemma last_index_unique (step : string) (h : list StepResult) (k : nat)
    (res : StepResult) :
  NoDup (step_name <$> h) → h !! k = Some res → step_name res = step →
  JobExecutor.last_index step h 0 None = Some k.
Proof.
  intros Hnd Hk Hname.
  destruct (last_index_is_Some step h 0%nat None) as [i Hi].
  { right. exists res. split; [|exact Hname]. eapply list_elem_of_lookup_2, Hk. }
  rewrite Hi. f_equal.
  apply last_index_found in Hi as [Hi|(res' & Hres' & _ & Hname')]; [discriminate|].
  rewrite Nat.sub_0_r in Hres'.
  apply (NoDup_lookup (step_name <$> h) i k step Hnd);
    rewrite list_lookup_fmap; [rewrite Hres'|rewrite Hk]; simpl; congruence.
Qed.

Section reverting.
Variable codec : Codec.

Lemma revert_step_false (r : ProcessorRegistry) (job : Job) (step : string)
    (w : World) :
  (JobExecutor.revert_step codec r job step w).2 = false →
  JobExecutor.revert_step codec r job step w = (job, w, false).
Proof.
  unfold JobExecutor.revert_step.
  destruct (ProcessorRegistry_.get step r) as [processor|]; [|reflexivity].
  destruct (JobExecutor.last_index step (history job) 0 None) as [i|]; [|reflexivity].
  destruct (history job !! i) as [result|]; [|reflexivity].
  destruct (StepResult_.can_revert result); [|reflexivity]. simpl negb. cbv iota.
  destruct (foldl _ _ _) as [w1 err].
  destruct (JobExecutor.run_script codec _ _ _ _) as [[[job2 ctx2] w2] res].
  discriminate.
Qed.

Lemma alter_as_insert {A} (f : A → A) (i : nat) (l : list A) (x : A) :
  l !! i = Some x → alter f i l = <[i := f x]> l.
Proof.
  intros Hx. apply list_eq. intros j. destruct (decide (i = j)) as [<-|Hne].
  - rewrite list_lookup_alter_eq, Hx, list_lookup_insert_eq;
      [reflexivity|eapply lookup_lt_Some, Hx].
  - rewrite list_lookup_alter_ne, list_lookup_insert_ne by done. reflexivity.
Qed.

(** The successful path of [revert_step]: one entry of the history is
    replaced, by a result marked reverted. *)
Lemma revert_step_ok (r : ProcessorRegistry) (job : Job) (step : string)
    (w : World) (processor : Processor) (i : nat) (result : StepResult) :
  ProcessorRegistry_.get step r = Some processor →
  JobExecutor.last_index step (history job) 0 None = Some i →
  history job !! i = Some result →
  StepResult_.can_revert result = true →
  ∃ job' w' res',
    JobExecutor.revert_step codec r job step w = (job', w', true)
    ∧ history job' = <[i := res']> (history job)
    ∧ step_status res' = STEP_REVERTED
    ∧ step_name res' = step_name result
    ∧ artifacts res' = artifacts result
    ∧ job_id job' = job_id job ∧ status job' = status job.
Proof.
  intros Hget Hidx Hres Hcan.
  unfold JobExecutor.revert_step. rewrite Hget, Hidx, Hres, Hcan. simpl negb.
  cbv iota.
  destruct (foldl (JobExecutor.revert_one codec) (w, None)
              (reverse (artifacts result))) as [w1 err].
  set (g1 := JobExecutor.set_revert_error_opt err).
  set (job1 := JobExecutor.update_result i g1 job).
  pose proof (run_script_with_data codec (revert processor job1 (g1 result))
                job1 (ExecutionContext_.new (job_id job1) step) w1) as Hjob.
  destruct (JobExecutor.run_script codec _ job1 _ w1) as [[[job2 ctx2] w2] res].
  simpl in Hjob.
  assert (Hg1 : step_name (g1 result) = step_name result
                ∧ artifacts (g1 result) = artifacts result)
    by (unfold g1; destruct err; auto).
  destruct Hg1 as [Hg1n Hg1a].
  assert (Hh2 : history job2 = <[i := g1 result]> (history job)).
  { rewrite Hjob. simpl. apply alter_as_insert, Hres. }
  assert (Hi : (i < length (history job))%nat) by (eapply lookup_lt_Some, Hres).
  destruct res as [b|e]; eexists _, _, _; (split; [reflexivity|]);
    unfold JobExecutor.update_result; simpl; rewrite Hh2.
  - split.
    { erewrite alter_as_insert by (apply list_lookup_insert_eq, Hi).
      apply list_insert_insert_eq. }
    rewrite Hjob. simpl. auto.
  - split.
    { erewrite (alter_as_insert _ i (<[i:=g1 result]> _))
        by (apply list_lookup_insert_eq, Hi).
      rewrite list_insert_insert_eq.
      erewrite alter_as_insert by (apply list_lookup_insert_eq, Hi).
      apply list_insert_insert_eq. }
    rewrite Hjob. simpl. auto.
Qed.

Lemma revert_step_cannot (r : ProcessorRegistry) (job : Job) (step : string)
    (w : World) (res : StepResult) :
  Job_.get_step_result step job = Some res →
  StepResult_.can_revert res = false →
  JobExecutor.revert_step codec r job step w = (job, w, false).
Proof.
  rewrite get_step_result_last_index. intros Hres Hcan.
  unfold JobExecutor.revert_step.
  destruct (ProcessorRegistry_.get step r) as [processor|]; [|reflexivity].
  destruct (JobExecutor.last_index step (history job) 0 None) as [i|];
    [|discriminate].
  simpl in Hres. rewrite Hres, Hcan. reflexivity.
Qed.

(** X17. [revert_step] refuses, returning false, exactly when the step has
    no registered processor, the job has no result for it, or its latest
    result cannot be reverted; a refused revert leaves the job and the world
    as they were. *)
Theorem revert_step_refused (r : ProcessorRegistry) (job : Job) (step : string)
    (w : World) :
  ((JobExecutor.revert_step codec r job step w).2 = false
   ↔ ProcessorRegistry_.get step r = None
     ∨ Job_.get_step_result step job = None
     ∨ ∃ res, Job_.get_step_result step job = Some res
              ∧ StepResult_.can_revert res = false)
  ∧ ((JobExecutor.revert_step codec r job step w).2 = false →
     (JobExecutor.revert_step codec r job step w).1 = (job, w)).
Proof.
  split; [|intros H; rewrite (revert_step_false r job step w H); reflexivity].
  rewrite get_step_result_last_index.
  destruct (ProcessorRegistry_.get step r) as [processor|] eqn:Hget;
    [|unfold JobExecutor.revert_step; rewrite Hget; simpl; tauto].
  destruct (JobExecutor.last_index step (history job) 0 None) as [i|] eqn:Hidx;
    [|unfold JobExecutor.revert_step; rewrite Hget, Hidx; simpl; tauto].
  simpl. destruct (history job !! i) as [result|] eqn:Hres;
    [|unfold JobExecutor.revert_step; rewrite Hget, Hidx, Hres; simpl; tauto].
  destruct (StepResult_.can_revert result) eqn:Hcan.
  - destruct (revert_step_ok r job step w processor i result Hget Hidx Hres Hcan)
      as (job' & w' & res' & Heq & _).
    rewrite Heq. simpl. split; [discriminate|].
    intros [H|[H|(res & [= <-] & H)]]; congruence.
  - unfold JobExecutor.revert_step. rewrite Hget, Hidx, Hres, Hcan. simpl.
    split; [|reflexivity]. intros _. right. right. eauto.
Qed.

(** X18. A step cannot be reverted twice: after a successful [revert_step]
    a second call for the same step is refused and changes nothing. *)
Theorem revert_step_not_twice (r : ProcessorRegistry) (job : Job) (step : string)
    (w : World) (job' : Job) (w' : World) :
  JobExecutor.revert_step codec r job step w = (job', w', true) →
  ∀ w'', JobExecutor.revert_step codec r job' step w'' = (job', w'', false).
Proof.
  intros Heq w''.
  destruct (ProcessorRegistry_.get step r) as [processor|] eqn:Hget;
    [|unfold JobExecutor.revert_step in Heq; rewrite Hget in Heq; discriminate].
  destruct (JobExecutor.last_index step (history job) 0 None) as [i|] eqn:Hidx;
    [|unfold JobExecutor.revert_step in Heq; rewrite Hget, Hidx in Heq; discriminate].
  destruct (history job !! i) as [result|] eqn:Hres;
    [|unfold JobExecutor.revert_step in Heq; rewrite Hget, Hidx, Hres in Heq;
      discriminate].
  destruct (StepResult_.can_revert result) eqn:Hcan;
    [|unfold JobExecutor.revert_step in Heq; rewrite Hget, Hidx, Hres, Hcan in Heq;
      discriminate].
  destruct (revert_step_ok r job step w processor i result Hget Hidx Hres Hcan)
    as (job2 & w2 & res' & Heq2 & Hh & Hst & Hname & _).
  rewrite Heq in Heq2. injection Heq2 as <- <-.
  assert (Hi : (i < length (history job))%nat) by (eapply lookup_lt_Some, Hres).
  unfold JobExecutor.revert_step. rewrite Hget.
  rewrite (last_index_ext step (history job') (history job)), Hidx.
  - rewrite Hh, list_lookup_insert_eq by exact Hi.
    unfold StepResult_.can_revert. rewrite Hst. reflexivity.
  - rewrite Hh, list_fmap_insert, Hname. apply list_insert_id.
    rewrite list_lookup_fmap, Hres. reflexivity.
Qed.

(** X19. A step that recorded an API call declared not reversible is never
    reverted: [revert_step] refuses and touches nothing. *)
Theorem irreversible_call_blocks_revert (r : ProcessorRegistry) (job : Job)
    (step : string) (w : World) (result : StepResult)
    (service action : string) (request_data response_data : json)
    (reverse_action : option string) (ctx0 ctx1 : ExecutionContext)
    (w0 w1 : World) (art : Artifact) :
  ExecutionContext_.record_api_call codec service action request_data
    response_data false reverse_action ctx0 w0 = (ctx1, w1, Ok art) →
  Job_.get_step_result step job = Some result →
  art ∈ artifacts result →
  JobExecutor.revert_step codec r job step w = (job, w, false).
Proof.
  intros Hcall Hres Hin. apply (revert_step_cannot r job step w result Hres).
  unfold ExecutionContext_.record_api_call in Hcall. simpl in Hcall.
  injection Hcall as _ _ <-.
  unfold StepResult_.can_revert. apply andb_false_iff. right.
  apply not_true_iff_false. intros Hall. rewrite forallb_forall in Hall.
  apply list_elem_of_In, Hall in Hin. discriminate Hin.
Qed.
End reverting.

Lemma revert_step_not_twice_witness :
  JobExecutor.revert_step Fixtures.codec0 Fixtures.reg_movers
    (JobExecutor.revert_step Fixtures.codec0 Fixtures.reg_movers
       (Fixtures.job_done_with "mover" [Fixtures.move_artifact]) "mover"
       (Fixtures.world_with {["/v/b.md" := File "moved"]})).1.1
    "mover" Fixtures.world0
  = ((JobExecutor.revert_step Fixtures.codec0 Fixtures.reg_movers
        (Fixtures.job_done_with "mover" [Fixtures.move_artifact]) "mover"
        (Fixtures.world_with {["/v/b.md" := File "moved"]})).1.1,
     Fixtures.world0, false).
Proof.
  exact (revert_step_not_twice Fixtures.codec0 Fixtures.reg_movers
           (Fixtures.job_done_with "mover" [Fixtures.move_artifact]) "mover"
           (Fixtures.world_with {["/v/b.md" := File "moved"]}) _ _ eq_refl
           Fixtures.world0).
Defined.

Lemma irreversible_call_blocks_revert_witness :
  JobExecutor.revert_step Fixtures.codec0 Fixtures.reg_movers
    (Fixtures.job_done_with "mover" [Fixtures.api_artifact]) "mover"
    Fixtures.world0
  = (Fixtures.job_done_with "mover" [Fixtures.api_artifact], Fixtures.world0, false).
Proof.
  eapply (irreversible_call_blocks_revert Fixtures.codec0 Fixtures.reg_movers
            _ "mover" Fixtures.world0 _ "svc" "post" JNull JNull None
            (ExecutionContext_.new 1%N "mover") _ Fixtures.world0 _
            Fixtures.api_artifact).
  - vm_compute. reflexivity.
  - reflexivity.
  - simpl. left.
Defined.

(** * Executor: reverting several steps *)

Lemma reverted_in_refl (h0 : list StepResult) : reverted_in h0 [] h0.
Proof.
  intros k. destruct (h0 !! k) as [res0|] eqn:Hk; [|reflexivity].
  exists res0. split; [reflexivity|]. split; [reflexivity|].
  destruct (decide (step_name res0 ∈ [])) as [Hin|_]; [inversion Hin|reflexivity].
Qed.

Lemma reverted_in_ext (h0 : list StepResult) (done done' : list string)
    (h : list StepResult) :
  (∀ x, x ∈ done ↔ x ∈ done') → reverted_in h0 done h → reverted_in h0 done' h.
Proof.
  intros Hext Hinv k. specialize (Hinv k).
  destruct (h0 !! k) as [res0|]; [|exact Hinv].
  destruct Hinv as (res & Hres & Hname & Hst). exists res.
  split; [exact Hres|]. split; [exact Hname|].
  destruct (decide (step_name res0 ∈ done)) as [Hin|Hin];
    destruct (decide (step_name res0 ∈ done')) as [Hin'|Hin'];
    try assumption; exfalso; [apply Hin', Hext, Hin|apply Hin, Hext, Hin'].
Qed.

Lemma reverted_in_names (h0 : list StepResult) (done : list string)
    (h : list StepResult) :
  reverted_in h0 done h → step_name <$> h = step_name <$> h0.
Proof.
  intros Hinv. apply list_eq. intros k. rewrite !list_lookup_fmap.
  specialize (Hinv k). destruct (h0 !! k) as [res0|].
  - destruct Hinv as (res & -> & Hname & _). simpl. congruence.
  - rewrite Hinv. reflexivity.
Qed.

Section reverting_many.
Variable codec : Codec.
Variable r : ProcessorRegistry.
Variable h0 : list StepResult.
Hypothesis names_nodup : NoDup (step_name <$> h0).

Lemma revert_step_inv (done : list string) (job : Job) (s : string) (w : World) :
  reverted_in h0 done (history job) →
  s ∉ done → revertable_name r h0 s →
  ∃ job' w',
    JobExecutor.revert_step codec r job s w = (job', w', true)
    ∧ reverted_in h0 (s :: done) (history job')
    ∧ job_id job' = job_id job ∧ status job' = status job.
Proof.
  intros Hinv Hs (k & res0 & Hk & Hname & Hcan & [processor Hget]).
  pose proof (reverted_in_names _ _ _ Hinv) as Hnames.
  pose proof (Hinv k) as Hinvk. rewrite Hk in Hinvk.
  destruct Hinvk as (res & Hres & _ & Hsame).
  destruct (decide (step_name res0 ∈ done)) as [Hin|_]; [congruence|]. subst res.
  assert (Hidx : JobExecutor.last_index s (history job) 0 None = Some k).
  { apply (last_index_unique s (history job) k res0); [|exact Hres|exact Hname].
    rewrite Hnames. exact names_nodup. }
  destruct (revert_step_ok codec r job s w processor k res0 Hget Hidx Hres Hcan)
    as (job' & w' & res' & Heq & Hh & Hst & Hname' & _ & Hid & Hstatus).
  exists job', w'. split; [exact Heq|]. split; [|auto].
  intros k'. rewrite Hh. specialize (Hinv k').
  destruct (decide (k = k')) as [<-|Hne].
  - rewrite Hk. exists res'.
    rewrite list_lookup_insert_eq by (eapply lookup_lt_Some, Hres).
    split; [reflexivity|]. split; [exact Hname'|].
    rewrite decide_True; [exact Hst|]. rewrite Hname. left.
  - rewrite list_lookup_insert_ne by done.
    destruct (h0 !! k') as [res1|] eqn:Hk'; [|exact Hinv].
    destruct Hinv as (res & Hres1 & Hname1 & Hst1). exists res.
    split; [exact Hres1|]. split; [exact Hname1|].
    assert (Hdiff : step_name res1 ≠ s).
    { intros Heq1. apply Hne.
      apply (NoDup_lookup (step_name <$> h0) k k' s names_nodup);
        rewrite list_lookup_fmap; [rewrite Hk|rewrite Hk']; simpl; congruence. }
    destruct (decide (step_name res1 ∈ done)) as [Hin|Hin].
    + rewrite decide_True by (right; exact Hin). exact Hst1.
    + rewrite decide_False; [exact Hst1|].
      intros Hin'. apply elem_of_cons in Hin' as [Heq1|Hin']; contradiction.
Qed.

(** The loop of [revert_to_step]. *)
Lemma revert_steps_all (todo : list string) :
  ∀ (done : list string) (job : Job) (w : World),
    NoDup todo →
    (∀ s, s ∈ todo → (s ∉ done) ∧ revertable_name r h0 s) →
    reverted_in h0 done (history job) →
    ∃ job' w',
      JobExecutor.revert_steps codec r todo job w = (job', w', None)
      ∧ reverted_in h0 (reverse todo ++ done) (history job')
      ∧ job_id job' = job_id job ∧ status job' = status job.
Proof.
  induction todo as [|s todo IH]; intros done job w Hnd Htodo Hinv.
  - exists job, w. simpl. auto.
  - apply NoDup_cons in Hnd as [Hs Hnd].
    destruct (Htodo s) as [Hsd Hrev]; [left|].
    destruct (revert_step_inv done job s w Hinv Hsd Hrev)
      as (job1 & w1 & Heq & Hinv1 & Hid1 & Hst1).
    destruct (IH (s :: done) job1 w1 Hnd) as (job' & w' & Heq' & Hinv' & Hid' & Hst');
      [|exact Hinv1|].
    { intros x Hx. destruct (Htodo x) as [Hxd Hxr]; [right; exact Hx|].
      split; [|exact Hxr]. intros Hin. apply elem_of_cons in Hin as [->|Hin];
        contradiction. }
    exists job', w'. simpl. rewrite Heq, Heq'. split; [reflexivity|].
    rewrite reverse_cons, <- app_assoc. simpl. split; [exact Hinv'|].
    split; congruence.
Qed.

(** The loop of [revert_all]. *)
Lemma revert_all_loop (todo : list StepResult) :
  ∀ (done : list string) (job : Job) (w : World),
    NoDup (step_name <$> todo) →
    (∀ res, res ∈ todo →
       (step_name res ∉ done) ∧ revertable_name r h0 (step_name res)) →
    reverted_in h0 done (history job) →
    let st :=
      foldl (λ st result,
               let '(job, w, _) :=
                 JobExecutor.revert_step codec r st.1 (step_name result) st.2 in
               (job, w)) (job, w) todo in
    reverted_in h0 (reverse (step_name <$> todo) ++ done) (history st.1)
    ∧ job_id st.1 = job_id job ∧ status st.1 = status job.
Proof.
  induction todo as [|res todo IH]; intros done job w Hnd Htodo Hinv.
  - simpl. auto.
  - rewrite fmap_cons in Hnd. apply NoDup_cons in Hnd as [Hs Hnd].
    destruct (Htodo res) as [Hsd Hrev]; [left|].
    destruct (revert_step_inv done job (step_name res) w Hinv Hsd Hrev)
      as (job1 & w1 & Heq & Hinv1 & Hid1 & Hst1).
    simpl foldl. rewrite Heq.
    destruct (IH (step_name res :: done) job1 w1 Hnd) as (Hinv' & Hid' & Hst');
      [|exact Hinv1|].
    { intros x Hx. destruct (Htodo x) as [Hxd Hxr]; [right; exact Hx|].
      split; [|exact Hxr]. intros Hin. apply elem_of_cons in Hin as [Heqx|Hin];
        [|contradiction].
      apply Hs. rewrite <- Heqx. apply list_elem_of_fmap. eauto. }
    rewrite fmap_cons, reverse_cons, <- app_assoc. simpl.
    split; [exact Hinv'|]. split; congruence.
Qed.
End reverting_many.

(** The scan of [revert_to_step], from any state of its two variables. *)
Lemma scan_after_fold_found (target : string) (h : list StepResult) :
  ∀ (found : bool) (acc : list string),
    (foldl (λ st result,
              (st.1 || bool_decide (step_name result = target),
               if st.1 && StepResult_.can_revert result
               then st.2 ++ [step_name result] else st.2))
       (found, acc) h).1
    = found || bool_decide (target ∈ step_name <$> h).
Proof.
  induction h as [|res h IH]; intros found acc; simpl.
  - rewrite orb_false_r. reflexivity.
  - rewrite IH. simpl. rewrite <- orb_assoc. f_equal.
    destruct (decide (step_name res = target)) as [Heq|Hne].
    + rewrite (bool_decide_eq_true_2 _ Heq). simpl. symmetry.
      apply bool_decide_eq_true_2. rewrite <- Heq. left.
    + rewrite (bool_decide_eq_false_2 _ Hne). simpl.
      apply bool_decide_ext. rewrite elem_of_cons.
      split; [auto|intros [H|H]; [congruence|exact H]].
Qed.

Lemma scan_after_fold_true (target : string) (h : list StepResult) :
  ∀ acc : list string,
    foldl (λ st result,
             (st.1 || bool_decide (step_name result = target),
              if st.1 && StepResult_.can_revert result
              then st.2 ++ [step_name result] else st.2))
      (true, acc) h
    = (true,
       acc ++ (step_name <$> filter (λ res, StepResult_.can_revert res = true) h)).
Proof.
  induction h as [|res h IH]; intros acc; simpl.
  - rewrite app_nil_r. reflexivity.
  - rewrite IH. f_equal.
    destruct (StepResult_.can_revert res) eqn:Hcan; simpl.
    + rewrite filter_cons_True by exact Hcan. rewrite <- app_assoc. reflexivity.
    + rewrite filter_cons_False by (rewrite Hcan; discriminate). reflexivity.
Qed.

Lemma scan_after_found (target : string) (h : list StepResult) :
  (JobExecutor.scan_after target h).1 = bool_decide (target ∈ step_name <$> h).
Proof. unfold JobExecutor.scan_after. rewrite scan_after_fold_found. reflexivity. Qed.

Lemma scan_after_split (target : string) (pre post : list StepResult)
    (tr : StepResult) :
  target ∉ step_name <$> pre → step_name tr = target →
  JobExecutor.scan_after target (pre ++ tr :: post)
  = (true, step_name <$> filter (λ res, StepResult_.can_revert res = true) post).
Proof.
  intros Hpre Htr. unfold JobExecutor.scan_after. rewrite foldl_app.
  assert (Hfold : foldl (λ st result,
             (st.1 || bool_decide (step_name result = target),
              if st.1 && StepResult_.can_revert result
              then st.2 ++ [step_name result] else st.2))
            (false, []) pre = (false, [])).
  { clear Htr. induction pre as [|res pre IH] using rev_ind; [reflexivity|].
    rewrite fmap_app, elem_of_app in Hpre. rewrite foldl_app, IH by tauto.
    simpl. rewrite bool_decide_eq_false_2; [reflexivity|].
    intros Heq. apply Hpre. right. simpl. rewrite Heq. left. }
  rewrite Hfold. simpl. rewrite (bool_decide_eq_true_2 _ Htr).
  rewrite scan_after_fold_true. reflexivity.
Qed.

(** Reading the invariant of the loops entry by entry: the results picked
    out by [P] are reverted, the others are as they were. *)
Lemma reverted_in_elem (h0 : list StepResult) (done : list string)
    (h : list StepResult) (P : nat → StepResult → bool) :
  NoDup (step_name <$> h0) →
  reverted_in h0 done h →
  (∀ s, s ∈ done
        ↔ ∃ k res, h0 !! k = Some res ∧ step_name res = s ∧ P k res = true) →
  ∀ k res0,
    h0 !! k = Some res0 →
    ∃ res', h !! k = Some res' ∧ step_name res' = step_name res0
            ∧ if P k res0 then step_status res' = STEP_REVERTED else res' = res0.
Proof.
  intros Hnd Hinv Hdone k res0 Hk. specialize (Hinv k). rewrite Hk in Hinv.
  destruct Hinv as (res & Hres & Hname & Hst). exists res.
  split; [exact Hres|]. split; [exact Hname|].
  destruct (decide (step_name res0 ∈ done)) as [Hin|Hin].
  - apply Hdone in Hin as (k1 & res1 & Hk1 & Hname1 & HP).
    assert (k1 = k) as ->.
    { apply (NoDup_lookup (step_name <$> h0) k1 k (step_name res0) Hnd);
        rewrite list_lookup_fmap; [rewrite Hk1|rewrite Hk]; simpl; congruence. }
    rewrite Hk in Hk1. injection Hk1 as <-. rewrite HP. exact Hst.
  - destruct (P k res0) eqn:HP; [|exact Hst].
    exfalso. apply Hin, Hdone. eauto.
Qed.

Lemma NoDup_reverse_2 {A} (l : list A) : NoDup l → NoDup (reverse l).
Proof. intros Hnd. rewrite reverse_Permutation. exact Hnd. Qed.

Section reverting_jobs.
Variable codec : Codec.

(** X20. [revert_all] always reports success and leaves the job
    [reverted] with no current step.  When the step names of the history
    are distinct and every revertable result has a registered processor, it
    marks every revertable result reverted, leaves the others as they were,
    and nothing revertable remains. *)
Theorem revert_all_reverts_everything (r : ProcessorRegistry) (job : Job)
    (w : World) :
  NoDup (step_name <$> history job) →
  (∀ res, res ∈ history job → StepResult_.can_revert res = true →
          is_Some (ProcessorRegistry_.get (step_name res) r)) →
  ∃ job' w',
    JobExecutor.revert_all codec r job w = (job', w', true)
    ∧ status job' = JOB_REVERTED ∧ current_step job' = None
    ∧ (∀ k res0,
         history job !! k = Some res0 →
         ∃ res', history job' !! k = Some res' ∧ step_name res' = step_name res0
                 ∧ if StepResult_.can_revert res0
                   then step_status res' = STEP_REVERTED else res' = res0)
    ∧ Router.get_revertable_steps job' = [].
Proof.
  intros Hnd Hreg. unfold JobExecutor.revert_all.
  set (job0 := Job_.start_revert (utcnow w) job).
  set (w0 := JobStore.save job0 w).
  set (todo := filter (λ res, StepResult_.can_revert res = true)
                 (reverse (history job0))).
  assert (Htodo_in : ∀ res, res ∈ todo →
            res ∈ history job ∧ StepResult_.can_revert res = true).
  { intros res Hin. apply list_elem_of_filter in Hin as [Hcan Hin].
    rewrite elem_of_reverse in Hin. split; [exact Hin|exact Hcan]. }
  assert (Htodo_nd : NoDup (step_name <$> todo)).
  { apply (sublist_NoDup _ (step_name <$> reverse (history job))).
    - rewrite fmap_reverse. apply NoDup_reverse_2, Hnd.
    - apply fmap_sublist, sublist_filter. }
  assert (Htodo_ok : ∀ res, res ∈ todo →
            (step_name res ∉ []) ∧ revertable_name r (history job) (step_name res)).
  { intros res Hin. destruct (Htodo_in res Hin) as [Hh Hcan].
    split; [apply not_elem_of_nil|].
    pose proof (Hreg res Hh Hcan) as Hget.
    apply list_elem_of_lookup in Hh as [k Hk]. exists k, res. auto. }
  pose proof (revert_all_loop codec r (history job) Hnd todo [] job0 w0 Htodo_nd
                Htodo_ok (reverted_in_refl _)) as Hloop.
  cbv zeta in Hloop. destruct Hloop as (Hinv & _ & _).
  destruct (foldl _ (job0, w0) todo) as [job1 w1]. simpl in Hinv.
  eexists _, _. split; [reflexivity|]. simpl.
  split; [reflexivity|]. split; [reflexivity|].
  assert (Helem : ∀ k res0,
            history job !! k = Some res0 →
            ∃ res', history job1 !! k = Some res'
                    ∧ step_name res' = step_name res0
                    ∧ if StepResult_.can_revert res0
                      then step_status res' = STEP_REVERTED else res' = res0).
  { apply (reverted_in_elem (history job) _ (history job1)
             (λ _ res, StepResult_.can_revert res) Hnd Hinv).
    intros s. rewrite app_nil_r, elem_of_reverse, list_elem_of_fmap. split.
    - intros (res & -> & Hin). destruct (Htodo_in res Hin) as [Hh Hcan].
      apply list_elem_of_lookup in Hh as [k Hk]. eauto.
    - intros (k & res & Hk & Hname & Hcan). exists res. split; [auto|].
      apply list_elem_of_filter. split; [exact Hcan|].
      rewrite elem_of_reverse. eapply list_elem_of_lookup_2, Hk. }
  split; [exact Helem|].
  unfold Router.get_revertable_steps. simpl.
  replace (filter _ (history job1)) with (@nil StepResult); [reflexivity|].
  symmetry. apply filter_nil_iff. intros res' Hin Hcan'.
  apply list_elem_of_lookup in Hin as [k Hk'].
  specialize (Hinv k). destruct (history job !! k) as [res0|] eqn:Hk;
    [|congruence].
  destruct (Helem k res0 Hk) as (res2 & Hk2 & _ & Hst).
  rewrite Hk' in Hk2. injection Hk2 as <-.
  destruct (StepResult_.can_revert res0) eqn:Hcan0.
  - unfold StepResult_.can_revert in Hcan'. rewrite Hst in Hcan'. discriminate.
  - subst res'. congruence.
Qed.

(** X21. [revert_to_step] for a target that has no result in the history
    returns false and leaves the job and the world as they were; for a
    target that has one, the job ends [pending] with no current step when
    it returns true, and [failed] with the message naming the step that
    could not be reverted when it returns false. *)
Theorem revert_to_step_outcome (r : ProcessorRegistry) (job : Job)
    (target : string) (w : World) :
  (target ∉ step_name <$> history job →
   JobExecutor.revert_to_step codec r job target w = (job, w, false))
  ∧ (target ∈ step_name <$> history job →
     ∃ job' w' ok,
       JobExecutor.revert_to_step codec r job target w = (job', w', ok)
       ∧ if ok then status job' = JOB_PENDING ∧ current_step job' = None
         else status job' = JOB_FAILED
              ∧ ∃ s, error_message job' = Some ("Revert failed at step " +:+ s)).
Proof.
  pose proof (scan_after_found target (history job)) as Hfound.
  unfold JobExecutor.revert_to_step.
  destruct (JobExecutor.scan_after target (history job)) as [found steps].
  simpl in Hfound. subst found. split; intros Hin.
  - rewrite bool_decide_eq_false_2 by exact Hin. reflexivity.
  - rewrite bool_decide_eq_true_2 by exact Hin. simpl negb. cbv iota.
    destruct (JobExecutor.revert_steps codec r (reverse steps) _ _)
      as [[job1 w1] [s|]]; eexists _, _, _; (split; [reflexivity|]); simpl; eauto.
Qed.

(** X22. With distinct step names and registered processors,
    [revert_to_step] succeeds and reverts exactly what came after the
    target: the target's result and everything before it are untouched,
    every revertable result after it is marked reverted, and the job is
    [pending] again with no current step. *)
Theorem revert_to_step_reverts_later_steps (r : ProcessorRegistry) (job : Job)
    (target : string) (w : World) (pre post : list StepResult) (tr : StepResult) :
  history job = pre ++ tr :: post →
  step_name tr = target →
  NoDup (step_name <$> history job) →
  (∀ res, res ∈ post → StepResult_.can_revert res = true →
          is_Some (ProcessorRegistry_.get (step_name res) r)) →
  ∃ job' w',
    JobExecutor.revert_to_step codec r job target w = (job', w', true)
    ∧ status job' = JOB_PENDING ∧ current_step job' = None
    ∧ ∀ k res0,
        history job !! k = Some res0 →
        ∃ res', history job' !! k = Some res' ∧ step_name res' = step_name res0
                ∧ if bool_decide (length pre < k)%nat
                     && StepResult_.can_revert res0
                  then step_status res' = STEP_REVERTED else res' = res0.
Proof.
  intros Hh Htr Hnd Hreg.
  assert (Hpre : target ∉ step_name <$> pre).
  { rewrite Hh, fmap_app, fmap_cons in Hnd. apply NoDup_app in Hnd as (_ & Hdis & _).
    intros Hin. apply (Hdis target Hin). rewrite Htr. left. }
  assert (Hpost : ∀ k res, (pre ++ tr :: post) !! k = Some res →
            (length pre < k)%nat ↔ ∃ j, k = (length pre + S j)%nat ∧ post !! j = Some res).
  { intros k res Hk. split.
    - intros Hlt. exists (k - S (length pre))%nat. split; [lia|].
      rewrite lookup_app_r in Hk by lia.
      replace (k - length pre)%nat with (S (k - S (length pre))) in Hk by lia.
      exact Hk.
    - intros (j & -> & _). lia. }
  unfold JobExecutor.revert_to_step.
  pose proof (scan_after_split target pre post tr Hpre Htr) as Hscan.
  rewrite <- Hh in Hscan. rewrite Hscan.
  simpl negb. cbv iota.
  set (job0 := Job_.start_revert (utcnow w) job).
  set (w0 := JobStore.save job0 w).
  set (todo := reverse (step_name <$>
                 filter (λ res, StepResult_.can_revert res = true) post)).
  assert (Hpost_in : ∀ res, res ∈ post →
            ∃ k, history job !! k = Some res ∧ (length pre < k)%nat).
  { intros res Hin. apply list_elem_of_lookup in Hin as [j Hj].
    exists (length pre + S j)%nat. split; [|lia].
    rewrite Hh, lookup_app_r by lia.
    replace (length pre + S j - length pre)%nat with (S j) by lia. exact Hj. }
  destruct (revert_steps_all codec r (history job) Hnd todo [] job0 w0)
    as (job1 & w1 & Heq & Hinv & _ & _).
  { apply NoDup_reverse_2.
    apply (sublist_NoDup _ (step_name <$> history job)); [exact Hnd|].
    apply fmap_sublist. etrans; [apply sublist_filter|].
    rewrite Hh. apply sublist_inserts_l, sublist_cons, reflexivity. }
  { intros s Hs. split; [apply not_elem_of_nil|].
    unfold todo in Hs. rewrite elem_of_reverse in Hs.
    apply list_elem_of_fmap in Hs as (res & -> & Hin).
    apply list_elem_of_filter in Hin as [Hcan Hin].
    pose proof (Hreg res Hin Hcan) as Hget.
    destruct (Hpost_in res Hin) as (k & Hk & _). exists k, res. auto. }
  { apply reverted_in_refl. }
  rewrite Heq. eexists _, _. split; [reflexivity|]. simpl.
  split; [reflexivity|]. split; [reflexivity|].
  apply (reverted_in_elem (history job) _ (history job1)
           (λ k res, bool_decide (length pre < k)%nat && StepResult_.can_revert res)
           Hnd Hinv).
  intros s. unfold todo.
  rewrite app_nil_r, reverse_involutive, list_elem_of_fmap. split.
  - intros (res & -> & Hin). apply list_elem_of_filter in Hin as [Hcan Hin].
    destruct (Hpost_in res Hin) as (k & Hk & Hlt). exists k, res.
    rewrite Hcan, bool_decide_eq_true_2 by exact Hlt. auto.
  - intros (k & res & Hk & Hname & HP). apply andb_true_iff in HP as [Hlt Hcan].
    apply bool_decide_eq_true in Hlt. exists res. split; [auto|].
    apply list_elem_of_filter. split; [exact Hcan|].
    rewrite Hh in Hk. apply (Hpost k res Hk) in Hlt as (j & _ & Hj).
    eapply list_elem_of_lookup_2, Hj.
Qed.
End reverting_jobs.

Lemma revert_all_reverts_everything_witness :
  ∃ job' w',
    JobExecutor.revert_all Fixtures.codec0 Fixtures.reg_abc Fixtures.job_abc_done
      Fixtures.world0 = (job', w', true)
    ∧ Router.get_revertable_steps job' = [].
Proof.
  destruct (revert_all_reverts_everything Fixtures.codec0 Fixtures.reg_abc
              Fixtures.job_abc_done Fixtures.world0)
    as (job' & w' & Heq & _ & _ & _ & Hnone).
  - vm_compute. repeat constructor; compute_done.
  - intros res Hin _. simpl in Hin.
    rewrite !elem_of_cons in Hin.
    destruct Hin as [-> | [-> | [-> | Hin]]]; [| | |inversion Hin]; vm_compute; eauto.
  - exists job', w'. auto.
Defined.

Lemma revert_to_step_reverts_later_steps_witness :
  ∃ job' w',
    JobExecutor.revert_to_step Fixtures.codec0 Fixtures.reg_abc
      Fixtures.job_abc_done "a" Fixtures.world0 = (job', w', true)
    ∧ status job' = JOB_PENDING.
Proof.
  destruct (revert_to_step_reverts_later_steps Fixtures.codec0 Fixtures.reg_abc
              Fixtures.job_abc_done "a" Fixtures.world0 []
              [Fixtures.completed_result "b"; Fixtures.completed_result "c"]
              (Fixtures.completed_result "a"))
    as (job' & w' & Heq & Hst & _).
  - reflexivity.
  - reflexivity.
  - vm_compute. repeat constructor; compute_done.
  - intros res Hin _. rewrite !elem_of_cons in Hin.
    destruct Hin as [-> | [-> | Hin]]; [| |inversion Hin]; vm_compute; eauto.
  - exists job', w'. auto.
Defined.

(** * Execution context: what one operation records *)

Section context.
Variable codec : Codec.










(** X25. With the row of its job in place, [commit] writes a row for
    every pending artifact and closes the context: a second [commit] and a
    later [rollback] change nothing, so what was committed is never undone
    by the context. *)
Theorem commit_is_final (ctx : ExecutionContext) (w : World) :
  _committed ctx = false →
  is_Some (job_rows w !! ctx_job_id ctx) →
  (∀ a, a ∈ _pending_artifacts ctx → artifact_job_id a = ctx_job_id ctx) →
  (ExecutionContext_.commit ctx w).2 = Ok (_pending_artifacts ctx)
  ∧ (∀ a, a ∈ _pending_artifacts ctx →
          is_Some (artifact_rows (ExecutionContext_.commit ctx w).1.2
                     !! artifact_id a))
  ∧ fs (ExecutionContext_.commit ctx w).1.2 = fs w
  ∧ (∀ w1, ExecutionContext_.commit (ExecutionContext_.commit ctx w).1.1 w1
           = ((ExecutionContext_.commit ctx w).1.1, w1,
              Ok (_pending_artifacts ctx)))
  ∧ (∀ w1, ExecutionContext_.rollback codec (ExecutionContext_.commit ctx w).1.1 w1
           = ((ExecutionContext_.commit ctx w).1.1, w1)).
Proof.
  intros Hc Hjob Hown.
  destruct (commit_ok ctx w Hjob Hown) as (Hflag & Hres & Hrows).
  pose proof (commit_frame ctx w) as (Hfs & _ & _ & Hpend & _).
  split; [exact Hres|]. split; [intros a Ha; apply Hrows; assumption|].
  split; [exact Hfs|]. split.
  - intros w1.
    pose proof (commit_frame (ExecutionContext_.commit ctx w).1.1 w1)
      as (_ & _ & _ & _ & Hsame).
    rewrite (Hsame Hflag), Hpend. reflexivity.
  - intros w1. unfold ExecutionContext_.rollback. rewrite Hflag. reflexivity.
Qed.
End context.


(** A file with a DOS line end does not survive its recording, and the
    round trip fails on it. *)
Example round_trip_loses_carriage_return :
  ¬ survives_revert Fixtures.codec0 "utf-8" Fixtures.dos_text
  ∧ ∃ ctx' w' a,
      JobExecutor.do_call Fixtures.codec0 (ModifyFile "/v/n.md" "new" "utf-8")
        (ExecutionContext_.new 1%N "editor")
        (Fixtures.world_with {["/v/n.md" := File Fixtures.dos_text]})
      = (ctx', w', Ok a)
      ∧ ExecutionContext_._revert_artifact Fixtures.codec0 a (fs w')
        = Ok {["/v/n.md" := File ("a" +:+ newline +:+ "b")]}.
Proof.
  split.
  - intros (t & Hdec & Henc). vm_compute in Hdec. injection Hdec as <-.
    vm_compute in Henc. discriminate Henc.
  - eexists _, _, _. split; vm_compute; reflexivity.
Qed.

Lemma commit_is_final_witness :
  is_Some (artifact_rows
             (ExecutionContext_.commit
                (ExecutionContext_.append_pending Fixtures.move_artifact
                   (ExecutionContext_.new 1%N "mover"))
                (Fixtures.world_of_job0 ∅)).1.2
           !! 100%N).
Proof.
  destruct (commit_is_final Fixtures.codec0
              (ExecutionContext_.append_pending Fixtures.move_artifact
                 (ExecutionContext_.new 1%N "mover")) (Fixtures.world_of_job0 ∅)
              eq_refl (ex_intro _ Fixtures.job0 eq_refl))
    as (_ & Hrows & _).
  - intros a Ha. apply list_elem_of_singleton in Ha as ->. reflexivity.
  - apply (Hrows Fixtures.move_artifact). simpl. left.
Defined.

(** Without the row of the job the first new artifact is refused, and the
    context stays open. *)
Example commit_without_job_row :
  ExecutionContext_.commit
    (ExecutionContext_.append_pending Fixtures.move_artifact
       (ExecutionContext_.new 1%N "mover")) Fixtures.world0
  = (ExecutionContext_.append_pending Fixtures.move_artifact
       (ExecutionContext_.new 1%N "mover"), Fixtures.world0,
     Raise (IntegrityError "FOREIGN KEY constraint failed")).
Proof. reflexivity. Qed.

(** * Jobs: timestamps, latest results, published output *)

(** X26. In every reachable job state a job that is [completed], [failed]
    or [cancelled] has its completion time set, a job that is [processing]
    has its start time set, and a [failed] job carries an error message. *)
Theorem job_timestamps (j : Job) :
  reachable j →
  ((status j = JOB_COMPLETED ∨ status j = JOB_FAILED ∨ status j = JOB_CANCELLED) →
     is_Some (completed_at j))
  ∧ (status j = JOB_PROCESSING → is_Some (started_at j))
  ∧ (status j = JOB_FAILED → is_Some (error_message j)).
Proof.
  induction 1 as [id now st sn| now step j Hj IH | now step j Hj IH
                 | now j Hj IH | now error j Hj IH | now j Hj IH
                 | now j Hj IH | now to_step j Hj IH]; simpl;
    repeat split; try discriminate; try (intros [?|[?|?]]; discriminate); eauto.
  - destruct (started_at j); eauto.
  - destruct to_step; intros [?|[?|?]]; discriminate.
  - destruct to_step; discriminate.
  - destruct to_step; discriminate.
Qed.

Lemma job_timestamps_witness :
  is_Some (completed_at (Job_.fail 2 "boom" (Job_.start_processing 1 "a" Fixtures.job0))).
Proof.
  apply (job_timestamps (Job_.fail 2 "boom" (Job_.start_processing 1 "a" Fixtures.job0))).
  - repeat constructor.
  - right. left. reflexivity.
Defined.

(** The latest result wins: after [add_step_result], [get_step_result]
    returns the added result for its own step name, whatever the history
    held for that name, and answers as before for every other name. *)
Lemma get_step_result_add (now : datetime) (res : StepResult) (j : Job)
    (step : string) :
  Job_.get_step_result step (Job_.add_step_result now res j)
  = if decide (step_name res = step) then Some res
    else Job_.get_step_result step j.
Proof.
  unfold Job_.get_step_result. simpl. rewrite reverse_app. simpl.
  rewrite filter_cons. destruct (decide (step_name res = step)); reflexivity.
Qed.

Section publishing.
Variable codec : Codec.

Lemma do_execute_publishes (job : Job) (processor : Processor)
    (result : StepResult) (w : World) (job' : Job) (w' : World)
    (result' : StepResult) :
  JobExecutor._do_execute codec job processor result w = (job', w', Ok result') →
  step_status result' = STEP_COMPLETED →
  ∀ k v, output_data result' !! k = Some v → data job' !! k = Some v.
Proof.
  assert (Hfail : ∀ e job0 result0 ctx0 w0,
            JobExecutor.fail_step codec e job0 processor result0 ctx0 w0
            = (job', w', Ok result') →
            step_status result' = STEP_COMPLETED → False).
  { intros e job0 result0 ctx0 w0 Heq Hst.
    destruct (fail_step_spec codec e job0 processor result0 ctx0 w0)
      as (j & w2 & r2 & Heq2 & -> & _).
    rewrite Heq in Heq2. injection Heq2 as _ _ ->. discriminate Hst. }
  unfold JobExecutor._do_execute.
  destruct (JobExecutor.run_script codec _ job _ w) as [[[job1 ctx1] w1] res].
  destruct res as [step_result|e].
  - destruct (ExecutionContext_.__aexit__ codec false ctx1 w1)
      as [[ctx2 w2] [[]|e]]; [|intros Heq Hst; exfalso; eauto].
    destruct (ArtifactStore.save_each _ w2) as [w3 [[]|e]];
      [|intros Heq Hst; exfalso; eauto].
    repeat case_decide; unfold JobExecutor.finish; intros [= <- <- <-];
      simpl in *; try congruence.
    intros _ k v Hk.
    assert (Hout : (if decide (output_data step_result = ∅)
                    then output_data step_result else output_data step_result)
                   = output_data step_result) by (case_decide; reflexivity).
    rewrite Hout in *. apply lookup_union_Some_l, Hk.
  - destruct (ExecutionContext_.__aexit__ codec true ctx1 w1) as [[ctx2 w2] o].
    intros Heq Hst. exfalso. eauto.
Qed.

(** X27. A completed step publishes its output: every entry of the output
    data of a result that came back [completed] can be read from the job's
    data bag afterwards, with the value the step gave it. *)
Theorem completed_step_publishes_output (r : ProcessorRegistry) (job : Job)
    (step : string) (w : World) (job' : Job) (w' : World) (result : StepResult) :
  JobExecutor.execute_step codec r job step w = (job', w', Ok result) →
  step_status result = STEP_COMPLETED →
  ∀ key v default,
    output_data result !! key = Some v → Job_.get_data key default job' = v.
Proof.
  intros Heq Hdone key v default Hkey. unfold Job_.get_data.
  enough (Hdata : data job' !! key = Some v) by (rewrite Hdata; reflexivity).
  revert Heq. unfold JobExecutor.execute_step.
  destruct (ProcessorRegistry_.get step r) as [processor|]; [|discriminate].
  destruct (Router.can_run_step r job step) as [can_run reason].
  destruct can_run; simpl negb; cbv iota; unfold fresh_uuid; cbv beta iota zeta.
  - destruct (_ || _).
    + intros [= <- <- <-]. discriminate.
    + intros Heq. eapply do_execute_publishes; eauto.
  - intros [= <- <- <-]. discriminate.
Qed.
End publishing.

Lemma completed_step_publishes_output_witness :
  Job_.get_data "title" JNull
    (JobExecutor.execute_step Fixtures.codec0 Fixtures.reg_titler Fixtures.job0
       "titler" Fixtures.world0).1.1
  = JStr "note".
Proof.
  eapply (completed_step_publishes_output Fixtures.codec0 Fixtures.reg_titler
            Fixtures.job0 "titler" Fixtures.world0 _ _ _ eq_refl).
  - reflexivity.
  - reflexivity.
Defined.

(** * Watcher: the debounce queue *)

Lemma filter_all {A} (P : A → Prop) `{!∀ x, Decision (P x)} (l : list A) :
  (∀ x, x ∈ l → P x) → filter P l = l.
Proof.
  induction l as [|a l IH]; intros Hall; [reflexivity|].
  rewrite filter_cons_True by (apply Hall; left).
  f_equal. apply IH. intros x Hx. apply Hall. right. exact Hx.
Qed.

Lemma dict_pop_filter {V} (k : string) (d : list (string * V)) :
  NoDup (dict_keys d) → dict_pop k d = filter (λ kv, kv.1 ≠ k) d.
Proof.
  unfold dict_keys. induction d as [|[k0 v0] d IH]; simpl; intros Hnd;
    [reflexivity|].
  apply NoDup_cons in Hnd as [Hk0 Hnd].
  destruct (decide (k0 = k)) as [->|Hne].
  - rewrite filter_cons_False by (simpl; intros H; apply H; reflexivity).
    rewrite <- (IH Hnd). symmetry. apply dict_pop_absent, Hk0.
  - rewrite filter_cons_True by exact Hne. f_equal. apply IH, Hnd.
Qed.

Lemma dict_set_elem {V} (k : string) (v : V) (d : list (string * V))
    (kv : string * V) :
  kv ∈ dict_set k v d → kv = (k, v) ∨ kv ∈ d.
Proof.
  induction d as [|[k0 v0] d IH]; simpl.
  - intros H. apply list_elem_of_singleton in H. auto.
  - destruct (decide (k0 = k)) as [->|Hne]; intros H;
      apply elem_of_cons in H as [H|H].
    + auto.
    + right. right. exact H.
    + right. rewrite H. left.
    + destruct (IH H) as [Hk|Hd]; [auto|right; right; exact Hd].
Qed.

Lemma dict_set_keys_present {V} (k : string) (v : V) (d : list (string * V)) :
  k ∈ dict_keys d → dict_keys (dict_set k v d) = dict_keys d.
Proof.
  unfold dict_keys. induction d as [|[k0 v0] d IH]; intros Hk.
  - inversion Hk.
  - simpl. destruct (decide (k0 = k)) as [->|Hne]; [reflexivity|].
    simpl. f_equal. apply IH.
    rewrite fmap_cons in Hk. apply elem_of_cons in Hk as [Hk|Hk];
      [simpl in Hk; congruence|exact Hk].
Qed.

Lemma dict_set_keys_NoDup {V} (k : string) (v : V) (d : list (string * V)) :
  NoDup (dict_keys d) → NoDup (dict_keys (dict_set k v d)).
Proof.
  intros Hnd. destruct (decide (k ∈ dict_keys d)) as [Hk|Hk].
  - rewrite dict_set_keys_present by exact Hk. exact Hnd.
  - rewrite dict_set_absent by exact Hk. unfold dict_keys in *.
    rewrite fmap_app. apply NoDup_app. split; [exact Hnd|].
    split; [|apply NoDup_singleton].
    intros x Hx Hx'. apply list_elem_of_singleton in Hx'. subst. contradiction.
Qed.

Lemma dict_set_mem {V} (k : string) (v : V) (d : list (string * V)) :
  k ∈ dict_keys (dict_set k v d).
Proof.
  destruct (decide (k ∈ dict_keys d)) as [Hk|Hk].
  - rewrite dict_set_keys_present by exact Hk. exact Hk.
  - rewrite dict_set_absent by exact Hk. unfold dict_keys.
    rewrite fmap_app. apply elem_of_app. right. left.
Qed.

(** [_queue_event] keeps the queue well formed. *)
Lemma queue_event_wf (now : datetime) (event : FileWatcher.FileEvent)
    (st : FileWatcher.State) :
  pending_wf st → pending_wf (FileWatcher._queue_event now event st).
Proof.
  intros [Hnd Hkey]. split; simpl.
  - apply dict_set_keys_NoDup, Hnd.
  - intros k pe Hin. apply dict_set_elem in Hin as [[= -> ->]|Hin];
      [reflexivity|apply Hkey, Hin].
Qed.

(** The loop of [_process_debounce_queue] over the copied items [l]. *)
Lemma drain_fold (now : datetime) (l : list (string * FileWatcher.PendingEvent)) :
  ∀ (p : list (string * FileWatcher.PendingEvent))
    (e : list FileWatcher.FileEvent),
    NoDup (dict_keys p) →
    foldl (FileWatcher.drain_step now) (p, e) l
    = (filter (λ kv, kv.1 ∉ dict_keys
                 (filter (λ kv, FileWatcher.scheduled_time kv.2 ≤ now) l)) p,
       e ++ (FileWatcher.file_event
               <$> dict_values
                     (filter (λ kv, FileWatcher.scheduled_time kv.2 ≤ now) l))).
Proof.
  induction l as [|kv l IH]; intros p e Hnd; simpl.
  - rewrite app_nil_r. f_equal. symmetry. apply filter_all.
    intros x _. apply not_elem_of_nil.
  - unfold FileWatcher.drain_step at 2. simpl.
    destruct (bool_decide_reflect (FileWatcher.scheduled_time kv.2 ≤ now))
      as [Hdue|Hdue].
    + rewrite IH by (apply dict_pop_keys, Hnd).
      rewrite filter_cons_True by exact Hdue. simpl.
      rewrite dict_pop_filter by exact Hnd. rewrite list_filter_filter.
      rewrite <- app_assoc. simpl. f_equal.
      apply list_filter_iff. intros x. rewrite not_elem_of_cons. tauto.
    + rewrite IH by exact Hnd. rewrite filter_cons_False by exact Hdue.
      reflexivity.
Qed.

Lemma drain_spec (now : datetime) (st : FileWatcher.State) :
  NoDup (dict_keys (FileWatcher._pending_events st)) →
  (FileWatcher.drain now st).2
  = FileWatcher.file_event
      <$> dict_values
            (filter (λ kv, FileWatcher.scheduled_time kv.2 ≤ now)
               (FileWatcher._pending_events st))
  ∧ FileWatcher._pending_events (FileWatcher.drain now st).1
    = filter (λ kv, ¬ FileWatcher.scheduled_time kv.2 ≤ now)
        (FileWatcher._pending_events st).
Proof.
  intros Hnd. unfold FileWatcher.drain.
  rewrite (drain_fold now _ _ [] Hnd). simpl. split; [reflexivity|].
  apply filter_ext_in. intros [k pe] Hin. simpl. split.
  - intros Hk Hdue. apply Hk. unfold dict_keys. apply list_elem_of_fmap.
    exists (k, pe). split; [reflexivity|]. apply list_elem_of_filter. auto.
  - intros Hdue Hk. unfold dict_keys in Hk.
    apply list_elem_of_fmap in Hk as ([k' pe'] & Hkk & Hin').
    simpl in Hkk. subst k'. apply list_elem_of_filter in Hin' as [Hdue' Hin'].
    simpl in Hdue'.
    assert (pe' = pe) as ->; [|contradiction].
    apply (dict_get_elem k pe' _ Hnd) in Hin'.
    apply (dict_get_elem k pe _ Hnd) in Hin. congruence.
Qed.

(** X28. A turn of the debounce loop emits exactly the pending events whose
    time has come, in the order they were queued, and keeps exactly the
    others; a second turn at the same reading of the clock emits nothing. *)
Theorem drain_emits_due (now : datetime) (st : FileWatcher.State) :
  NoDup (dict_keys (FileWatcher._pending_events st)) →
  (FileWatcher.drain now st).2
  = FileWatcher.file_event
      <$> dict_values
            (filter (λ kv, FileWatcher.scheduled_time kv.2 ≤ now)
               (FileWatcher._pending_events st))
  ∧ FileWatcher._pending_events (FileWatcher.drain now st).1
    = filter (λ kv, ¬ FileWatcher.scheduled_time kv.2 ≤ now)
        (FileWatcher._pending_events st)
  ∧ (FileWatcher.drain now (FileWatcher.drain now st).1).2 = [].
Proof.
  intros Hnd. destruct (drain_spec now st Hnd) as [Hev Hpend].
  split; [exact Hev|]. split; [exact Hpend|].
  destruct (drain_spec now (FileWatcher.drain now st).1) as [Hev2 _].
  { rewrite Hpend. unfold dict_keys.
    apply (sublist_NoDup _ (fst <$> FileWatcher._pending_events st)); [exact Hnd|].
    apply fmap_sublist, sublist_filter. }
  rewrite Hev2, Hpend, list_filter_filter.
  replace (filter _ (FileWatcher._pending_events st))
    with (@nil (string * FileWatcher.PendingEvent)); [reflexivity|].
  symmetry. apply filter_nil_iff. intros x _ [H1 H2]. contradiction.
Qed.

(** X29. Debouncing: an event queued for a path replaces the one already
    waiting for that path, in the same place of the queue, and restarts its
    delay.  The earlier event is never emitted, and the later one only once
    its own delay has passed. *)
Theorem queue_event_debounces (t1 t2 : datetime)
    (e1 e2 : FileWatcher.FileEvent) (st : FileWatcher.State) :
  pending_wf st →
  FileWatcher.event_path e1 = FileWatcher.event_path e2 →
  dict_keys (FileWatcher._pending_events
               (FileWatcher._queue_event t2 e2 (FileWatcher._queue_event t1 e1 st)))
  = dict_keys (FileWatcher._pending_events (FileWatcher._queue_event t1 e1 st))
  ∧ ∀ now ev,
      ev ∈ (FileWatcher.drain now
              (FileWatcher._queue_event t2 e2 (FileWatcher._queue_event t1 e1 st))).2 →
      FileWatcher.event_path ev = FileWatcher.event_path e2 →
      ev = e2
      ∧ t2 + debounce_seconds (FileWatcher.watch_config e2) ≤ now.
Proof.
  intros Hwf Hpath.
  pose proof (queue_event_wf t2 e2 _ (queue_event_wf t1 e1 st Hwf)) as [Hnd2 Hkey2].
  split.
  - simpl. apply dict_set_keys_present. rewrite <- Hpath. apply dict_set_mem.
  - intros now ev Hev Hp.
    destruct (drain_spec now _ Hnd2) as [Hevs _]. rewrite Hevs in Hev.
    apply list_elem_of_fmap in Hev as (pe & -> & Hin).
    unfold dict_values in Hin. apply list_elem_of_fmap in Hin as ([k pe'] & -> & Hin).
    apply list_elem_of_filter in Hin as [Hdue Hin]. simpl in Hdue, Hp.
    pose proof (Hkey2 k pe' Hin) as Hk. rewrite Hp in Hk. subst k.
    apply (dict_get_elem _ _ _ Hnd2) in Hin. simpl in Hin.
    rewrite dict_get_set_eq in Hin. injection Hin as <-. simpl in *. auto.
Qed.

Lemma drain_emits_due_witness :
  (FileWatcher.drain 5
     (FileWatcher._queue_event 1 (Fixtures.note_event MODIFIED 1) FileWatcher.new)).2
  = [Fixtures.note_event MODIFIED 1].
Proof.
  destruct (drain_emits_due 5
              (FileWatcher._queue_event 1 (Fixtures.note_event MODIFIED 1)
                 FileWatcher.new)) as [Hev _].
  - simpl. repeat constructor. apply not_elem_of_nil.
  - rewrite Hev. reflexivity.
Defined.

Lemma queue_event_debounces_witness :
  dict_keys (FileWatcher._pending_events
               (FileWatcher._queue_event 2 (Fixtures.note_event MODIFIED 2)
                  (FileWatcher._queue_event 1 (Fixtures.note_event CREATED 1)
                     FileWatcher.new)))
  = ["/watch/note.md"].
Proof.
  destruct (queue_event_debounces 1 2 (Fixtures.note_event CREATED 1)
              (Fixtures.note_event MODIFIED 2) FileWatcher.new) as [Hkeys _].
  - split; [constructor|]. intros k pe Hin. inversion Hin.
  - reflexivity.
  - rewrite Hkeys. reflexivity.
Defined.

(** * Watcher: created or modified *)

Lemma update_seen_lookup (n : string) (g : gset string → gset string)
    (st : FileWatcher.State) (seen : gset string) :
  FileWatcher._seen_files st !! n = Some seen →
  FileWatcher._seen_files (FileWatcher.update_seen n g st) !! n = Some (g seen).
Proof.
  intros Hseen. unfold FileWatcher.update_seen. rewrite Hseen. simpl.
  apply lookup_insert_eq.
Qed.

Lemma map_modified (p : string) (c : WatchConfig) (st : FileWatcher.State) :
  (FileWatcher._map_change_type FileWatcher.modified p c st).2
  = Some (if bool_decide
               (p ∈ default ∅ (FileWatcher._seen_files st !! watch_name c))
          then MODIFIED else CREATED).
Proof.
  unfold FileWatcher._map_change_type. destruct (bool_decide _); reflexivity.
Qed.

(** X30. For a watch that was added, a path is reported [MODIFIED] only
    while it is known: after an [added] or a [modified] change of a path its
    next modification is [MODIFIED], after a [deleted] change it is
    [CREATED] again; and the first modification of a path not seen before is
    [CREATED]. *)
Theorem map_change_type_tracks_seen (c : WatchConfig) (st : FileWatcher.State)
    (p : string) :
  is_Some (FileWatcher._seen_files st !! watch_name c) →
  (∀ change, change ≠ FileWatcher.deleted →
     (FileWatcher._map_change_type FileWatcher.modified p c
        (FileWatcher._map_change_type change p c st).1).2 = Some MODIFIED)
  ∧ (FileWatcher._map_change_type FileWatcher.modified p c
       (FileWatcher._map_change_type FileWatcher.deleted p c st).1).2
    = Some CREATED
  ∧ (p ∉ default ∅ (FileWatcher._seen_files st !! watch_name c) →
     (FileWatcher._map_change_type FileWatcher.modified p c st).2 = Some CREATED).
Proof.
  intros [seen Hseen]. split; [|split].
  - intros change Hchange. rewrite map_modified.
    rewrite bool_decide_eq_true_2; [reflexivity|].
    destruct change; [| |contradiction]; unfold FileWatcher._map_change_type.
    + simpl. rewrite (update_seen_lookup _ _ _ seen Hseen). simpl.
      apply elem_of_union_l, elem_of_singleton. reflexivity.
    + rewrite Hseen. simpl.
      destruct (bool_decide_reflect (p ∈ seen)) as [Hin|Hin]; simpl.
      * rewrite Hseen. exact Hin.
      * rewrite (update_seen_lookup _ _ _ seen Hseen). simpl.
        apply elem_of_union_l, elem_of_singleton. reflexivity.
  - rewrite map_modified. rewrite bool_decide_eq_false_2; [reflexivity|].
    unfold FileWatcher._map_change_type. simpl.
    rewrite (update_seen_lookup _ _ _ seen Hseen). simpl.
    intros Hin. apply elem_of_difference in Hin as [_ Hin].
    apply Hin, elem_of_singleton. reflexivity.
  - intros Hp. rewrite map_modified, bool_decide_eq_false_2 by exact Hp.
    reflexivity.
Qed.

Lemma map_change_type_tracks_seen_witness :
  (FileWatcher._map_change_type FileWatcher.modified "/watch/note.md"
     Fixtures.watch_all
     (FileWatcher._map_change_type FileWatcher.deleted "/watch/note.md"
        Fixtures.watch_all
        (FileWatcher.add_watch Fixtures.watch_all FileWatcher.new ∅).1).1).2
  = Some CREATED.
Proof.
  destruct (map_change_type_tracks_seen Fixtures.watch_all
              (FileWatcher.add_watch Fixtures.watch_all FileWatcher.new ∅).1
              "/watch/note.md") as (_ & Hdel & _).
  - simpl. rewrite lookup_insert_eq. eauto.
  - exact Hdel.
Defined.
